(** * Job-vacancy tracker: search-and-merge subsystem of [main.go]

    A shallow embedding of the local filter/sort engine, the record store
    operations, the Jooble search client and the online-search task of
    [main.go], together with the properties of the functional description
    that concern them.

    Go strings are byte sequences and are modelled by [string]; byte-level
    library functions ([strings.Contains], [strings.Split], [strings.TrimSpace],
    the [<] operator) are written out, the Unicode case tables behind
    [strings.ToLower] and [strings.EqualFold] are an interface with an ASCII
    instance. *)

From Stdlib Require Import ZArith Lia Ascii String List Bool DecimalString.
From stdpp Require Import base list strings.
Import ListNotations.

Local Open Scope string_scope.
Local Open Scope list_scope.

(* ================================================================== *)
(** * The [strings] package                                            *)
(* ================================================================== *)

Module GoStrings.

(** [strings.HasPrefix(s, prefix)]. *)
Fixpoint HasPrefix (s prefix : string) : bool :=
  match prefix with
  | EmptyString => true
  | String p prefix' =>
      match s with
      | EmptyString => false
      | String c s' => Ascii.eqb c p && HasPrefix s' prefix'
      end
  end.

(** [strings.Contains(s, substr)]: some suffix of [s] starts with [substr]. *)
Fixpoint Contains (s substr : string) : bool :=
  HasPrefix s substr ||
  match s with
  | EmptyString => false
  | String _ s' => Contains s' substr
  end.

(** [strings.Split(s, sep)] for a one-byte separator (the source only
    splits on [","]): the pieces between consecutive separators, so the
    result has one more element than [s] has separators. *)
Fixpoint Split (s : string) (sep : ascii) : list string :=
  match s with
  | EmptyString => [EmptyString]
  | String c s' =>
      if Ascii.eqb c sep then EmptyString :: Split s' sep
      else match Split s' sep with
           | piece :: pieces => String c piece :: pieces
           | [] => [String c EmptyString]
           end
  end.

(** The [asciiSpace] table of the [strings] package:
    ['\t'], ['\n'], ['\v'], ['\f'], ['\r'], [' ']. *)
Definition asciiSpace (c : ascii) : bool :=
  let n := nat_of_ascii c in
  (((9 <=? n) && (n <=? 13)) || (n =? 32))%nat.

(** UTF-8 encodings of the remaining runes of [unicode.IsSpace]:
    U+0085 and U+00A0 take two bytes, ... *)
Definition space2 (b1 b2 : ascii) : bool :=
  ((nat_of_ascii b1 =? 194) &&
   ((nat_of_ascii b2 =? 133) || (nat_of_ascii b2 =? 160)))%nat.

(** ... U+1680, U+2000..U+200A, U+2028, U+2029, U+202F, U+205F and U+3000
    take three. *)
Definition space3 (b1 b2 b3 : ascii) : bool :=
  let n1 := nat_of_ascii b1 in
  let n2 := nat_of_ascii b2 in
  let n3 := nat_of_ascii b3 in
  (((n1 =? 225) && (n2 =? 154) && (n3 =? 128)) ||
   ((n1 =? 226) && (n2 =? 128) &&
      (((128 <=? n3) && (n3 <=? 138)) || (n3 =? 168) || (n3 =? 169) || (n3 =? 175))) ||
   ((n1 =? 226) && (n2 =? 129) && (n3 =? 159)) ||
   ((n1 =? 227) && (n2 =? 128) && (n3 =? 128)))%nat.

(** Does [s] start with a white-space rune?  With [flip] the bytes of a
    multi-byte rune are expected last byte first, which is how they
    appear at the start of a reversed string. *)
Definition startsWithSpace (flip : bool) (s : string) : bool :=
  match s with
  | EmptyString => false
  | String b1 EmptyString => asciiSpace b1
  | String b1 (String b2 EmptyString) =>
      asciiSpace b1 || (if flip then space2 b2 b1 else space2 b1 b2)
  | String b1 (String b2 (String b3 _)) =>
      asciiSpace b1 || (if flip then space2 b2 b1 else space2 b1 b2)
      || (if flip then space3 b3 b2 b1 else space3 b1 b2 b3)
  end.

(** Drop white-space runes from the front of [s]. *)
Fixpoint trimFront (flip : bool) (s : string) : string :=
  match s with
  | EmptyString => EmptyString
  | String b1 s1 =>
      if asciiSpace b1 then trimFront flip s1
      else match s1 with
           | EmptyString => s
           | String b2 s2 =>
               if (if flip then space2 b2 b1 else space2 b1 b2)
               then trimFront flip s2
               else match s2 with
                    | EmptyString => s
                    | String b3 s3 =>
                        if (if flip then space3 b3 b2 b1 else space3 b1 b2 b3)
                        then trimFront flip s3
                        else s
                    end
           end
  end.

Definition reverseBytes (s : string) : string :=
  string_of_list_ascii (rev (list_ascii_of_string s)).

(** [strings.TrimSpace(s)]: [s] without its leading and trailing white
    space, as defined by Unicode, on UTF-8 text. *)
Definition TrimSpace (s : string) : string :=
  reverseBytes (trimFront true (reverseBytes (trimFront false s))).

Definition hasLeadingSpace (s : string) : bool := startsWithSpace false s.
Definition hasTrailingSpace (s : string) : bool := startsWithSpace true (reverseBytes s).

(** The [<] operator on strings: byte-wise lexicographic order. *)
Definition stringLess (a b : string) : bool := String.ltb a b.

(** The [%d] verb of [fmt]. *)
Definition itoa (z : Z) : string := NilZero.string_of_int (Z.to_int z).

(** Case mapping.  [strings.ToLower] and [strings.EqualFold] consult the
    Unicode tables, which are not reproduced here; the development only
    relies on the laws below. *)
Class CaseFolding := {
  ToLower : string -> string;
  EqualFold : string -> string -> bool;
  ToLower_empty : ToLower "" = "";
  EqualFold_sym : forall s t, EqualFold s t = EqualFold t s;
}.

(** The tables restricted to ASCII, where [A]..[Z] map to [a]..[z]. *)
Definition lowerByte (c : ascii) : ascii :=
  let n := nat_of_ascii c in
  if ((65 <=? n) && (n <=? 90))%nat then ascii_of_nat (n + 32) else c.

Fixpoint asciiToLower (s : string) : string :=
  match s with
  | EmptyString => EmptyString
  | String c s' => String (lowerByte c) (asciiToLower s')
  end.

Definition asciiEqualFold (s t : string) : bool :=
  String.eqb (asciiToLower s) (asciiToLower t).

Definition asciiFolding : CaseFolding := {|
  ToLower := asciiToLower;
  EqualFold := asciiEqualFold;
  ToLower_empty := eq_refl;
  EqualFold_sym := fun s t => String.eqb_sym (asciiToLower s) (asciiToLower t);
|}.

End GoStrings.

Import GoStrings.


(* ================================================================== *)
(** * Data model                                                       *)
(* ================================================================== *)

(** [type Vacancy struct]. *)
Record Vacancy := {
  Title : string;
  Company : string;
  Description : string;
  Keywords : list string;
  SourceURL : string;
  Status : string;
  ExperienceLevel : string;
  Notes : string;
  ResumePath : string;
  ResumeFileName : string;
}.

Definition possibleStatuses : list string :=
  ["Новая"; "Планирую откликнуться"; "Откликнулся"; "Тестовое задание";
   "Собеседование"; "Оффер"; "Отказ"; "В архиве"].

Definition possibleExperienceLevels : list string :=
  ["Не указан"; "Без опыта"; "Менее 1 года"; "1-3 года"; "3-6 лет"; "Более 6 лет"].

Definition searchFields : list string :=
  ["Везде"; "По названию"; "По компании"; "По описанию";
   "По ключевым словам"; "По статусу"; "По опыту"].

(** [walk.SortOrder]. *)
Inductive SortOrder := SortAscending | SortDescending.

(** [type VacancyModel struct], without the embedded widget bases. *)
Record VacancyModel := {
  items : list Vacancy;
  sortColumn : Z;
  sortOrder : SortOrder;
}.

(* ================================================================== *)
(** * [sort.SliceStable]                                               *)
(* ================================================================== *)

(** The standard library's stable sort ([stable_func] of package [sort])
    works on a slice through a [Less] and a [Swap] on indices.  [Less] is
    the caller's closure, which reads the slice being sorted. *)
Section SliceStable.

Context {A : Type}.
Variable Less : list A -> nat -> nat -> bool.

(** [data[i], data[j] = data[j], data[i]]; an index out of range is a
    run-time panic in Go and never arises below. *)
Definition Swap (data : list A) (i j : nat) : list A :=
  match data !! i, data !! j with
  | Some x, Some y => <[i := y]> (<[j := x]> data)
  | _, _ => data
  end.

(** [for j := i; j > a && data.Less(j, j-1); j-- { data.Swap(j, j-1) }] *)
Fixpoint insertLoop (a : nat) (data : list A) (j : nat) : list A :=
  match j with
  | O => data
  | S j' =>
      if (a <? j)%nat && Less data j j'
      then insertLoop a (Swap data j j') j'
      else data
  end.

(** [insertionSort_func(data, a, b)]: [for i := a + 1; i < b; i++]. *)
Definition insertionSort_func (data : list A) (a b : nat) : list A :=
  fold_left (insertLoop a) (seq (a + 1) (b - (a + 1))) data.

(** [swapRange_func(data, a, b, n)]. *)
Definition swapRange_func (data : list A) (a b n : nat) : list A :=
  fold_left (fun d i => Swap d (a + i) (b + i)) (seq 0 n) data.

(** The loop [for i != j] of [rotate_func]. *)
Fixpoint rotateLoop (fuel : nat) (data : list A) (m i j : nat) : list A * nat :=
  match fuel with
  | O => (data, i)
  | S fuel' =>
      if (i =? j)%nat then (data, i)
      else if (j <? i)%nat
           then rotateLoop fuel' (swapRange_func data (m - i) m j) m (i - j) j
           else rotateLoop fuel' (swapRange_func data (m - i) (m + j - i) i) m i (j - i)
  end.

(** [rotate_func(data, a, m, b)] exchanges the blocks [data[a:m]] and
    [data[m:b]]. *)
Definition rotate_func (data : list A) (a m b : nat) : list A :=
  let '(data', i) := rotateLoop (b - a) data m (m - a) (b - m) in
  swapRange_func data' (m - i) m i.

(** The binary searches of [symMerge_func]:
    [for i < j { h := int(uint(i+j) >> 1); if cond(h) { i = h + 1 } else { j = h } }]. *)
Fixpoint search (fuel : nat) (cond : nat -> bool) (i j : nat) : nat :=
  match fuel with
  | O => i
  | S fuel' =>
      if (i <? j)%nat
      then let h := ((i + j) / 2)%nat in
           if cond h then search fuel' cond (h + 1) j else search fuel' cond i h
      else i
  end.

(** [symMerge_func(data, a, m, b)] merges the sorted runs [data[a:m]] and
    [data[m:b]]. *)
Fixpoint symMerge_func (fuel : nat) (data : list A) (a m b : nat) : list A :=
  match fuel with
  | O => data
  | S fuel' =>
      if (m - a =? 1)%nat then
        let i := search (b - m) (fun h => Less data h a) m b in
        fold_left (fun d k => Swap d k (k + 1)) (seq a (i - 1 - a)) data
      else if (b - m =? 1)%nat then
        let i := search (m - a) (fun h => negb (Less data m h)) a m in
        fold_left (fun d k => Swap d k (k - 1)) (rev (seq (i + 1) (m - i))) data
      else
        let mid := ((a + b) / 2)%nat in
        let n := (mid + m)%nat in
        let '(start0, r) := if (mid <? m)%nat then (n - b, mid)%nat else (a, m) in
        let p := (n - 1)%nat in
        let start := search (r - start0) (fun c => negb (Less data (p - c) c)) start0 r in
        let end_ := (n - start)%nat in
        let data1 :=
          if (start <? m)%nat && (m <? end_)%nat
          then rotate_func data start m end_ else data in
        let data2 :=
          if (a <? start)%nat && (start <? mid)%nat
          then symMerge_func fuel' data1 a start mid else data1 in
        if (mid <? end_)%nat && (end_ <? b)%nat
        then symMerge_func fuel' data2 mid end_ b else data2
  end.

(** First loop of [stable_func]: insertion sort on blocks of [blockSize],
    then on the remainder. *)
Fixpoint sortBlocks (fuel : nat) (data : list A) (blockSize n a b : nat) : list A :=
  match fuel with
  | O => data
  | S fuel' =>
      if (b <=? n)%nat
      then sortBlocks fuel' (insertionSort_func data a b) blockSize n b (b + blockSize)
      else insertionSort_func data a n
  end.

(** Inner loop of the merge phase: merge neighbouring runs of length
    [blockSize]. *)
Fixpoint mergePass (fuel : nat) (data : list A) (blockSize n a b : nat) : list A :=
  match fuel with
  | O => data
  | S fuel' =>
      if (b <=? n)%nat
      then mergePass fuel' (symMerge_func n data a (a + blockSize) b)
             blockSize n b (b + 2 * blockSize)
      else let m := (a + blockSize)%nat in
           if (m <? n)%nat then symMerge_func n data a m n else data
  end.

(** Outer loop of the merge phase: [for blockSize < n { ...; blockSize *= 2 }]. *)
Fixpoint mergeRuns (fuel : nat) (data : list A) (blockSize n : nat) : list A :=
  match fuel with
  | O => data
  | S fuel' =>
      if (blockSize <? n)%nat
      then mergeRuns fuel' (mergePass n data blockSize n 0 (2 * blockSize))
             (blockSize * 2) n
      else data
  end.

(** [stable_func(data, n)] with its [blockSize] of 20. *)
Definition stable_func (data : list A) (n : nat) : list A :=
  let blockSize := 20%nat in
  mergeRuns n (sortBlocks (S n) data blockSize n 0 blockSize) blockSize n.

(** [sort.SliceStable(x, less)]. *)
Definition SliceStable (x : list A) : list A := stable_func x (length x).

End SliceStable.

(* ================================================================== *)
(** * Filter/sort engine and record store                              *)
(* ================================================================== *)

Section Engine.

Context `{CaseFolding}.

(** [func (m *VacancyModel) Less(i, j int) bool]. *)
Definition Less (m : VacancyModel) (i j : nat) : bool :=
  match items m !! i, items m !! j with
  | Some a, Some b =>
      let less :=
        match sortColumn m with
        | 0%Z => stringLess (ToLower (Title a)) (ToLower (Title b))
        | 1%Z => stringLess (ToLower (Company a)) (ToLower (Company b))
        | 2%Z => stringLess (ToLower (Status a)) (ToLower (Status b))
        | _ => stringLess (ToLower (Title a)) (ToLower (Title b))
        end in
      match sortOrder m with
      | SortDescending => negb less
      | SortAscending => less
      end
  | _, _ => false
  end.

(** [func (m *VacancyModel) Sort(col int, order walk.SortOrder) error]:
    the closure handed to [sort.SliceStable] calls [m.Less] on the slice
    as it stands; the embedded [SorterBase.Sort] only notifies the view. *)
Definition Sort (m : VacancyModel) (col : Z) (order : SortOrder) : VacancyModel :=
  let less data i j :=
    Less {| items := data; sortColumn := col; sortOrder := order |} i j in
  {| items := SliceStable less (items m); sortColumn := col; sortOrder := order |}.

(** What [performSearch] reads from the widgets. *)
Record SearchControls := {
  searchFieldCB_CurrentIndex : Z;
  statusFilterCB_Text : string;
  experienceFilterCB_Text : string;
  searchEdit_Text : string;
}.

(** [searchInField]: the label picked in the combo box, ["Везде"] when
    the index is out of range. *)
Definition searchInFieldOf (index : Z) : string :=
  if (0 <=? index)%Z && (index <? Z.of_nat (length searchFields))%Z
  then default "Везде" (searchFields !! Z.to_nat index)
  else "Везде".

(** [searchTerm], already lower-cased. *)
Definition searchTermOf (ui : SearchControls) (searchInField : string) : string :=
  ToLower
    (if String.eqb searchInField "По статусу" then statusFilterCB_Text ui
     else if String.eqb searchInField "По опыту" then experienceFilterCB_Text ui
     else searchEdit_Text ui).

(** The closure [matchField] of [performSearch]. *)
Definition matchField (searchInField searchTerm fieldValue : string) : bool :=
  if String.eqb searchInField "По статусу" || String.eqb searchInField "По опыту"
  then EqualFold fieldValue searchTerm
  else Contains (ToLower fieldValue) searchTerm.

(** [for _, kw := range v.Keywords { if strings.Contains(...) { found = true; break } }] *)
Definition anyKeyword (searchTerm : string) (keywords : list string) : bool :=
  existsb (fun kw => Contains (ToLower kw) searchTerm) keywords.

(** The [switch searchInField] that computes [found] for one record. *)
Definition found (searchInField searchTerm : string) (v : Vacancy) : bool :=
  if String.eqb searchInField "По названию" then
    matchField searchInField searchTerm (Title v)
  else if String.eqb searchInField "По компании" then
    matchField searchInField searchTerm (Company v)
  else if String.eqb searchInField "По описанию" then
    matchField searchInField searchTerm (Description v)
  else if String.eqb searchInField "По ключевым словам" then
    anyKeyword searchTerm (Keywords v)
  else if String.eqb searchInField "По статусу" then
    matchField searchInField searchTerm (Status v)
  else if String.eqb searchInField "По опыту" then
    matchField searchInField searchTerm (ExperienceLevel v)
  else
    if Contains (ToLower (Title v)) searchTerm
       || Contains (ToLower (Company v)) searchTerm
       || Contains (ToLower (Description v)) searchTerm
       || Contains (ToLower (Status v)) searchTerm
       || Contains (ToLower (ExperienceLevel v)) searchTerm
    then true
    else anyKeyword searchTerm (Keywords v).

(** The filtering half of [performSearch]: the value given to
    [app.vacancyModel.items] before the model is sorted. *)
Definition filterVacancies (ui : SearchControls) (currentSearchVacancies : list Vacancy)
  : list Vacancy :=
  let searchInField := searchInFieldOf (searchFieldCB_CurrentIndex ui) in
  let searchTerm := searchTermOf ui searchInField in
  if String.eqb searchTerm ""
     && negb (String.eqb searchInField "По опыту")
     && negb (String.eqb searchInField "По статусу")
  then currentSearchVacancies
  else
    fold_left
      (fun filtered v =>
         if found searchInField searchTerm v then filtered ++ [v] else filtered)
      currentSearchVacancies [].

(** [func (app *AppMainWindow) performSearch()]: snapshot, filter, then
    sort by the model's current column and order. *)
Definition performSearch (ui : SearchControls) (allVacancies : list Vacancy)
    (m : VacancyModel) : VacancyModel :=
  let filtered := filterVacancies ui allVacancies in
  Sort {| items := filtered; sortColumn := sortColumn m; sortOrder := sortOrder m |}
       (sortColumn m) (sortOrder m).

(** [func (app *AppMainWindow) findVacancyIndexInAllExt(title, company string) int];
    [None] stands for the result [-1]. *)
Fixpoint findFrom (i : nat) (vs : list Vacancy) (title company : string) : option nat :=
  match vs with
  | [] => None
  | v :: rest =>
      if EqualFold (Title v) title && EqualFold (Company v) company
      then Some i
      else findFrom (S i) rest title company
  end.

Definition findVacancyIndexInAllExt (allVacancies : list Vacancy) (title company : string)
  : option nat :=
  findFrom 0 allVacancies title company.

(** Keyword text to keyword list, as both the dialog and the details
    panel do it: split on commas, trim, drop the empty pieces. *)
Definition parseKeywords (keywordsStr : string) : list string :=
  if String.eqb (TrimSpace keywordsStr) "" then []
  else
    fold_left
      (fun keywords kw =>
         let trimmedKw := TrimSpace kw in
         if String.eqb trimmedKw "" then keywords else keywords ++ [trimmedKw])
      (Split keywordsStr ",") [].

(** The widgets of [AddVacancyDialog] as read by the accept button, and
    the dialog's own fields. *)
Record AddVacancyDialog := {
  titleLE : string;
  companyLE : string;
  descriptionTE : string;
  keywordsLE : string;
  sourceURLLE : string;
  statusCB : string;
  experienceCB : string;
  notesTE : string;
  isEdit : bool;
  originalTitle : string;
  originalCompany : string;
}.

(** [savedVacancy] as the accept handler of [showVacancyDialogExt] builds it. *)
Definition savedVacancyOf (dlg : AddVacancyDialog) : Vacancy := {|
  Title := TrimSpace (titleLE dlg);
  Company := TrimSpace (companyLE dlg);
  Description := TrimSpace (descriptionTE dlg);
  Keywords := parseKeywords (keywordsLE dlg);
  SourceURL := TrimSpace (sourceURLLE dlg);
  Status := statusCB dlg;
  ExperienceLevel := experienceCB dlg;
  Notes := TrimSpace (notesTE dlg);
  ResumePath := "";
  ResumeFileName := "";
|}.

Inductive DialogResult :=
| Accepted
| RejectedEmptyTitle
| RejectedOriginalMissing
| RejectedAlreadyPresent.

(** The [OnClicked] handler of the accept button in [showVacancyDialogExt]:
    the new contents of [allVacancies] and how the dialog ended. *)
Definition acceptVacancyDialog (dlg : AddVacancyDialog) (isOnlineSearch : bool)
    (allVacancies : list Vacancy) : list Vacancy * DialogResult :=
  let savedVacancy := savedVacancyOf dlg in
  if String.eqb (Title savedVacancy) "" then (allVacancies, RejectedEmptyTitle)
  else if isEdit dlg && negb isOnlineSearch then
    match findVacancyIndexInAllExt allVacancies (originalTitle dlg) (originalCompany dlg) with
    | Some originalIndex => (<[originalIndex := savedVacancy]> allVacancies, Accepted)
    | None => (allVacancies, RejectedOriginalMissing)
    end
  else
    match findVacancyIndexInAllExt allVacancies (Title savedVacancy) (Company savedVacancy) with
    | Some _ => (allVacancies, RejectedAlreadyPresent)
    | None => (allVacancies ++ [savedVacancy], Accepted)
    end.

(** [showEditVacancyDialog] opens the dialog on the record selected in the
    table, whose title and company become [originalTitle] and
    [originalCompany]. *)
Definition editDialog (selected : Vacancy) (form : AddVacancyDialog) : AddVacancyDialog := {|
  titleLE := titleLE form; companyLE := companyLE form;
  descriptionTE := descriptionTE form; keywordsLE := keywordsLE form;
  sourceURLLE := sourceURLLE form; statusCB := statusCB form;
  experienceCB := experienceCB form; notesTE := notesTE form;
  isEdit := true; originalTitle := Title selected; originalCompany := Company selected;
|}.

(** [confirmDeleteVacancy] once the user has confirmed: the selected row
    of the view is looked up in [allVacancies] and cut out. *)
Definition confirmDeleteVacancy (selectedVacancyInModel : Vacancy)
    (allVacancies : list Vacancy) : list Vacancy :=
  match findVacancyIndexInAllExt allVacancies
          (Title selectedVacancyInModel) (Company selectedVacancyInModel) with
  | Some originalIndexInAll =>
      take originalIndexInAll allVacancies ++ drop (originalIndexInAll + 1) allVacancies
  | None => allVacancies
  end.

(** The editable widgets of the details panel; [None] is a [nil] widget. *)
Record DetailsPanel := {
  detailStatusCB : option string;
  detailExperienceCB : option string;
  detailKeywordsLE : option string;
  detailSourceURLLE : option string;
  detailDescriptionTE : option string;
  detailNotesTE : option string;
}.

(** The lookup loop of [saveVacancyDetails], which compares with [==]. *)
Fixpoint findExactFrom (i : nat) (vs : list Vacancy) (title company : string) : option nat :=
  match vs with
  | [] => None
  | v :: rest =>
      if String.eqb (Title v) title && String.eqb (Company v) company
      then Some i
      else findExactFrom (S i) rest title company
  end.

(** [func equalStringSlices(a, b []string) bool]. *)
Fixpoint equalStringSlices (a b : list string) : bool :=
  match a, b with
  | [], [] => true
  | x :: a', y :: b' => String.eqb x y && equalStringSlices a' b'
  | _, _ => false
  end.

(** One [if widget != nil { if field != new { field = new; changed = true } }]
    block of [saveVacancyDetails]. *)
Definition updateField {A : Type} (same : A -> A -> bool) (widget : option A)
    (old : A) (changed : bool) : A * bool :=
  match widget with
  | Some new => if same old new then (old, changed) else (new, true)
  | None => (old, changed)
  end.

(** The record written back by [saveVacancyDetails] and its [changed] flag. *)
Definition updatedVacancyOf (panel : DetailsPanel) (v : Vacancy) : Vacancy * bool :=
  let '(status, c1) := updateField String.eqb (detailStatusCB panel) (Status v) false in
  let '(experience, c2) :=
    updateField String.eqb (detailExperienceCB panel) (ExperienceLevel v) c1 in
  let '(keywords, c3) :=
    updateField equalStringSlices (option_map parseKeywords (detailKeywordsLE panel))
      (Keywords v) c2 in
  let '(sourceURL, c4) := updateField String.eqb (detailSourceURLLE panel) (SourceURL v) c3 in
  let '(description, c5) :=
    updateField String.eqb (detailDescriptionTE panel) (Description v) c4 in
  let '(notes, c6) := updateField String.eqb (detailNotesTE panel) (Notes v) c5 in
  ({| Title := Title v; Company := Company v; Description := description;
      Keywords := keywords; SourceURL := sourceURL; Status := status;
      ExperienceLevel := experience; Notes := notes;
      ResumePath := ResumePath v; ResumeFileName := ResumeFileName v |}, c6).

(** [func (app *AppMainWindow) saveVacancyDetails()] for the row
    [vacancyInView] selected in the table. *)
Definition saveVacancyDetails (panel : DetailsPanel) (vacancyInView : Vacancy)
    (allVacancies : list Vacancy) : list Vacancy :=
  match findExactFrom 0 allVacancies (Title vacancyInView) (Company vacancyInView) with
  | None => allVacancies
  | Some originalIndexInAll =>
      match allVacancies !! originalIndexInAll with
      | None => allVacancies
      | Some original =>
          let '(updatedVacancy, changed) := updatedVacancyOf panel original in
          if changed then <[originalIndexInAll := updatedVacancy]> allVacancies
          else allVacancies
      end
  end.

(** The identity key of a record: title and company, compared without
    regard to case. *)
Definition sameKey (a b : Vacancy) : bool :=
  EqualFold (Title a) (Title b) && EqualFold (Company a) (Company b).

(** No two records of the store share the identity key. *)
Definition uniqueKeys (allVacancies : list Vacancy) : Prop :=
  forall i j a b,
    allVacancies !! i = Some a -> allVacancies !! j = Some b ->
    i <> j -> sameKey a b = false.

End Engine.

(* ================================================================== *)
(** * Online search                                                    *)
(* ================================================================== *)

(** The wire types of the Jooble API. *)
Module Jooble.

(** [type JoobleJob struct]; the untyped [ID] is kept as its JSON text. *)
Record Job := {
  Title : string;
  Location : string;
  Snippet : string;
  Salary : string;
  Source : string;
  JobType : string;
  Link : string;
  Company : string;
  Updated : string;
  ID : string;
}.

(** [type JoobleError struct]. *)
Record Error := {
  Code : Z;
  Message : string;
}.

(** [type JoobleResponse struct]. *)
Record Response := {
  TotalCount : Z;
  Jobs : list Job;
  Err : option Error;
}.

End Jooble.

(** What [client.Do] hands back on success: the status code and what
    [io.ReadAll(resp.Body)] will give, an error text or the body. *)
Record HttpResponse := {
  StatusCode : Z;
  readAll : string + string;
}.

(** One exchange with the API, as seen from [searchVacanciesJooble]: the
    result of every call it makes into the standard library.  An error is
    represented by its text. *)
Record Exchange := {
  marshal : option string;
  newRequest : option string;
  clientDo : string + HttpResponse;
  unmarshalResponse : string -> string + Jooble.Response;
  unmarshalError : string -> option Jooble.Error;
}.

(** The cancel channel [ch] is closed at most once and stays closed.  A
    run of the background task meets it at successive instants: [closeAt]
    is the first instant at which the channel reads closed ([None]: it is
    never closed during the run); the goroutine that forwards the close to
    the request context reacts [watcherLag] instants later. *)
Record Signal := {
  closeAt : option nat;
  watcherLag : nat;
}.

(** The instant the task has reached, and what each
    [select { case <-ch: ... default: }] has observed so far, latest first. *)
Record Probe := {
  clock : nat;
  seen : list bool;
}.

Definition start : Probe := {| clock := 0; seen := [] |}.

(** Code that polls the signal. *)
Definition Task (A : Type) : Type := Signal -> Probe -> A * Probe.

Definition ret {A : Type} (a : A) : Task A := fun _ p => (a, p).

Definition bind {A B : Type} (t : Task A) (k : A -> Task B) : Task B :=
  fun sig p => let '(a, p') := t sig p in k a sig p'.

Notation "'let*' x ':=' t 'in' k" := (bind t (fun x => k))
  (at level 10, x name, t at level 100, k at level 200).

Definition closedAt (sig : Signal) (t : nat) : bool :=
  match closeAt sig with
  | Some c => (c <=? t)%nat
  | None => false
  end.

(** [select { case <-ch: (true) default: (false) }]. *)
Definition poll : Task bool :=
  fun sig p =>
    let closed := closedAt sig (clock p) in
    (closed, {| clock := S (clock p); seen := closed :: seen p |}).

(** Has the watcher goroutine cancelled the request context by instant [t]? *)
Definition canceledAt (sig : Signal) (t : nat) : bool :=
  match closeAt sig with
  | Some c => (c + watcherLag sig <=? t)%nat
  | None => false
  end.

(** [ctx.Err() == context.Canceled]: inside [searchVacanciesJooble] the
    context is cancelled by the watcher goroutine only. *)
Definition ctxCanceled : Task bool :=
  fun sig p => (canceledAt sig (clock p), {| clock := S (clock p); seen := seen p |}).

(** The two results of [searchVacanciesJooble]. *)
Inductive SearchResult :=
| Vacancies (vacancies : list Vacancy)
| SearchError (err : string).

(** The composite literal appended for one job. *)
Definition vacancyOfJob (job : Jooble.Job) : Vacancy := {|
  Title := Jooble.Title job;
  Company := Jooble.Company job;
  Description := Jooble.Snippet job;
  Keywords := [];
  SourceURL := Jooble.Link job;
  Status := nth 0 possibleStatuses "";
  ExperienceLevel := nth 0 possibleExperienceLevels "";
  Notes := "";
  ResumePath := "";
  ResumeFileName := "";
|}.

(** [for _, job := range joobleResp.Jobs]. *)
Fixpoint convertJobs (jobs : list Jooble.Job) (vacancies : list Vacancy)
  : Task SearchResult :=
  match jobs with
  | [] => ret (Vacancies vacancies)
  | job :: rest =>
      let* closed := poll in
      if closed
      then ret (SearchError "поиск отменен пользователем во время обработки результатов")
      else if String.eqb (Jooble.Title job) "" || String.eqb (Jooble.Link job) ""
           then convertJobs rest vacancies
           else convertJobs rest (vacancies ++ [vacancyOfJob job])
  end.

(** What follows a successful [json.Unmarshal] of the body. *)
Definition convertResponse (joobleResp : Jooble.Response) : Task SearchResult :=
  match Jooble.Err joobleResp with
  | Some e =>
      ret (SearchError ("API Jooble вернуло ошибку: " +:+ Jooble.Message e
                        +:+ " (код: " +:+ itoa (Jooble.Code e) +:+ ")"))
  | None => convertJobs (Jooble.Jobs joobleResp) []
  end.

(** What follows a failed [json.Unmarshal] of the body. *)
Definition decodeFailure (net : Exchange) (body err : string) : SearchResult :=
  match unmarshalError net body with
  | Some joobleErr =>
      if negb (String.eqb (Jooble.Message joobleErr) "")
      then SearchError ("ошибка API Jooble: " +:+ Jooble.Message joobleErr
                        +:+ " (код: " +:+ itoa (Jooble.Code joobleErr) +:+ ")")
      else SearchError ("ошибка декодирования JSON ответа от Jooble: " +:+ err
                        +:+ ". Ответ: " +:+ body)
  | None =>
      SearchError ("ошибка декодирования JSON ответа от Jooble: " +:+ err
                   +:+ ". Ответ: " +:+ body)
  end.

(** [func searchVacanciesJooble(keywords, location string, ch chan struct{}) ([]Vacancy, error)]. *)
Definition searchVacanciesJooble (keywords location : string) (net : Exchange)
  : Task SearchResult :=
  match marshal net with
  | Some err => ret (SearchError ("ошибка кодирования запроса в JSON: " +:+ err))
  | None =>
  match newRequest net with
  | Some err => ret (SearchError ("ошибка создания HTTP запроса: " +:+ err))
  | None =>
  match clientDo net with
  | inl err =>
      let* closed := poll in
      if closed then ret (SearchError "поиск отменен пользователем (сигнал из UI)")
      else
        let* canceled := ctxCanceled in
        if canceled then ret (SearchError "поиск отменен пользователем (контекст HTTP)")
        else ret (SearchError ("ошибка выполнения HTTP запроса: " +:+ err))
  | inr resp =>
      let* closed := poll in
      if closed then ret (SearchError "поиск отменен пользователем перед чтением ответа")
      else
        match readAll resp with
        | inl err => ret (SearchError ("ошибка чтения тела ответа: " +:+ err))
        | inr body =>
            let* closed' := poll in
            if closed'
            then ret (SearchError "поиск отменен пользователем перед обработкой ответа")
            else if negb (StatusCode resp =? 200)%Z
            then ret (SearchError ("ошибка API Jooble (HTTP " +:+ itoa (StatusCode resp)
                                   +:+ "): " +:+ body))
            else
              match unmarshalResponse net body with
              | inl err => ret (decodeFailure net body err)
              | inr joobleResp => convertResponse joobleResp
              end
        end
  end end end.

(** The texts [app.onlineResultsLabel] can end up with. *)
Inductive Label :=
| LabelCancelled
| LabelCancelledWhileFiltering
| LabelError (err : string)
| LabelNoNewResults
| LabelFound (n : nat).

(** What the task leaves on screen: the label and the rows of the online
    table, which [switchToOnlineSearchMode] empties before it starts the
    task. *)
Record OnlineView := {
  onlineResultsLabel : Label;
  onlineItems : list Vacancy;
}.

(** The terminal result of one search as the functional description
    names it. *)
Inductive SearchOutcome :=
| Results (records : list Vacancy)
| Cancelled
| Failed (detail : string).

Definition outcomeOf (view : OnlineView) : SearchOutcome :=
  match onlineResultsLabel view with
  | LabelCancelled | LabelCancelledWhileFiltering => Cancelled
  | LabelError err => Failed err
  | LabelNoNewResults | LabelFound _ => Results (onlineItems view)
  end.

Section OnlineSearch.

Context `{CaseFolding}.

(** The inner loop over [allVacancies] with its [break]. *)
Definition foundLocally (allVacancies : list Vacancy) (onlineV : Vacancy) : bool :=
  existsb
    (fun localV =>
       EqualFold (Title onlineV) (Title localV)
       && EqualFold (Company onlineV) (Company localV))
    allVacancies.

(** [for _, onlineV := range joobleVacancies]; [None] when the loop is
    left through the cancellation branch. *)
Fixpoint filterOnline (allVacancies joobleVacancies filteredOnlineVacancies : list Vacancy)
  : Task (option (list Vacancy)) :=
  match joobleVacancies with
  | [] => ret (Some filteredOnlineVacancies)
  | onlineV :: rest =>
      let* closed := poll in
      if closed then ret None
      else if foundLocally allVacancies onlineV
           then filterOnline allVacancies rest filteredOnlineVacancies
           else filterOnline allVacancies rest (filteredOnlineVacancies ++ [onlineV])
  end.

(** The function handed to [Synchronize] when the task was not cancelled
    by the time the client returned. *)
Definition publish (result : SearchResult) (allVacancies : list Vacancy) : Task OnlineView :=
  match result with
  | SearchError err =>
      if Contains err "context canceled"
      then ret {| onlineResultsLabel := LabelCancelled; onlineItems := [] |}
      else ret {| onlineResultsLabel := LabelError err; onlineItems := [] |}
  | Vacancies joobleVacancies =>
      let* filtered := filterOnline allVacancies joobleVacancies [] in
      match filtered with
      | None => ret {| onlineResultsLabel := LabelCancelledWhileFiltering; onlineItems := [] |}
      | Some filteredOnlineVacancies =>
          if (length filteredOnlineVacancies =? 0)%nat
          then
            let* closed := poll in
            if closed
            then ret {| onlineResultsLabel := LabelCancelled;
                        onlineItems := filteredOnlineVacancies |}
            else ret {| onlineResultsLabel := LabelNoNewResults;
                        onlineItems := filteredOnlineVacancies |}
          else ret {| onlineResultsLabel := LabelFound (length filteredOnlineVacancies);
                      onlineItems := filteredOnlineVacancies |}
      end
  end.

(** The goroutine started by [switchToOnlineSearchMode]. *)
Definition onlineSearchTask (currentSearchTerm : string) (net : Exchange)
    (allVacancies : list Vacancy) : Task OnlineView :=
  let* result := searchVacanciesJooble currentSearchTerm "" net in
  let* closed := poll in
  if closed
  then ret {| onlineResultsLabel := LabelCancelled; onlineItems := [] |}
  else publish result allVacancies.

(** A complete run of the task under a given signal. *)
Definition runSearch (currentSearchTerm : string) (net : Exchange)
    (allVacancies : list Vacancy) (sig : Signal) : OnlineView * Probe :=
  onlineSearchTask currentSearchTerm net allVacancies sig start.

End OnlineSearch.

(* ================================================================== *)
(** * The cancel handlers                                              *)
(* ================================================================== *)

Inductive Chan := Open | Closed.

(** [close(c)]; [None] is the run-time panic of closing a closed channel.
    [cancelClicked] is [select { case <-cancelChan: default: close(cancelChan) }]
    run without interruption, as a click handler on the UI thread is. *)
Definition close (c : Chan) : option Chan :=
  match c with
  | Open => Some Closed
  | Closed => None
  end.

Definition cancelClicked (cancelChan : Chan) : option Chan :=
  match cancelChan with
  | Closed => Some cancelChan
  | Open => close cancelChan
  end.

(** The same statement as two steps of a goroutine: the [select] decides
    on the state of the channel, the [close] acts. *)
Inductive Pc := AtSelect | AtClose | Returned.

Record Race := {
  cancelChan : Chan;
  caller1 : Pc;
  caller2 : Pc;
  panicked : bool;
}.

Definition stepCaller (c : Chan) (pc : Pc) : Chan * Pc * bool :=
  match pc, c with
  | AtSelect, Closed => (c, Returned, false)
  | AtSelect, Open => (c, AtClose, false)
  | AtClose, _ =>
      match close c with
      | Some c' => (c', Returned, false)
      | None => (c, Returned, true)
      end
  | Returned, _ => (c, Returned, false)
  end.

(** One step of the caller the scheduler picks ([true]: the first). *)
Definition stepRace (r : Race) (first : bool) : Race :=
  if panicked r then r
  else if first then
    let '(c, pc, boom) := stepCaller (cancelChan r) (caller1 r) in
    {| cancelChan := c; caller1 := pc; caller2 := caller2 r; panicked := boom |}
  else
    let '(c, pc, boom) := stepCaller (cancelChan r) (caller2 r) in
    {| cancelChan := c; caller1 := caller1 r; caller2 := pc; panicked := boom |}.

Definition runRace (schedule : list bool) (r : Race) : Race :=
  fold_left stepRace schedule r.

Definition twoCallers (c : Chan) : Race :=
  {| cancelChan := c; caller1 := AtSelect; caller2 := AtSelect; panicked := false |}.

(* ================================================================== *)
(** * Vocabulary of the properties                                     *)
(* ================================================================== *)

(** A keyword as the forms store it: not empty, no white space at either
    end. *)
Definition cleanKeyword (kw : string) : Prop :=
  kw <> "" /\ hasLeadingSpace kw = false /\ hasTrailingSpace kw = false.

Fixpoint onlySpaces (s : string) : bool :=
  match s with
  | EmptyString => true
  | String c s' => Ascii.eqb c " " && onlySpaces s'
  end.

Fixpoint onlyCommasAndSpaces (s : string) : bool :=
  match s with
  | EmptyString => true
  | String c s' => (Ascii.eqb c "," || Ascii.eqb c " ") && onlyCommasAndSpaces s'
  end.

(** Every observation on record was made of the signal at an earlier
    instant. *)
Definition faithful (sig : Signal) (p : Probe) : Prop :=
  forall o, In o (seen p) -> exists t, t < clock p /\ o = closedAt sig t.

(** The online records the store does not hold yet. *)
Definition notInStore `{CaseFolding} (allVacancies : list Vacancy) (onlineV : Vacancy) : bool :=
  negb (existsb (fun localV => sameKey onlineV localV) allVacancies).

(** A job the client does not skip, and the record it maps it to. *)
Definition usableJob (job : Jooble.Job) : bool :=
  negb (String.eqb (Jooble.Title job) "" || String.eqb (Jooble.Link job) "").

Definition mappedJob (job : Jooble.Job) : Vacancy := {|
  Title := Jooble.Title job;
  Company := Jooble.Company job;
  Description := Jooble.Snippet job;
  Keywords := [];
  SourceURL := Jooble.Link job;
  Status := hd "" possibleStatuses;
  ExperienceLevel := hd "" possibleExperienceLevels;
  Notes := "";
  ResumePath := "";
  ResumeFileName := "";
|}.

(** The key [Less] compares two records by. *)
Definition sortKey `{CaseFolding} (col : Z) (v : Vacancy) : string :=
  match col with
  | 0%Z => ToLower (Title v)
  | 1%Z => ToLower (Company v)
  | 2%Z => ToLower (Status v)
  | _ => ToLower (Title v)
  end.

(** A click handler run [n] times in a row on the same channel. *)
Definition clicks (n : nat) (c : Chan) : option Chan :=
  Nat.iter n (fun oc => match oc with Some c' => cancelClicked c' | None => None end) (Some c).

(** Both callers are past their [select], or not yet in it, and the
    channel is closed: nobody is about to close it again. *)
Definition settled (r : Race) : Prop :=
  cancelChan r = Closed /\ panicked r = false
  /\ caller1 r <> AtClose /\ caller2 r <> AtClose.

(* ================================================================== *)
(** * Sample data                                                      *)
(* ================================================================== *)

Definition sampleVacancy (title company : string) : Vacancy := {|
  Title := title; Company := company; Description := ""; Keywords := [];
  SourceURL := ""; Status := "Новая"; ExperienceLevel := "Не указан";
  Notes := ""; ResumePath := ""; ResumeFileName := "";
|}.

Definition sampleForm (title company keywords : string) : AddVacancyDialog := {|
  titleLE := title; companyLE := company; descriptionTE := "";
  keywordsLE := keywords; sourceURLLE := ""; statusCB := "Новая";
  experienceCB := "Не указан"; notesTE := "";
  isEdit := false; originalTitle := ""; originalCompany := "";
|}.

Definition sampleJob (title link company : string) : Jooble.Job := {|
  Jooble.Title := title; Jooble.Location := ""; Jooble.Snippet := "";
  Jooble.Salary := ""; Jooble.Source := ""; Jooble.JobType := "";
  Jooble.Link := link; Jooble.Company := company; Jooble.Updated := "";
  Jooble.ID := "";
|}.

(** An exchange in which [client.Do] fails with the given text. *)
Definition transportFailure (text : string) : Exchange := {|
  marshal := None; newRequest := None; clientDo := inl text;
  unmarshalResponse := fun _ => inl "unexpected end of JSON input";
  unmarshalError := fun _ => None;
|}.

(** An exchange answered with status 200 and the given jobs. *)
Definition successfulExchange (jobs : list Jooble.Job) : Exchange := {|
  marshal := None; newRequest := None;
  clientDo := inr {| StatusCode := 200; readAll := inr "{}" |};
  unmarshalResponse := fun _ =>
    inr {| Jooble.TotalCount := Z.of_nat (length jobs); Jooble.Jobs := jobs;
           Jooble.Err := None |};
  unmarshalError := fun _ => None;
|}.

Definition neverClosed : Signal := {| closeAt := None; watcherLag := 0 |}.

(** Closed from the [n]-th look at the channel on. *)
Definition closedFrom (n : nat) : Signal := {| closeAt := Some n; watcherLag := 0 |}.

(** An exchange answered with an error status and the given body. *)
Definition serverError (status : Z) (body : string) : Exchange := {|
  marshal := None; newRequest := None;
  clientDo := inr {| StatusCode := status; readAll := inr body |};
  unmarshalResponse := fun _ => inl "invalid character";
  unmarshalError := fun _ => None;
|}.

Definition sampleControls (index : Z) (status experience text : string) : SearchControls := {|
  searchFieldCB_CurrentIndex := index;
  statusFilterCB_Text := status;
  experienceFilterCB_Text := experience;
  searchEdit_Text := text;
|}.

Definition withStatus (status : string) (v : Vacancy) : Vacancy := {|
  Title := Title v; Company := Company v; Description := Description v;
  Keywords := Keywords v; SourceURL := SourceURL v; Status := status;
  ExperienceLevel := ExperienceLevel v; Notes := Notes v;
  ResumePath := ResumePath v; ResumeFileName := ResumeFileName v;
|}.

Definition samplePanel (keywords : string) : DetailsPanel := {|
  detailStatusCB := Some "Новая"; detailExperienceCB := Some "Не указан";
  detailKeywordsLE := Some keywords; detailSourceURLLE := Some "";
  detailDescriptionTE := Some ""; detailNotesTE := Some "";
|}.

(** Twenty-five records, more than one block of [sort.SliceStable], whose
    titles repeat ["b"], ["a"], ["c"] and whose company is their position. *)
Definition sampleTitles : list string :=
  map (fun i => nth (i mod 3) ["b"; "a"; "c"] "") (seq 0 25).

Definition sampleTable : list Vacancy :=
  imap (fun i title => sampleVacancy title (itoa (Z.of_nat i))) sampleTitles.

Definition titled (title : string) (vs : list Vacancy) : list Vacancy :=
  List.filter (fun v => String.eqb (Title v) title) vs.

Definition companies (m : VacancyModel) : list string := map Company (items m).

(* ================================================================== *)
(** * Resume attachments, archive and form prefill                     *)
(* ================================================================== *)

(** [strings.Join(elems, sep)]. *)
Fixpoint Join (elems : list string) (sep : string) : string :=
  match elems with
  | [] => EmptyString
  | e :: rest =>
      match rest with
      | [] => e
      | _ :: _ => e +:+ sep +:+ Join rest sep
      end
  end.

(** The keyword text both forms are opened with:
    [strings.Join(vacancy.Keywords, ", ")]. *)
Definition keywordsText (v : Vacancy) : string := Join (Keywords v) ", ".

(** [os.IsPathSeparator] on Windows, the platform of the [walk] toolkit. *)
Definition isPathSeparator (c : ascii) : bool :=
  Ascii.eqb c "\" || Ascii.eqb c "/".

(** The loop of [filepath.Ext], which walks [path] from its last byte:
    [for i := len(path) - 1; i >= 0 && !os.IsPathSeparator(path[i]); i--
       { if path[i] == '.' { return path[i:] } }; return ""].
    [behind] is [path[i+1:]]. *)
Fixpoint extScan (reversed behind : list ascii) : list ascii :=
  match reversed with
  | [] => []
  | c :: more =>
      if isPathSeparator c then []
      else if Ascii.eqb c "." then c :: behind
      else extScan more (c :: behind)
  end.

(** [filepath.Ext(path)]. *)
Definition Ext (path : string) : string :=
  string_of_list_ascii (extScan (rev (list_ascii_of_string path)) []).

(** The keys of the map [allowedExts]. *)
Definition allowedExts : list string := [".pdf"; ".doc"; ".docx"; ".txt"; ".rtf"].

(** [allowedExts[ext]]. *)
Definition allowedExt (ext : string) : bool := existsb (String.eqb ext) allowedExts.

(** [allVacancies[i].ResumePath = path; allVacancies[i].ResumeFileName = name]. *)
Definition setResume (path name : string) (v : Vacancy) : Vacancy := {|
  Title := Title v; Company := Company v; Description := Description v;
  Keywords := Keywords v; SourceURL := SourceURL v; Status := Status v;
  ExperienceLevel := ExperienceLevel v; Notes := Notes v;
  ResumePath := path; ResumeFileName := name;
|}.

Section Resume.

Context `{CaseFolding}.

(** [filepath.Base], which depends on the volume syntax of the platform,
    is taken as given. *)
Variable Base : string -> string.

(** The tail shared by [handleFileDrop], [selectResume] and [clearResume]:
    look the selected row up in [allVacancies] and set its two resume
    fields; nothing happens when the lookup fails. *)
Definition writeResume (selected : Vacancy) (path name : string)
    (allVacancies : list Vacancy) : list Vacancy :=
  match findVacancyIndexInAllExt allVacancies (Title selected) (Company selected) with
  | Some originalIndex =>
      match allVacancies !! originalIndex with
      | Some v => <[originalIndex := setResume path name v]> allVacancies
      | None => allVacancies
      end
  | None => allVacancies
  end.

(** The check on the extension and the write that follows it. *)
Definition attachResume (selected : Vacancy) (filePath : string)
    (allVacancies : list Vacancy) : list Vacancy :=
  let fileName := Base filePath in
  let ext := ToLower (Ext fileName) in
  if negb (allowedExt ext) then allVacancies
  else writeResume selected filePath fileName allVacancies.

(** [func (app *AppMainWindow) handleFileDrop(files []string)]; [selected]
    is the row the table's current index points at, [None] when the index
    is out of range. *)
Definition handleFileDrop (files : list string) (selected : option Vacancy)
    (allVacancies : list Vacancy) : list Vacancy :=
  match files with
  | [] => allVacancies
  | filePath :: _ =>
      match selected with
      | None => allVacancies
      | Some vacancyInView => attachResume vacancyInView filePath allVacancies
      end
  end.

(** [func (app *AppMainWindow) selectResume()]; [shown] is what
    [dlg.ShowOpen] returned: an error text, or the chosen path, [None]
    when the user dismissed the dialog. *)
Definition selectResume (shown : string + option string) (selected : option Vacancy)
    (allVacancies : list Vacancy) : list Vacancy :=
  match selected with
  | None => allVacancies
  | Some vacancyInView =>
      match shown with
      | inl _ => allVacancies
      | inr None => allVacancies
      | inr (Some filePath) => attachResume vacancyInView filePath allVacancies
      end
  end.

(** [func (app *AppMainWindow) clearResume()]; [confirmed] is the answer
    to the message box. *)
Definition clearResume (confirmed : bool) (selected : option Vacancy)
    (allVacancies : list Vacancy) : list Vacancy :=
  match selected with
  | None => allVacancies
  | Some vacancyInView =>
      if confirmed then writeResume vacancyInView "" "" allVacancies
      else allVacancies
  end.

End Resume.

(** The rows of the resume archive window. *)
Module ResumeArchive.

(** [type ResumeArchiveEntry struct]. *)
Record Entry := {
  FileName : string;
  FilePath : string;
  VacancyName : string;
  Company : string;
  AddedDate : string;
}.

End ResumeArchive.

(** The loop of [ShowResumeArchive] that fills the model from
    [allVacancies]. *)
Definition archiveEntries (allVacancies : list Vacancy) : list ResumeArchive.Entry :=
  fold_left
    (fun items v =>
       if negb (String.eqb (ResumeFileName v) "") && negb (String.eqb (ResumePath v) "")
       then items ++ [{| ResumeArchive.FileName := ResumeFileName v;
                         ResumeArchive.FilePath := ResumePath v;
                         ResumeArchive.VacancyName := Title v;
                         ResumeArchive.Company := Company v;
                         ResumeArchive.AddedDate := "" |}]
       else items)
    allVacancies [].

(** [for i, s := range options { if s == current { index = i; break } }]:
    the first position of [current], [None] when the loop leaves the
    index as it was. *)
Fixpoint indexFrom (i : nat) (options : list string) (current : string) : option nat :=
  match options with
  | [] => None
  | s :: rest => if String.eqb s current then Some i else indexFrom (S i) rest current
  end.

(** [initialStatusIndex] and [initialExperienceIndex] of
    [showVacancyDialogExt]: zero unless the record's value is found. *)
Definition initialIndex (options : list string) (current : string) : nat :=
  if negb (String.eqb current "") then default 0 (indexFrom 0 options current)
  else 0.

(** The index [updateVacancyDetails] leaves a combo box of the details
    panel at: [-1] when the value is not listed, except that an empty
    value selects the first entry. *)
Definition detailIndex (options : list string) (current : string) : Z :=
  match indexFrom 0 options current with
  | Some i => Z.of_nat i
  | None =>
      if String.eqb current "" && (0 <? length options)%nat then 0%Z else (-1)%Z
  end.

(** A record the entry for which the archive shows. *)
Definition archived (v : Vacancy) : bool :=
  negb (String.eqb (ResumeFileName v) "") && negb (String.eqb (ResumePath v) "").

Definition archiveEntryOf (v : Vacancy) : ResumeArchive.Entry := {|
  ResumeArchive.FileName := ResumeFileName v;
  ResumeArchive.FilePath := ResumePath v;
  ResumeArchive.VacancyName := Title v;
  ResumeArchive.Company := Company v;
  ResumeArchive.AddedDate := "";
|}.

(** A string without a comma. *)
Fixpoint commaFree (s : string) : bool :=
  match s with
  | EmptyString => true
  | String c s' => negb (Ascii.eqb c ",") && commaFree s'
  end.

(** The free-text test of the filter on one field. *)
Definition fieldContains `{CaseFolding} (text field : string) : bool :=
  Contains (ToLower field) (ToLower text).

(** The two records differ at most in the resume fields. *)
Definition sameButResume (a b : Vacancy) : Prop :=
  Title a = Title b /\ Company a = Company b /\ Description a = Description b
  /\ Keywords a = Keywords b /\ SourceURL a = SourceURL b /\ Status a = Status b
  /\ ExperienceLevel a = ExperienceLevel b /\ Notes a = Notes b.

(** The value a field of the details panel leaves in the record, and
    whether that is a change. *)
Definition fieldAfter {A : Type} (same : A -> A -> bool) (widget : option A) (old : A) : A :=
  match widget with
  | Some new => if same old new then old else new
  | None => old
  end.

Definition fieldDiffers {A : Type} (same : A -> A -> bool) (widget : option A) (old : A)
  : bool :=
  match widget with
  | Some new => negb (same old new)
  | None => false
  end.

(** The details panel holds what [updateVacancyDetails] put there for the
    record: every field that is present shows the record's value, the
    keyword field the keywords joined by [", "]. *)
Definition panelShows (panel : DetailsPanel) (v : Vacancy) : Prop :=
  (forall s, detailStatusCB panel = Some s -> s = Status v)
  /\ (forall s, detailExperienceCB panel = Some s -> s = ExperienceLevel v)
  /\ (forall s, detailKeywordsLE panel = Some s -> s = keywordsText v)
  /\ (forall s, detailSourceURLLE panel = Some s -> s = SourceURL v)
  /\ (forall s, detailDescriptionTE panel = Some s -> s = Description v)
  /\ (forall s, detailNotesTE panel = Some s -> s = Notes v).

(** A text field as the dialog stores it. *)
Definition trimmed (s : string) : Prop :=
  hasLeadingSpace s = false /\ hasTrailingSpace s = false.

(** The record matches the key the lookup is made with. *)
Definition keyMatches `{CaseFolding} (title company : string) (v : Vacancy) : bool :=
  EqualFold (Title v) title && EqualFold (Company v) company.

(* ================================================================== *)
(** * Vocabulary of sorting                                            *)
(* ================================================================== *)

(** The order in which [sort.SliceStable] arranges a slice is given by a
    test [before] on values, which the caller's [Less] applies to the
    values at two indices. *)

(** Two values neither of which sorts before the other. *)
Definition tied {A : Type} (before : A -> A -> bool) (x y : A) : bool :=
  negb (before x y) && negb (before y x).

(** No value of the list sorts before a value that stands earlier. *)
Definition ascending {A : Type} (before : A -> A -> bool) (l : list A) : Prop :=
  forall i j x y, i <= j -> l !! i = Some x -> l !! j = Some y -> before y x = false.

(** The values tied with any given one stand in [l'] in the order they
    have in [l]. *)
Definition tiesInOrder {A : Type} (before : A -> A -> bool) (l' l : list A) : Prop :=
  forall e, List.filter (tied before e) l' = List.filter (tied before e) l.

(** The same, by recursion on the list: a sorted run. *)
Fixpoint sortedRun {A : Type} (before : A -> A -> bool) (l : list A) : Prop :=
  match l with
  | [] => True
  | a :: rest => Forall (fun y => before y a = false) rest /\ sortedRun before rest
  end.

(** A piece of the slice after a step of the sort: a sorted run, the same
    values, ties in the order they had. *)
Definition sortsTo {A : Type} (before : A -> A -> bool) (w seg : list A) : Prop :=
  sortedRun before w /\ w ≡ₚ seg /\ tiesInOrder before w seg.

(** What [symMerge_func] is to do for two adjacent runs. *)
Definition merges {A : Type} (before : A -> A -> bool) (Less : list A -> nat -> nat -> bool)
    (fuel : nat) : Prop :=
  forall (pre u v post : list A) (a m b : nat),
    sortedRun before u -> sortedRun before v -> u <> [] -> v <> [] ->
    a = length pre -> m = a + length u -> b = m + length v ->
    length u + length v <= fuel ->
    exists w, symMerge_func Less fuel (pre ++ u ++ v ++ post) a m b = pre ++ w ++ post
              /\ sortsTo before w (u ++ v).

(** A slice made of sorted runs of [blockSize] values, the last one
    possibly shorter. *)
Inductive chunked {A : Type} (before : A -> A -> bool) (blockSize : nat) : list A -> Prop :=
  | chunked_last (l : list A) :
      length l <= blockSize -> sortedRun before l -> chunked before blockSize l
  | chunked_cons (blk rest : list A) :
      length blk = blockSize -> sortedRun before blk -> chunked before blockSize rest ->
      chunked before blockSize (blk ++ rest).

(** The slice after a pass: runs of [blockSize], the same values, ties in
    the order they had. *)
Definition arranged {A : Type} (before : A -> A -> bool) (blockSize : nat)
    (w seg : list A) : Prop :=
  chunked before blockSize w /\ w ≡ₚ seg /\ tiesInOrder before w seg.

(* ================================================================== *)
(** * What the main window lets the user do to the store               *)
(* ================================================================== *)




Section MainWindow.

Context `{CaseFolding}.
Variable Base : string -> string.




End MainWindow.

(* ================================================================== *)
(** * Properties of the [strings] model                                *)
(* ================================================================== *)

Lemma reverseBytes_involutive (s : string) : reverseBytes (reverseBytes s) = s.
Proof.
  unfold reverseBytes.
  rewrite list_ascii_of_string_of_list_ascii, rev_involutive.
  apply string_of_list_ascii_of_string.
Qed.

Lemma append_String (c : ascii) (s t : string) : String c s +:+ t = String c (s +:+ t).
Proof. reflexivity. Qed.

Lemma append_empty_l (t : string) : "" +:+ t = t.
Proof. reflexivity. Qed.

Lemma string_of_list_ascii_app (l1 l2 : list ascii) :
  string_of_list_ascii (l1 ++ l2) = string_of_list_ascii l1 +:+ string_of_list_ascii l2.
Proof.
  induction l1 as [|c l1 IH]; simpl; [reflexivity|].
  now rewrite append_String, IH.
Qed.

Lemma list_ascii_of_string_app (s1 s2 : string) :
  list_ascii_of_string (s1 +:+ s2) = list_ascii_of_string s1 ++ list_ascii_of_string s2.
Proof.
  induction s1 as [|c s1 IH]; [reflexivity|].
  rewrite append_String. simpl. now rewrite IH.
Qed.

Lemma reverseBytes_app (s1 s2 : string) :
  reverseBytes (s1 +:+ s2) = reverseBytes s2 +:+ reverseBytes s1.
Proof.
  unfold reverseBytes.
  now rewrite list_ascii_of_string_app, rev_app_distr, string_of_list_ascii_app.
Qed.

(** [trimFront] only removes a prefix. *)
Lemma trimFront_suffix (flip : bool) (s : string) :
  exists dropped, s = dropped +:+ trimFront flip s.
Proof.
  assert (Hlen : forall n s, String.length s <= n ->
                 exists dropped, s = dropped +:+ trimFront flip s).
  { clear s. induction n as [|n IH]; intros s Hn.
    - destruct s; [exists ""; reflexivity | simpl in Hn; lia].
    - destruct s as [|b1 s1]; [exists ""; reflexivity|].
      simpl in Hn. simpl.
      destruct (asciiSpace b1).
      { destruct (IH s1 ltac:(lia)) as [d Hd].
        exists (String b1 d). rewrite append_String. f_equal. exact Hd. }
      destruct s1 as [|b2 s2]; [exists ""; reflexivity|].
      simpl in Hn.
      destruct (if flip then space2 b2 b1 else space2 b1 b2).
      { destruct (IH s2 ltac:(lia)) as [d Hd].
        exists (String b1 (String b2 d)). rewrite !append_String. do 2 f_equal. exact Hd. }
      destruct s2 as [|b3 s3]; [exists ""; reflexivity|].
      simpl in Hn.
      destruct (if flip then space3 b3 b2 b1 else space3 b1 b2 b3).
      { destruct (IH s3 ltac:(lia)) as [d Hd].
        exists (String b1 (String b2 (String b3 d))). rewrite !append_String. do 3 f_equal. exact Hd. }
      exists ""; reflexivity. }
  apply (Hlen (String.length s)). lia.
Qed.

(** What [trimFront] returns does not start with white space. *)
Lemma trimFront_clean (flip : bool) (s : string) :
  startsWithSpace flip (trimFront flip s) = false.
Proof.
  assert (Hlen : forall n s, String.length s <= n ->
                 startsWithSpace flip (trimFront flip s) = false).
  { clear s. induction n as [|n IH]; intros s Hn.
    - destruct s; [reflexivity | simpl in Hn; lia].
    - destruct s as [|b1 s1]; [reflexivity|].
      simpl in Hn. simpl.
      destruct (asciiSpace b1) eqn:E1; [apply IH; lia|].
      destruct s1 as [|b2 s2]; [simpl; exact E1|].
      simpl in Hn.
      destruct (if flip then space2 b2 b1 else space2 b1 b2) eqn:E2; [apply IH; lia|].
      destruct s2 as [|b3 s3]; [simpl; now rewrite E1, E2|].
      simpl in Hn.
      destruct (if flip then space3 b3 b2 b1 else space3 b1 b2 b3) eqn:E3; [apply IH; lia|].
      simpl. now rewrite E1, E2, E3. }
  apply (Hlen (String.length s)). lia.
Qed.

(** A string that does not start with white space has no prefix that does. *)
Lemma startsWithSpace_prefix (flip : bool) (s rest : string) :
  startsWithSpace flip (s +:+ rest) = false -> startsWithSpace flip s = false.
Proof.
  destruct s as [|b1 [|b2 [|b3 s]]]; rewrite ?append_String, ?append_empty_l;
    simpl; intros Hs; try reflexivity.
  - destruct rest as [|r1 [|r2 rest]]; simpl in Hs; try exact Hs;
      apply orb_false_iff in Hs; destruct Hs as [Hs _]; try exact Hs;
      apply orb_false_iff in Hs; now destruct Hs.
  - destruct rest as [|r1 rest]; simpl in Hs; try exact Hs.
    apply orb_false_iff in Hs. now destruct Hs.
  - exact Hs.
Qed.

Lemma TrimSpace_no_trailing (s : string) : hasTrailingSpace (TrimSpace s) = false.
Proof.
  unfold hasTrailingSpace, TrimSpace.
  rewrite reverseBytes_involutive. apply trimFront_clean.
Qed.

Lemma TrimSpace_no_leading (s : string) : hasLeadingSpace (TrimSpace s) = false.
Proof.
  unfold hasLeadingSpace, TrimSpace.
  set (u := trimFront false s).
  destruct (trimFront_suffix true (reverseBytes u)) as [d Hd].
  apply (f_equal reverseBytes) in Hd.
  rewrite reverseBytes_involutive, reverseBytes_app in Hd.
  apply startsWithSpace_prefix with (rest := reverseBytes d).
  rewrite <- Hd. apply trimFront_clean.
Qed.

Lemma parseKeywords_loop (pieces acc : list string) :
  fold_left
    (fun keywords kw =>
       let trimmedKw := TrimSpace kw in
       if String.eqb trimmedKw "" then keywords else keywords ++ [trimmedKw])
    pieces acc
  = acc ++ List.filter (fun kw => negb (String.eqb kw "")) (map TrimSpace pieces).
Proof.
  revert acc. induction pieces as [|kw pieces IH]; intros acc; simpl.
  - now rewrite app_nil_r.
  - rewrite IH. destruct (String.eqb (TrimSpace kw) ""); simpl; [reflexivity|].
    now rewrite <- app_assoc.
Qed.

Lemma parseKeywords_clean (keywordsStr : string) :
  Forall cleanKeyword (parseKeywords keywordsStr).
Proof.
  unfold parseKeywords.
  destruct (String.eqb (TrimSpace keywordsStr) ""); [constructor|].
  rewrite parseKeywords_loop. simpl.
  apply Forall_forall. intros kw Hin.
  apply list_elem_of_In, filter_In in Hin. destruct Hin as [Hin Hne].
  apply in_map_iff in Hin. destruct Hin as [piece [<- _]].
  repeat split.
  - intros Heq. rewrite Heq in Hne. discriminate.
  - apply TrimSpace_no_leading.
  - apply TrimSpace_no_trailing.
Qed.

Lemma TrimSpace_onlySpaces (s : string) : onlySpaces s = true -> TrimSpace s = "".
Proof.
  intros Hs. unfold TrimSpace.
  assert (Hfront : trimFront false s = "").
  { induction s as [|c s IH]; [reflexivity|].
    simpl in Hs. apply andb_true_iff in Hs. destruct Hs as [Hc Hs].
    apply Ascii.eqb_eq in Hc. subst c. simpl. now apply IH. }
  now rewrite Hfront.
Qed.

Lemma Split_onlySpaces (s : string) :
  onlyCommasAndSpaces s = true -> Forall (fun piece => onlySpaces piece = true) (Split s ",").
Proof.
  induction s as [|c s IH]; simpl; intros Hs.
  - repeat constructor.
  - apply andb_true_iff in Hs. destruct Hs as [Hc Hs].
    specialize (IH Hs).
    destruct (Ascii.eqb c ",") eqn:Hcomma; [constructor; [reflexivity | exact IH]|].
    simpl in Hc.
    destruct (Split s ",") as [|piece pieces]; [repeat constructor; simpl; now rewrite Hc|].
    inversion IH; subst. constructor; [|assumption].
    simpl. rewrite Hc. assumption.
Qed.

Lemma parseKeywords_blank (keywordsStr : string) :
  onlyCommasAndSpaces keywordsStr = true -> parseKeywords keywordsStr = [].
Proof.
  intros Hs. unfold parseKeywords.
  destruct (String.eqb (TrimSpace keywordsStr) ""); [reflexivity|].
  rewrite parseKeywords_loop. simpl.
  apply Split_onlySpaces in Hs.
  induction Hs as [|piece pieces Hpiece _ IH]; [reflexivity|].
  simpl. now rewrite (TrimSpace_onlySpaces _ Hpiece).
Qed.

(* ================================================================== *)
(** * The record store                                                 *)
(* ================================================================== *)

Section StoreProperties.

Context `{CaseFolding}.

Lemma findFrom_Some (vs : list Vacancy) (title company : string) (i k : nat) :
  findFrom i vs title company = Some k ->
  i <= k /\ exists v, vs !! (k - i) = Some v
                      /\ EqualFold (Title v) title = true
                      /\ EqualFold (Company v) company = true.
Proof.
  revert i. induction vs as [|v vs IH]; intros i; cbn [findFrom findExactFrom]; [discriminate|].
  destruct (EqualFold (Title v) title && EqualFold (Company v) company) eqn:Hm.
  - intros Hk. injection Hk as Hk. subst k. split; [lia|]. exists v.
    apply andb_true_iff in Hm. rewrite Nat.sub_diag. now simpl.
  - intros Hk. apply IH in Hk. destruct Hk as [Hle [w [Hw Hkey]]].
    split; [lia|]. exists w. split; [|exact Hkey].
    replace (k - i) with (S (k - S i)) by lia. exact Hw.
Qed.

Lemma findFrom_None (vs : list Vacancy) (title company : string) (i : nat) :
  findFrom i vs title company = None ->
  Forall (fun v => EqualFold (Title v) title && EqualFold (Company v) company = false) vs.
Proof.
  revert i. induction vs as [|v vs IH]; intros i; cbn [findFrom]; [constructor|].
  destruct (EqualFold (Title v) title && EqualFold (Company v) company) eqn:Hm;
    [discriminate|].
  intros Hnone. constructor; [exact Hm | now apply IH in Hnone].
Qed.

Lemma findExactFrom_Some (vs : list Vacancy) (title company : string) (i k : nat) :
  findExactFrom i vs title company = Some k ->
  i <= k /\ exists v, vs !! (k - i) = Some v /\ Title v = title /\ Company v = company.
Proof.
  revert i. induction vs as [|v vs IH]; intros i; cbn [findFrom findExactFrom]; [discriminate|].
  destruct (String.eqb (Title v) title && String.eqb (Company v) company) eqn:Hm.
  - intros Hk. injection Hk as Hk. subst k. split; [lia|]. exists v.
    apply andb_true_iff in Hm. destruct Hm as [Ht Hc].
    apply String.eqb_eq in Ht, Hc. rewrite Nat.sub_diag. now simpl.
  - intros Hk. apply IH in Hk. destruct Hk as [Hle [w [Hw Hkey]]].
    split; [lia|]. exists w. split; [|exact Hkey].
    replace (k - i) with (S (k - S i)) by lia. exact Hw.
Qed.

Lemma equalStringSlices_eq (a b : list string) : equalStringSlices a b = true <-> a = b.
Proof.
  revert b. induction a as [|x a IH]; intros [|y b]; simpl; split;
    try congruence; try discriminate.
  - intros Hab. apply andb_true_iff in Hab. destruct Hab as [Hxy Hab].
    apply String.eqb_eq in Hxy. apply IH in Hab. congruence.
  - intros [= -> ->]. rewrite String.eqb_refl. now apply IH.
Qed.

Lemma updateField_eq {A : Type} (same : A -> A -> bool) (widget : option A)
    (old : A) (changed : bool) :
  updateField same widget old changed
  = (match widget with
     | Some new => if same old new then old else new
     | None => old
     end,
     changed || match widget with
                | Some new => negb (same old new)
                | None => false
                end).
Proof.
  destruct widget as [new|]; simpl; [|now rewrite orb_false_r].
  destruct (same old new); simpl; [now rewrite orb_false_r | now rewrite orb_true_r].
Qed.

(** The details panel never changes the title or the company, and with a
    keyword field present the keywords it leaves are the parsed text. *)
Lemma updatedVacancyOf_key (panel : DetailsPanel) (v : Vacancy) :
  Title (fst (updatedVacancyOf panel v)) = Title v
  /\ Company (fst (updatedVacancyOf panel v)) = Company v.
Proof.
  unfold updatedVacancyOf.
  repeat (rewrite updateField_eq; cbn beta iota).
  now simpl.
Qed.

Lemma updatedVacancyOf_keywords (panel : DetailsPanel) (v : Vacancy) (text : string) :
  detailKeywordsLE panel = Some text ->
  Keywords (fst (updatedVacancyOf panel v)) = parseKeywords text
  /\ (snd (updatedVacancyOf panel v) = false -> Keywords v = parseKeywords text).
Proof.
  intros Htext. unfold updatedVacancyOf. rewrite Htext.
  repeat (rewrite updateField_eq; cbn beta iota).
  cbn [fst snd Keywords option_map].
  destruct (equalStringSlices (Keywords v) (parseKeywords text)) eqn:Heq.
  - apply equalStringSlices_eq in Heq. split; [exact Heq | intros _; exact Heq].
  - split; [reflexivity|].
    cbn [negb]. rewrite orb_true_r. simpl.
    destruct (detailSourceURLLE panel) as [x|], (detailDescriptionTE panel) as [y|],
      (detailNotesTE panel) as [z|]; simpl; intros Hf; discriminate Hf.
Qed.

(** C10 -- a record stored through the add/edit dialog or through the
    details-panel save carries only keywords that are non-empty and have no
    white space at either end: the keyword text is split on commas, every
    piece is trimmed and the empty pieces are dropped, so a text of commas
    and spaces leaves no keyword at all. *)
Theorem stored_keywords_clean :
  (forall (dlg : AddVacancyDialog) (isOnlineSearch : bool)
          (allVacancies stored : list Vacancy),
      acceptVacancyDialog dlg isOnlineSearch allVacancies = (stored, Accepted) ->
      (exists i, stored !! i = Some (savedVacancyOf dlg))
      /\ Keywords (savedVacancyOf dlg) = parseKeywords (keywordsLE dlg)
      /\ Forall cleanKeyword (Keywords (savedVacancyOf dlg)))
  /\ (forall (panel : DetailsPanel) (vacancyInView : Vacancy)
             (allVacancies : list Vacancy) (text : string) (i : nat),
        detailKeywordsLE panel = Some text ->
        findExactFrom 0 allVacancies (Title vacancyInView) (Company vacancyInView) = Some i ->
        exists v, saveVacancyDetails panel vacancyInView allVacancies !! i = Some v
                  /\ Keywords v = parseKeywords text
                  /\ Forall cleanKeyword (Keywords v))
  /\ (forall keywordsStr : string,
        onlyCommasAndSpaces keywordsStr = true -> parseKeywords keywordsStr = []).
Proof.
  split; [|split].
  - intros dlg online allVacancies stored Hacc.
    split; [|split; [reflexivity | apply parseKeywords_clean]].
    unfold acceptVacancyDialog in Hacc.
    destruct (String.eqb (Title (savedVacancyOf dlg)) ""); [discriminate|].
    destruct (isEdit dlg && negb online).
    + destruct (findVacancyIndexInAllExt allVacancies (originalTitle dlg)
                  (originalCompany dlg)) as [k|] eqn:Hfind; [|discriminate].
      injection Hacc as Hstored. subst stored.
      apply findFrom_Some in Hfind. destruct Hfind as [_ [v [Hv _]]].
      rewrite Nat.sub_0_r in Hv.
      exists k. apply list_lookup_insert_eq. now apply lookup_lt_Some in Hv.
    + destruct (findVacancyIndexInAllExt allVacancies (Title (savedVacancyOf dlg))
                  (Company (savedVacancyOf dlg))); [discriminate|].
      injection Hacc as Hstored. subst stored.
      exists (length allVacancies). apply list_lookup_middle. reflexivity.
  - intros panel view allVacancies text i Htext Hfind.
    unfold saveVacancyDetails. rewrite Hfind.
    apply findExactFrom_Some in Hfind. destruct Hfind as [_ [v [Hv _]]].
    rewrite Nat.sub_0_r in Hv. rewrite Hv.
    destruct (updatedVacancyOf_keywords panel v text Htext) as [Hnew Hold].
    destruct (updatedVacancyOf panel v) as [updated changed]. simpl in Hnew, Hold.
    destruct changed.
    + exists updated. split; [|split].
      * apply list_lookup_insert_eq. now apply lookup_lt_Some in Hv.
      * exact Hnew.
      * rewrite Hnew. apply parseKeywords_clean.
    + exists v. specialize (Hold eq_refl). split; [exact Hv|split; [exact Hold|]].
      rewrite Hold. apply parseKeywords_clean.
  - exact parseKeywords_blank.
Qed.

(** ** The uniqueness invariant *)

Lemma sameKey_sym (a b : Vacancy) : sameKey a b = sameKey b a.
Proof.
  unfold sameKey.
  now rewrite (EqualFold_sym (Title a)), (EqualFold_sym (Company a)).
Qed.

(** Appending a record whose key nobody has keeps the keys unique. *)
Lemma uniqueKeys_snoc (allVacancies : list Vacancy) (new : Vacancy) :
  uniqueKeys allVacancies ->
  Forall (fun v => sameKey v new = false) allVacancies ->
  uniqueKeys (allVacancies ++ [new]).
Proof.
  intros Huniq Hfresh i j a b Hi Hj Hij.
  rewrite Forall_forall in Hfresh.
  apply lookup_snoc_Some in Hi, Hj.
  destruct Hi as [[Hi Ha]|[Hi Ha]], Hj as [[Hj Hb]|[Hj Hb]].
  - now apply (Huniq i j).
  - subst b. apply Hfresh. apply list_elem_of_lookup. now exists i.
  - subst a. rewrite sameKey_sym. apply Hfresh. apply list_elem_of_lookup. now exists j.
  - lia.
Qed.

(** Cutting a record out keeps them unique. *)
Lemma uniqueKeys_delete (allVacancies : list Vacancy) (k : nat) :
  uniqueKeys allVacancies ->
  uniqueKeys (take k allVacancies ++ drop (k + 1) allVacancies).
Proof.
  intros Huniq i j a b Hi Hj Hij.
  replace (k + 1) with (S k) in Hi, Hj by lia.
  rewrite <- delete_take_drop in Hi, Hj.
  rewrite list_lookup_delete in Hi, Hj.
  eapply Huniq; [exact Hi | exact Hj |].
  repeat case_decide; lia.
Qed.

(** Overwriting a record by one with the same title and company keeps
    them unique. *)
Lemma uniqueKeys_overwrite (allVacancies : list Vacancy) (k : nat) (old new : Vacancy) :
  uniqueKeys allVacancies ->
  allVacancies !! k = Some old ->
  Title new = Title old -> Company new = Company old ->
  uniqueKeys (<[k := new]> allVacancies).
Proof.
  intros Huniq Hold Ht Hc i j a b Hi Hj Hij.
  assert (Hkey : forall n x, <[k := new]> allVacancies !! n = Some x ->
            exists y, allVacancies !! n = Some y
                      /\ Title x = Title y /\ Company x = Company y).
  { intros n x Hn. apply list_lookup_insert_Some in Hn.
    destruct Hn as [[-> [<- _]]|[_ Hn]]; [now exists old | now exists x]. }
  destruct (Hkey i a Hi) as [a' [Ha' [Hta Hca]]].
  destruct (Hkey j b Hj) as [b' [Hb' [Htb Hcb]]].
  unfold sameKey. rewrite Hta, Hca, Htb, Hcb.
  now apply (Huniq i j).
Qed.

(** Adding through the dialog (from the local list or from the online
    results) keeps the keys unique: the handler looks the new key up first. *)
Lemma add_keeps_uniqueKeys (dlg : AddVacancyDialog) (isOnlineSearch : bool)
    (allVacancies : list Vacancy) :
  isEdit dlg && negb isOnlineSearch = false ->
  uniqueKeys allVacancies ->
  uniqueKeys (fst (acceptVacancyDialog dlg isOnlineSearch allVacancies)).
Proof.
  intros Hadd Huniq. unfold acceptVacancyDialog. rewrite Hadd.
  destruct (String.eqb (Title (savedVacancyOf dlg)) ""); [exact Huniq|].
  destruct (findVacancyIndexInAllExt allVacancies (Title (savedVacancyOf dlg))
              (Company (savedVacancyOf dlg))) eqn:Hfind; [exact Huniq|].
  simpl. apply uniqueKeys_snoc; [exact Huniq|].
  apply findFrom_None in Hfind. exact Hfind.
Qed.

(** Deleting keeps them unique. *)
Lemma delete_keeps_uniqueKeys (selected : Vacancy) (allVacancies : list Vacancy) :
  uniqueKeys allVacancies ->
  uniqueKeys (confirmDeleteVacancy selected allVacancies).
Proof.
  intros Huniq. unfold confirmDeleteVacancy.
  destruct (findVacancyIndexInAllExt allVacancies (Title selected) (Company selected));
    [now apply uniqueKeys_delete | exact Huniq].
Qed.

(** Saving from the details panel keeps them unique: title and company
    are not editable there. *)
Lemma details_keep_uniqueKeys (panel : DetailsPanel) (vacancyInView : Vacancy)
    (allVacancies : list Vacancy) :
  uniqueKeys allVacancies ->
  uniqueKeys (saveVacancyDetails panel vacancyInView allVacancies).
Proof.
  intros Huniq. unfold saveVacancyDetails.
  destruct (findExactFrom 0 allVacancies (Title vacancyInView) (Company vacancyInView))
    as [k|]; [|exact Huniq].
  destruct (allVacancies !! k) as [original|] eqn:Hk; [|exact Huniq].
  destruct (updatedVacancyOf_key panel original) as [Ht Hc].
  destruct (updatedVacancyOf panel original) as [updated changed]. simpl in Ht, Hc.
  destruct changed; [|exact Huniq].
  now apply uniqueKeys_overwrite with (old := original).
Qed.

End StoreProperties.

(* ================================================================== *)
(** * The filter                                                       *)
(* ================================================================== *)

Section FilterProperties.

Context `{CaseFolding}.

(** The append loop of [performSearch] keeps the records that match, in
    the order of the snapshot. *)
Lemma filter_loop (keep : Vacancy -> bool) (vs acc : list Vacancy) :
  fold_left (fun filtered v => if keep v then filtered ++ [v] else filtered) vs acc
  = acc ++ List.filter keep vs.
Proof.
  revert acc. induction vs as [|v vs IH]; intros acc; simpl.
  - now rewrite app_nil_r.
  - rewrite IH. destruct (keep v); [now rewrite <- app_assoc | reflexivity].
Qed.

Lemma searchInFieldOf_cases (index : Z) :
  (index = 0 \/ index = 1 \/ index = 2 \/ index = 3 \/ index = 4
   \/ index = 5 \/ index = 6)%Z
  \/ searchInFieldOf index = "Везде".
Proof.
  unfold searchInFieldOf.
  destruct (0 <=? index)%Z eqn:Hlo; [|now right].
  destruct (index <? Z.of_nat (length searchFields))%Z eqn:Hhi; [|now right].
  left. apply Z.leb_le in Hlo. apply Z.ltb_lt in Hhi. simpl in Hhi. lia.
Qed.

(** Every selector but the two enumerated ones is a free-text selector. *)
Lemma free_text_selector (index : Z) :
  index <> 5%Z -> index <> 6%Z ->
  String.eqb (searchInFieldOf index) "По статусу" = false
  /\ String.eqb (searchInFieldOf index) "По опыту" = false.
Proof.
  intros H5 H6.
  destruct (searchInFieldOf_cases index) as [Hin | Hout].
  - destruct Hin as [-> | [-> | [-> | [-> | [-> | [-> | ->]]]]]];
      try contradiction; split; reflexivity.
  - rewrite Hout. split; reflexivity.
Qed.

Lemma filterVacancies_unfiltered (ui : SearchControls) (snapshot : list Vacancy) :
  searchEdit_Text ui = "" ->
  searchFieldCB_CurrentIndex ui <> 5%Z ->
  searchFieldCB_CurrentIndex ui <> 6%Z ->
  filterVacancies ui snapshot = snapshot.
Proof.
  intros Hempty H5 H6.
  destruct (free_text_selector _ H5 H6) as [Hstatus Hexp].
  unfold filterVacancies, searchTermOf.
  rewrite Hstatus, Hexp, Hempty, ToLower_empty. reflexivity.
Qed.

(** [performSearch] then shows that snapshot sorted by the column and
    order the table is in. *)
Lemma performSearch_unfiltered (ui : SearchControls) (snapshot : list Vacancy)
    (m : VacancyModel) :
  searchEdit_Text ui = "" ->
  searchFieldCB_CurrentIndex ui <> 5%Z ->
  searchFieldCB_CurrentIndex ui <> 6%Z ->
  performSearch ui snapshot m
  = Sort {| items := snapshot; sortColumn := sortColumn m; sortOrder := sortOrder m |}
         (sortColumn m) (sortOrder m).
Proof.
  intros Hempty H5 H6. unfold performSearch.
  now rewrite filterVacancies_unfiltered.
Qed.

(** What the two enumerated selectors compute: whole-field [EqualFold]
    against the lower-cased choice. *)
Lemma filterVacancies_enumerated (ui : SearchControls) (snapshot : list Vacancy) :
  (searchFieldCB_CurrentIndex ui = 5%Z ->
   filterVacancies ui snapshot
   = List.filter (fun v => EqualFold (Status v) (ToLower (statusFilterCB_Text ui))) snapshot)
  /\ (searchFieldCB_CurrentIndex ui = 6%Z ->
      filterVacancies ui snapshot
      = List.filter
          (fun v => EqualFold (ExperienceLevel v) (ToLower (experienceFilterCB_Text ui)))
          snapshot).
Proof.
  split; intros Hidx; unfold filterVacancies; rewrite Hidx;
    change (searchInFieldOf 5) with "По статусу";
    change (searchInFieldOf 6) with "По опыту";
    rewrite String.eqb_refl, ?andb_false_r; cbn [negb andb];
    rewrite filter_loop; reflexivity.
Qed.

(** C5 -- with the status selector the filter returns exactly the records
    whose status equals the chosen value [S] without regard to case, and
    with the experience selector those whose experience level does; it
    filters whatever [S] is and compares whole fields.  [S] is one of the
    enumerated values, which lower-casing does not move to another folding
    class. *)
Theorem enumerated_selectors_filter_exactly (ui : SearchControls) (snapshot : list Vacancy) :
  (searchFieldCB_CurrentIndex ui = 5%Z ->
   (forall field, EqualFold field (ToLower (statusFilterCB_Text ui))
                  = EqualFold field (statusFilterCB_Text ui)) ->
   filterVacancies ui snapshot
   = List.filter (fun v => EqualFold (Status v) (statusFilterCB_Text ui)) snapshot)
  /\ (searchFieldCB_CurrentIndex ui = 6%Z ->
      (forall field, EqualFold field (ToLower (experienceFilterCB_Text ui))
                     = EqualFold field (experienceFilterCB_Text ui)) ->
      filterVacancies ui snapshot
      = List.filter (fun v => EqualFold (ExperienceLevel v) (experienceFilterCB_Text ui))
          snapshot).
Proof.
  destruct (filterVacancies_enumerated ui snapshot) as [Hstatus Hexperience].
  split; intros Hidx Hfold.
  - rewrite (Hstatus Hidx). apply filter_ext. intros v. apply Hfold.
  - rewrite (Hexperience Hidx). apply filter_ext. intros v. apply Hfold.
Qed.

End FilterProperties.

(* ================================================================== *)
(** * The cancellation signal                                          *)
(* ================================================================== *)

Lemma closedAt_mono (sig : Signal) (t t' : nat) :
  t <= t' -> closedAt sig t = true -> closedAt sig t' = true.
Proof.
  unfold closedAt. destruct (closeAt sig) as [c|]; [|discriminate].
  intros Hle Hc. apply Nat.leb_le in Hc. apply Nat.leb_le. lia.
Qed.

Lemma faithful_start (sig : Signal) : faithful sig start.
Proof. intros o []. Qed.

Lemma faithful_poll (sig : Signal) (p : Probe) :
  faithful sig p -> faithful sig (snd (poll sig p)).
Proof.
  intros Hp o [<- | Hin]; simpl.
  - exists (clock p). split; [lia | reflexivity].
  - destruct (Hp o Hin) as [t [Ht Ho]]. exists t. split; [lia | exact Ho].
Qed.

Lemma faithful_ctxCanceled (sig : Signal) (p : Probe) :
  faithful sig p -> faithful sig (snd (ctxCanceled sig p)).
Proof.
  intros Hp o Hin. simpl in *.
  destruct (Hp o Hin) as [t [Ht Ho]]. exists t. split; [lia | exact Ho].
Qed.

(** Once closed is on record, every later look finds the channel closed. *)
Lemma faithful_closed (sig : Signal) (p : Probe) :
  faithful sig p -> In true (seen p) -> closedAt sig (clock p) = true.
Proof.
  intros Hp Hin. destruct (Hp true Hin) as [t [Ht Ho]].
  apply closedAt_mono with (t := t); [lia | now symmetry].
Qed.

(** A channel that is never closed is never seen closed. *)
Lemma faithful_never (sig : Signal) (p : Probe) :
  faithful sig p -> closeAt sig = None -> ~ In true (seen p).
Proof.
  intros Hp Hnone Hin. destruct (Hp true Hin) as [t [_ Ho]].
  unfold closedAt in Ho. rewrite Hnone in Ho. discriminate.
Qed.

Lemma convertJobs_faithful (sig : Signal) (jobs : list Jooble.Job)
    (vacancies : list Vacancy) (p : Probe) :
  faithful sig p -> faithful sig (snd (convertJobs jobs vacancies sig p)).
Proof.
  revert vacancies p. induction jobs as [|job jobs IH]; intros vacancies p Hp.
  - exact Hp.
  - cbn [convertJobs]. unfold bind.
    pose proof (faithful_poll sig p Hp) as Hp'.
    destruct (poll sig p) as [closed p'] eqn:Hpoll. simpl in Hp'.
    destruct closed; [exact Hp'|].
    destruct (String.eqb (Jooble.Title job) "" || String.eqb (Jooble.Link job) "");
      now apply IH.
Qed.

Lemma searchVacanciesJooble_faithful (keywords location : string) (net : Exchange)
    (sig : Signal) (p : Probe) :
  faithful sig p -> faithful sig (snd (searchVacanciesJooble keywords location net sig p)).
Proof.
  intros Hp. unfold searchVacanciesJooble.
  destruct (marshal net); [exact Hp|].
  destruct (newRequest net); [exact Hp|].
  pose proof (faithful_poll sig p Hp) as Hp1.
  destruct (clientDo net) as [err|resp]; unfold bind;
    destruct (poll sig p) as [closed p1]; simpl in Hp1;
    (destruct closed; [exact Hp1|]).
  - pose proof (faithful_ctxCanceled sig p1 Hp1) as Hp2.
    destruct (ctxCanceled sig p1) as [canceled p2]. simpl in Hp2.
    destruct canceled; exact Hp2.
  - destruct (readAll resp) as [err|body]; [exact Hp1|].
    pose proof (faithful_poll sig p1 Hp1) as Hp2.
    destruct (poll sig p1) as [closed' p2]. simpl in Hp2.
    destruct closed'; [exact Hp2|].
    destruct (negb (StatusCode resp =? 200)%Z); [exact Hp2|].
    destruct (unmarshalResponse net body) as [err|joobleResp]; [exact Hp2|].
    unfold convertResponse.
    destruct (Jooble.Err joobleResp); [exact Hp2|].
    now apply convertJobs_faithful.
Qed.

(* ================================================================== *)
(** * The search client                                                *)
(* ================================================================== *)

Lemma poll_never (sig : Signal) (p : Probe) :
  closeAt sig = None -> fst (poll sig p) = false.
Proof. intros Hnone. unfold poll, closedAt. now rewrite Hnone. Qed.

Lemma vacancyOfJob_mappedJob (job : Jooble.Job) : vacancyOfJob job = mappedJob job.
Proof. reflexivity. Qed.

(** The conversion loop keeps the usable jobs, in their order. *)
Lemma convertJobs_result (sig : Signal) (jobs : list Jooble.Job)
    (vacancies : list Vacancy) (p : Probe) (vs : list Vacancy) :
  fst (convertJobs jobs vacancies sig p) = Vacancies vs ->
  vs = vacancies ++ map mappedJob (List.filter usableJob jobs).
Proof.
  revert vacancies p. induction jobs as [|job jobs IH]; intros vacancies p.
  - simpl. intros Hvs. injection Hvs as <-. now rewrite app_nil_r.
  - cbn [convertJobs List.filter]. unfold bind, usableJob at 1.
    destruct (poll sig p) as [closed p'].
    destruct closed; [discriminate|].
    destruct (String.eqb (Jooble.Title job) "" || String.eqb (Jooble.Link job) "");
      cbn [negb]; intros Hvs; apply IH in Hvs; [exact Hvs|].
    rewrite Hvs, <- app_assoc. reflexivity.
Qed.

Lemma convertJobs_never (sig : Signal) (jobs : list Jooble.Job)
    (vacancies : list Vacancy) (p : Probe) :
  closeAt sig = None ->
  fst (convertJobs jobs vacancies sig p)
  = Vacancies (vacancies ++ map mappedJob (List.filter usableJob jobs)).
Proof.
  intros Hnone. revert vacancies p.
  induction jobs as [|job jobs IH]; intros vacancies p.
  - simpl. now rewrite app_nil_r.
  - cbn [convertJobs List.filter]. unfold bind, usableJob at 1.
    pose proof (poll_never sig p Hnone) as Hpoll.
    destruct (poll sig p) as [closed p']. simpl in Hpoll. subst closed.
    destruct (String.eqb (Jooble.Title job) "" || String.eqb (Jooble.Link job) "");
      cbn [negb]; rewrite IH; [reflexivity|].
    rewrite <- app_assoc. reflexivity.
Qed.

(** C8 -- on a successful response the client skips exactly the job
    entries whose title or link is empty and maps every other entry, in
    order, to a record with the first enumerated status, the first
    enumerated experience level, no keywords, the job's link as source
    URL, its snippet as description and its company. *)
Theorem client_maps_usable_jobs (keywords location : string) (net : Exchange)
    (sig : Signal) (p : Probe) :
  (forall vs : list Vacancy,
      fst (searchVacanciesJooble keywords location net sig p) = Vacancies vs ->
      exists resp body joobleResp,
        clientDo net = inr resp /\ readAll resp = inr body
        /\ unmarshalResponse net body = inr joobleResp
        /\ vs = map mappedJob (List.filter usableJob (Jooble.Jobs joobleResp)))
  /\ (forall resp body joobleResp,
        marshal net = None -> newRequest net = None ->
        clientDo net = inr resp -> readAll resp = inr body ->
        StatusCode resp = 200%Z ->
        unmarshalResponse net body = inr joobleResp ->
        Jooble.Err joobleResp = None ->
        closeAt sig = None ->
        fst (searchVacanciesJooble keywords location net sig p)
        = Vacancies (map mappedJob (List.filter usableJob (Jooble.Jobs joobleResp)))).
Proof.
  split.
  - intros vs. unfold searchVacanciesJooble.
    destruct (marshal net); [discriminate|].
    destruct (newRequest net); [discriminate|].
    destruct (clientDo net) as [err|resp] eqn:Hdo; unfold bind;
      destruct (poll sig p) as [closed p1]; (destruct closed; [discriminate|]).
    + destruct (ctxCanceled sig p1) as [canceled p2]. destruct canceled; discriminate.
    + destruct (readAll resp) as [err|body] eqn:Hread; [discriminate|].
      destruct (poll sig p1) as [closed' p2]. destruct closed'; [discriminate|].
      destruct (negb (StatusCode resp =? 200)%Z); [discriminate|].
      destruct (unmarshalResponse net body) as [err|joobleResp] eqn:Hdecode.
      { unfold decodeFailure. destruct (unmarshalError net body) as [e|]; [|discriminate].
        destruct (negb (String.eqb (Jooble.Message e) "")); discriminate. }
      unfold convertResponse. destruct (Jooble.Err joobleResp); [discriminate|].
      intros Hvs. apply convertJobs_result in Hvs.
      exists resp, body, joobleResp. repeat split; assumption || reflexivity.
  - intros resp body joobleResp Hm Hr Hdo Hread Hstatus Hdecode Herr Hnone.
    unfold searchVacanciesJooble. rewrite Hm, Hr, Hdo. unfold bind.
    pose proof (poll_never sig p Hnone) as Hpoll.
    destruct (poll sig p) as [closed p1]. simpl in Hpoll. subst closed.
    rewrite Hread.
    pose proof (poll_never sig p1 Hnone) as Hpoll.
    destruct (poll sig p1) as [closed p2]. simpl in Hpoll. subst closed.
    rewrite Hstatus, Hdecode. simpl.
    unfold convertResponse. rewrite Herr.
    now rewrite convertJobs_never.
Qed.

(* ================================================================== *)
(** * The online-search task                                           *)
(* ================================================================== *)

Section TaskProperties.

Context `{CaseFolding}.

(** The de-duplication loop: either it leaves through the cancellation
    branch, having just seen the channel closed, or it saw it open every
    time and kept the records the store does not hold, in their order. *)
Lemma filterOnline_spec (sig : Signal) (allVacancies joobleVacancies acc : list Vacancy)
    (p : Probe) :
  faithful sig p ->
  faithful sig (snd (filterOnline allVacancies joobleVacancies acc sig p))
  /\ match fst (filterOnline allVacancies joobleVacancies acc sig p) with
     | None => In true (seen (snd (filterOnline allVacancies joobleVacancies acc sig p)))
     | Some filtered =>
         filtered = acc ++ List.filter (notInStore allVacancies) joobleVacancies
         /\ (In true (seen (snd (filterOnline allVacancies joobleVacancies acc sig p)))
             -> In true (seen p))
     end.
Proof.
  revert acc p. induction joobleVacancies as [|onlineV rest IH]; intros acc p Hp.
  - simpl. split; [exact Hp|]. split; [now rewrite app_nil_r | tauto].
  - cbn [filterOnline List.filter]. unfold bind.
    pose proof (faithful_poll sig p Hp) as Hp1.
    unfold poll in *. cbn [snd] in Hp1.
    destruct (closedAt sig (clock p)) eqn:Hclosed.
    + simpl. split; [exact Hp1 | now left].
    + change (notInStore allVacancies onlineV)
        with (negb (foundLocally allVacancies onlineV)).
      destruct (foundLocally allVacancies onlineV); cbn [negb].
      * destruct (IH acc _ Hp1) as [Hf Hres]. split; [exact Hf|].
        destruct (fst (filterOnline allVacancies rest acc sig _)); [|exact Hres].
        destruct Hres as [Heq Hseen]. split; [exact Heq|].
        intros Hin. apply Hseen in Hin. simpl in Hin.
        destruct Hin as [Hin|Hin]; [discriminate | exact Hin].
      * destruct (IH (acc ++ [onlineV]) _ Hp1) as [Hf Hres]. split; [exact Hf|].
        destruct (fst (filterOnline allVacancies rest (acc ++ [onlineV]) sig _));
          [|exact Hres].
        destruct Hres as [Heq Hseen]. split.
        { rewrite Heq, <- app_assoc. reflexivity. }
        intros Hin. apply Hseen in Hin. simpl in Hin.
        destruct Hin as [Hin|Hin]; [discriminate | exact Hin].
Qed.

(** What the task does once the client has returned, in terms of the
    client's result and of what the task sees of the channel. *)
Lemma runSearch_spec (currentSearchTerm : string) (net : Exchange)
    (allVacancies : list Vacancy) (sig : Signal) :
  let result := fst (searchVacanciesJooble currentSearchTerm "" net sig start) in
  let view := fst (runSearch currentSearchTerm net allVacancies sig) in
  let p := snd (runSearch currentSearchTerm net allVacancies sig) in
  faithful sig p
  /\ (In true (seen p) -> outcomeOf view = Cancelled)
  /\ (outcomeOf view = Cancelled ->
      In true (seen p)
      \/ exists err, result = SearchError err /\ Contains err "context canceled" = true)
  /\ (forall records, outcomeOf view = Results records ->
      exists raw, result = Vacancies raw
                  /\ records = List.filter (notInStore allVacancies) raw)
  /\ (forall err, result = SearchError err -> Contains err "context canceled" = true ->
      outcomeOf view = Cancelled)
  /\ (forall raw, result = Vacancies raw -> ~ In true (seen p) ->
      outcomeOf view = Results (List.filter (notInStore allVacancies) raw)).
Proof.
  unfold runSearch, onlineSearchTask, bind.
  pose proof (searchVacanciesJooble_faithful currentSearchTerm "" net sig start
                (faithful_start sig)) as Hp1.
  destruct (searchVacanciesJooble currentSearchTerm "" net sig start) as [result p1].
  cbn [fst snd] in *.
  pose proof (faithful_poll sig p1 Hp1) as Hp2.
  pose proof (faithful_closed sig p1 Hp1) as Hseen1.
  unfold poll in *. cbn [snd] in Hp2.
  destruct (closedAt sig (clock p1)) eqn:Hclosed.
  { (* the channel is closed when the client returns *)
    cbn. repeat split; try (intros; exact Hp2); try reflexivity; try discriminate.
    - intros _. left. now left.
    - intros raw _ Hno. exfalso. apply Hno. now left. }
  assert (Hnone1 : ~ In true (seen p1)) by (intros Hin; apply Hseen1 in Hin; discriminate).
  set (p2 := {| clock := S (clock p1); seen := false :: seen p1 |}) in *.
  assert (Hnone2 : ~ In true (seen p2)).
  { simpl. intros [Hin|Hin]; [discriminate | now apply Hnone1]. }
  destruct result as [joobleVacancies|err]; cbn [publish].
  - (* the client returned a list *)
    unfold bind.
    destruct (filterOnline_spec sig allVacancies joobleVacancies [] p2 Hp2) as [Hp3 Hres].
    destruct (filterOnline allVacancies joobleVacancies [] sig p2) as [filtered p3].
    cbn [fst snd] in *.
    destruct filtered as [filtered|].
    + destruct Hres as [Heq Hseen3]. rewrite app_nil_l in Heq. subst filtered.
      assert (Hnone3 : ~ In true (seen p3)) by tauto.
      set (kept := List.filter (notInStore allVacancies) joobleVacancies) in *.
      destruct (length kept =? 0)%nat.
      * pose proof (faithful_poll sig p3 Hp3) as Hp4.
        unfold poll in *. cbn [snd] in Hp4.
        destruct (closedAt sig (clock p3)); cbn.
        -- repeat split; try exact Hp4; try reflexivity; try discriminate.
           ++ intros _. left. now left.
           ++ intros raw _ Hno. exfalso. apply Hno. now left.
        -- repeat split; try exact Hp4; try discriminate.
           ++ intros [Hin|Hin]; [discriminate | tauto].
           ++ intros records Hrec. injection Hrec as <-. now exists joobleVacancies.
           ++ intros raw Hraw _. injection Hraw as <-. reflexivity.
      * cbn. repeat split; try exact Hp3; try discriminate.
        -- tauto.
        -- intros records Hrec. injection Hrec as <-. now exists joobleVacancies.
        -- intros raw Hraw _. injection Hraw as <-. reflexivity.
    + cbn. repeat split; try exact Hp3; try reflexivity; try discriminate.
      * intros _. now left.
      * intros raw _ Hno. exfalso. now apply Hno.
  - (* the client returned an error *)
    destruct (Contains err "context canceled") eqn:Htext; cbn.
    + repeat split; try exact Hp2; try reflexivity; try discriminate.
      intros _. right. now exists err.
    + repeat split; try exact Hp2; try discriminate.
      * intros [Hin|Hin]; [discriminate | tauto].
      * intros err' Herr Htext'. injection Herr as <-. congruence.
Qed.

(** C1 -- whenever the background task has seen the cancel channel closed
    at one of its checkpoints, the outcome it delivers is Cancelled,
    whatever the network call returned, a list or an error. *)
Theorem cancellation_wins (currentSearchTerm : string) (net : Exchange)
    (allVacancies : list Vacancy) (sig : Signal) :
  In true (seen (snd (runSearch currentSearchTerm net allVacancies sig))) ->
  outcomeOf (fst (runSearch currentSearchTerm net allVacancies sig)) = Cancelled.
Proof.
  intros Hseen.
  now apply (runSearch_spec currentSearchTerm net allVacancies sig).
Qed.

(** C3 -- the results delivered are the client's list without the records
    whose title and company match, without regard to case, those of some
    record of the store, the others staying in the order the client gave
    them. *)
Theorem results_are_deduplicated (currentSearchTerm : string) (net : Exchange)
    (allVacancies : list Vacancy) (sig : Signal) :
  (forall records,
      outcomeOf (fst (runSearch currentSearchTerm net allVacancies sig)) = Results records ->
      exists raw,
        fst (searchVacanciesJooble currentSearchTerm "" net sig start) = Vacancies raw
        /\ records = List.filter (notInStore allVacancies) raw)
  /\ (forall raw,
        closeAt sig = None ->
        fst (searchVacanciesJooble currentSearchTerm "" net sig start) = Vacancies raw ->
        outcomeOf (fst (runSearch currentSearchTerm net allVacancies sig))
        = Results (List.filter (notInStore allVacancies) raw))
  /\ (forall onlineV,
        notInStore allVacancies onlineV = false <->
        exists localV, In localV allVacancies
                       /\ EqualFold (Title onlineV) (Title localV) = true
                       /\ EqualFold (Company onlineV) (Company localV) = true).
Proof.
  destruct (runSearch_spec currentSearchTerm net allVacancies sig)
    as [Hfaithful [_ [_ [Hresults [_ Hopen]]]]].
  split; [exact Hresults|]. split.
  - intros raw Hnone Hraw. apply Hopen; [exact Hraw|].
    exact (faithful_never sig _ Hfaithful Hnone).
  - intros onlineV. unfold notInStore, sameKey.
    rewrite negb_false_iff, existsb_exists.
    split; intros [localV [Hin Hkey]]; exists localV; split; try exact Hin.
    + now apply andb_true_iff in Hkey.
    + now apply andb_true_iff.
Qed.

(** C9, as the code has it -- on a transport failure the client tells a
    cancelled request from another error by the state of the cancel
    channel and of the request context, whatever the text of the error;
    the task then reports Cancelled exactly when it has seen the channel
    closed at a checkpoint or the text of the client's error contains
    ["context canceled"]. *)
Theorem cancelled_by_state_or_by_text (currentSearchTerm : string) (net : Exchange)
    (allVacancies : list Vacancy) (sig : Signal) :
  (forall keywords location p err,
      marshal net = None -> newRequest net = None -> clientDo net = inl err ->
      fst (searchVacanciesJooble keywords location net sig p)
      = if closedAt sig (clock p)
        then SearchError "поиск отменен пользователем (сигнал из UI)"
        else if canceledAt sig (S (clock p))
             then SearchError "поиск отменен пользователем (контекст HTTP)"
             else SearchError ("ошибка выполнения HTTP запроса: " +:+ err))
  /\ (outcomeOf (fst (runSearch currentSearchTerm net allVacancies sig)) = Cancelled <->
      In true (seen (snd (runSearch currentSearchTerm net allVacancies sig)))
      \/ exists err,
           fst (searchVacanciesJooble currentSearchTerm "" net sig start) = SearchError err
           /\ Contains err "context canceled" = true).
Proof.
  split.
  - intros keywords location p err Hm Hr Hdo.
    unfold searchVacanciesJooble. rewrite Hm, Hr, Hdo.
    unfold bind, poll, ctxCanceled.
    destruct (closedAt sig (clock p)); [reflexivity|].
    cbn [clock].
    destruct (canceledAt sig (S (clock p))); reflexivity.
  - destruct (runSearch_spec currentSearchTerm net allVacancies sig)
      as [_ [Hseen [Hwhy [_ [Htext _]]]]].
    split; [exact Hwhy|].
    intros [Hin | [err [Herr Hcontains]]]; [now apply Hseen | now apply (Htext err)].
Qed.

End TaskProperties.

(* ================================================================== *)
(** * Sorting                                                          *)
(* ================================================================== *)

Lemma stringLess_irrefl (s : string) : stringLess s s = false.
Proof.
  unfold stringLess, String.ltb.
  pose proof (String.compare_antisym s s) as Hanti.
  destruct (String.compare s s); simpl in Hanti; congruence.
Qed.

(** On two elements [sort.SliceStable] is one step of insertion sort. *)
Lemma SliceStable_pair {A : Type} (less : list A -> nat -> nat -> bool) (x y : A) :
  SliceStable less [x; y] = if less [x; y] 1 0 then [y; x] else [x; y].
Proof.
  unfold SliceStable, stable_func. simpl.
  unfold insertionSort_func. simpl.
  destruct (less [x; y] 1 0); reflexivity.
Qed.

Section SortProperties.

Context `{CaseFolding}.

Lemma Less_sortKey (m : VacancyModel) (i j : nat) (a b : Vacancy) :
  items m !! i = Some a -> items m !! j = Some b ->
  Less m i j
  = match sortOrder m with
    | SortDescending => negb (stringLess (sortKey (sortColumn m) a) (sortKey (sortColumn m) b))
    | SortAscending => stringLess (sortKey (sortColumn m) a) (sortKey (sortColumn m) b)
    end.
Proof.
  intros Hi Hj. unfold Less, sortKey. rewrite Hi, Hj.
  destruct (sortColumn m) as [|p|p]; try reflexivity.
  destruct p as [p|p|]; try reflexivity;
    destruct p as [p|p|]; reflexivity.
Qed.

(** C7, as the code has it -- two records with equal sort keys keep their
    order under an ascending sort and exchange it under a descending one,
    where [Less] answers [!less] and so holds between equal keys in both
    directions; sorting the result again in descending order exchanges
    them back, so the descending sort is not idempotent. *)
Theorem descending_sort_swaps_equal_keys (m : VacancyModel) (a b : Vacancy) (col : Z) :
  items m = [a; b] ->
  sortKey col a = sortKey col b ->
  items (Sort m col SortAscending) = [a; b]
  /\ items (Sort m col SortDescending) = [b; a]
  /\ items (Sort (Sort m col SortDescending) col SortDescending) = [a; b].
Proof.
  intros Hitems Hkey.
  assert (Hasc : forall x y, sortKey col x = sortKey col y ->
            Less {| items := [x; y]; sortColumn := col; sortOrder := SortAscending |} 1 0
            = false).
  { intros x y Hxy. rewrite (Less_sortKey _ 1 0 y x); [|reflexivity..].
    simpl. rewrite Hxy. apply stringLess_irrefl. }
  assert (Hdesc : forall x y, sortKey col x = sortKey col y ->
            Less {| items := [x; y]; sortColumn := col; sortOrder := SortDescending |} 1 0
            = true).
  { intros x y Hxy. rewrite (Less_sortKey _ 1 0 y x); [|reflexivity..].
    simpl. rewrite Hxy, stringLess_irrefl. reflexivity. }
  unfold Sort. cbn [items]. rewrite Hitems, !SliceStable_pair.
  rewrite (Hasc a b Hkey), (Hdesc a b Hkey).
  rewrite SliceStable_pair, (Hdesc b a (eq_sym Hkey)).
  repeat split.
Qed.

End SortProperties.

(* ================================================================== *)
(** * The cancel handlers                                              *)
(* ================================================================== *)

Lemma settled_step (r : Race) (first : bool) : settled r -> settled (stepRace r first).
Proof.
  intros (Hc & Hp & H1 & H2). unfold stepRace. rewrite Hp, Hc.
  destruct first.
  - destruct (caller1 r); try contradiction; repeat split; simpl; congruence.
  - destruct (caller2 r); try contradiction; repeat split; simpl; congruence.
Qed.

Lemma settled_run (schedule : list bool) (r : Race) :
  settled r -> settled (runRace schedule r).
Proof.
  revert r. induction schedule as [|first schedule IH]; intros r Hr; [exact Hr|].
  simpl. apply IH. now apply settled_step.
Qed.

(** C4, as the code has it -- a cancel or navigate-away handler that runs
    to its end before the next one starts never panics and leaves the
    channel closed, however often the handlers run and whatever the other
    caller does once the first has returned. *)
Theorem cancel_in_turn_is_safe :
  (forall c, cancelClicked c = Some Closed)
  /\ (forall n c, 0 < n -> clicks n c = Some Closed)
  /\ (forall c rest,
        panicked (runRace ([true; true] ++ rest) (twoCallers c)) = false
        /\ cancelChan (runRace ([true; true] ++ rest) (twoCallers c)) = Closed)
  /\ (forall c rest,
        panicked (runRace ([false; false] ++ rest) (twoCallers c)) = false
        /\ cancelChan (runRace ([false; false] ++ rest) (twoCallers c)) = Closed).
Proof.
  assert (Hclick : forall c, cancelClicked c = Some Closed) by (intros []; reflexivity).
  split; [exact Hclick|]. split; [|split].
  - intros n c Hn. destruct n as [|n]; [lia|]. clear Hn.
    revert c. induction n as [|n IH]; intros c.
    + simpl. apply Hclick.
    + unfold clicks in *. rewrite Nat.iter_succ. rewrite IH. apply Hclick.
  - intros c rest. unfold runRace. rewrite fold_left_app.
    assert (Hs : settled (fold_left stepRace [true; true] (twoCallers c))).
    { destruct c; repeat split; simpl; congruence. }
    destruct (settled_run rest _ Hs) as (Hc & Hp & _). split; assumption.
  - intros c rest. unfold runRace. rewrite fold_left_app.
    assert (Hs : settled (fold_left stepRace [false; false] (twoCallers c))).
    { destruct c; repeat split; simpl; congruence. }
    destruct (settled_run rest _ Hs) as (Hc & Hp & _). split; assumption.
Qed.

(* ================================================================== *)
(** * The properties on sample data                                    *)
(* ================================================================== *)

#[local] Existing Instance asciiFolding.

Lemma cancellation_wins_witness :
  let net := successfulExchange [sampleJob "Go Dev" "https://jooble.org/1" "Acme"] in
  fst (searchVacanciesJooble "go" "" net (closedFrom 3) start)
  = Vacancies [mappedJob (sampleJob "Go Dev" "https://jooble.org/1" "Acme")]
  /\ outcomeOf (fst (runSearch "go" net [] (closedFrom 3))) = Cancelled
  /\ outcomeOf (fst (runSearch "go" net [] (closedFrom 0))) = Cancelled.
Proof.
  split; [reflexivity|]. split.
  - apply cancellation_wins. vm_compute. left. reflexivity.
  - apply cancellation_wins. vm_compute. left. reflexivity.
Defined.

Lemma results_are_deduplicated_witness :
  let store := [sampleVacancy "go dev" "ACME"] in
  let jobs := [sampleJob "Go Dev" "https://jooble.org/1" "Acme";
               sampleJob "QA" "https://jooble.org/2" "Acme"] in
  outcomeOf (fst (runSearch "go" (successfulExchange jobs) store neverClosed))
  = Results [mappedJob (sampleJob "QA" "https://jooble.org/2" "Acme")].
Proof.
  intros store jobs.
  exact (proj1 (proj2 (results_are_deduplicated "go" (successfulExchange jobs) store
                         neverClosed))
           (map mappedJob jobs) eq_refl eq_refl).
Defined.

Lemma client_maps_usable_jobs_witness :
  let jobs := [sampleJob "Go Dev" "" "Acme"; sampleJob "QA" "https://jooble.org/2" "Acme"] in
  fst (searchVacanciesJooble "go" "" (successfulExchange jobs) neverClosed start)
  = Vacancies [mappedJob (sampleJob "QA" "https://jooble.org/2" "Acme")].
Proof.
  intros jobs.
  exact (proj2 (client_maps_usable_jobs "go" "" (successfulExchange jobs) neverClosed start)
           {| StatusCode := 200; readAll := inr "{}" |} "{}"
           {| Jooble.TotalCount := 2; Jooble.Jobs := jobs; Jooble.Err := None |}
           eq_refl eq_refl eq_refl eq_refl eq_refl eq_refl eq_refl eq_refl).
Defined.

(** C9 -- with the cancel channel never closed and nothing seen at any
    checkpoint, a failure is reported as Cancelled or as Failed according
    to the text of the error alone: an error status whose body mentions
    ["context canceled"], or a transport error that does, ends as
    Cancelled. *)
Lemma error_text_decides_cancelled :
  let run net := runSearch "go" net [] neverClosed in
  outcomeOf (fst (run (serverError 503 "upstream: context canceled"))) = Cancelled
  /\ outcomeOf (fst (run (serverError 503 "upstream: overloaded")))
     = Failed "ошибка API Jooble (HTTP 503): upstream: overloaded"
  /\ outcomeOf (fst (run (transportFailure "context canceled"))) = Cancelled
  /\ outcomeOf (fst (run (transportFailure "connection refused")))
     = Failed "ошибка выполнения HTTP запроса: connection refused"
  /\ ~ In true (seen (snd (run (serverError 503 "upstream: context canceled"))))
  /\ ~ In true (seen (snd (run (transportFailure "context canceled")))).
Proof.
  cbv zeta. repeat split; try reflexivity; vm_compute; intuition discriminate.
Qed.

Lemma cancelled_by_state_or_by_text_witness :
  fst (searchVacanciesJooble "go" "" (transportFailure "connection reset") (closedFrom 0) start)
  = SearchError "поиск отменен пользователем (сигнал из UI)"
  /\ outcomeOf (fst (runSearch "go" (serverError 503 "context canceled") [] neverClosed))
     = Cancelled.
Proof.
  split.
  - apply (proj1 (cancelled_by_state_or_by_text "go" (transportFailure "connection reset")
                    [] (closedFrom 0))
             "go" "" start "connection reset");
      reflexivity.
  - apply (proj2 (cancelled_by_state_or_by_text "go" (serverError 503 "context canceled")
                    [] neverClosed)).
    right. exists "ошибка API Jooble (HTTP 503): context canceled".
    split; reflexivity.
Defined.

(** C4 -- two callers that both pass the [select] before either closes:
    the second [close] finds the channel closed and panics. *)
Lemma interleaved_cancel_panics :
  panicked (runRace [true; false; true; false] (twoCallers Open)) = true.
Proof. reflexivity. Qed.

Lemma cancel_in_turn_is_safe_witness :
  clicks 2 Open = Some Closed
  /\ panicked (runRace [true; true; false; false] (twoCallers Open)) = false.
Proof.
  split.
  - apply (proj1 (proj2 cancel_in_turn_is_safe) 2 Open). lia.
  - apply (proj1 (proj2 (proj2 cancel_in_turn_is_safe)) Open [false; false]).
Defined.

(** In the ASCII tables lower-casing never changes what [EqualFold]
    matches. *)
Lemma asciiFold_lower (s field : string) :
  EqualFold field (ToLower s) = EqualFold field s.
Proof.
  simpl. unfold asciiEqualFold. f_equal.
  induction s as [|c s IH]; simpl; [reflexivity|]. rewrite IH. f_equal.
  unfold lowerByte.
  destruct ((65 <=? nat_of_ascii c)%nat && (nat_of_ascii c <=? 90)%nat) eqn:Hup;
    [|now rewrite Hup].
  apply andb_true_iff in Hup. destruct Hup as [Hlo Hhi].
  apply Nat.leb_le in Hlo, Hhi.
  rewrite nat_ascii_embedding by lia.
  replace ((nat_of_ascii c + 32 <=? 90)%nat) with false
    by (symmetry; apply Nat.leb_gt; lia).
  now rewrite andb_false_r.
Qed.

Lemma enumerated_selectors_filter_exactly_witness :
  let snapshot := [withStatus "NEW" (sampleVacancy "QA" "Acme");
                   withStatus "Newer" (sampleVacancy "Go Dev" "Acme");
                   withStatus "new" (sampleVacancy "Ops" "Acme")] in
  filterVacancies (sampleControls 5 "New" "" "zzz") snapshot
  = [withStatus "NEW" (sampleVacancy "QA" "Acme");
     withStatus "new" (sampleVacancy "Ops" "Acme")].
Proof.
  intros snapshot.
  rewrite (proj1 (enumerated_selectors_filter_exactly (sampleControls 5 "New" "" "zzz")
                    snapshot) eq_refl);
    [reflexivity | intros field; reflexivity].
Defined.

Lemma descending_sort_swaps_equal_keys_witness :
  let a := sampleVacancy "Go Dev" "Acme" in
  let b := sampleVacancy "GO DEV" "Initech" in
  let m := {| items := [a; b]; sortColumn := 0; sortOrder := SortAscending |} in
  items (Sort m 0 SortDescending) = [b; a]
  /\ items (Sort (Sort m 0 SortDescending) 0 SortDescending) = [a; b].
Proof.
  intros a b m.
  destruct (descending_sort_swaps_equal_keys m a b 0) as [_ Hswap];
    [reflexivity | reflexivity | exact Hswap].
Defined.

Lemma stored_keywords_clean_witness :
  let dlg := sampleForm "Go Dev" "Acme" " go ,, backend , " in
  let store := [sampleVacancy "QA" "Acme"] in
  Keywords (savedVacancyOf dlg) = ["go"; "backend"]
  /\ Forall cleanKeyword (Keywords (savedVacancyOf dlg))
  /\ (exists v, saveVacancyDetails (samplePanel "qa,  testing ") (sampleVacancy "QA" "Acme")
                  store !! 0 = Some v
                /\ Keywords v = ["qa"; "testing"] /\ Forall cleanKeyword (Keywords v))
  /\ parseKeywords " , ,, " = [].
Proof.
  intros dlg store. split; [reflexivity|]. split; [|split].
  - apply (proj1 stored_keywords_clean dlg false [] [savedVacancyOf dlg]). reflexivity.
  - exact (proj1 (proj2 stored_keywords_clean) (samplePanel "qa,  testing ")
             (sampleVacancy "QA" "Acme") store "qa,  testing " 0 eq_refl eq_refl).
  - apply (proj2 (proj2 stored_keywords_clean)). reflexivity.
Defined.

(** On a table longer than one block: the ascending sort groups the titles
    and keeps the table's order inside each group, and sorting again
    changes nothing; the descending sort does not keep that order, and
    sorting again gives yet another order. *)
Lemma Sort_sample_table :
  let m := {| items := sampleTable; sortColumn := 0; sortOrder := SortAscending |} in
  items (Sort m 0 SortAscending)
  = titled "a" sampleTable ++ titled "b" sampleTable ++ titled "c" sampleTable
  /\ Sort (Sort m 0 SortAscending) 0 SortAscending = Sort m 0 SortAscending
  /\ companies (Sort m 0 SortDescending)
     <> companies {| items := titled "c" sampleTable ++ titled "b" sampleTable
                              ++ titled "a" sampleTable;
                     sortColumn := 0; sortOrder := SortDescending |}
  /\ companies (Sort (Sort m 0 SortDescending) 0 SortDescending)
     <> companies (Sort m 0 SortDescending).
Proof.
  cbv zeta. repeat split; try (vm_compute; reflexivity);
    intros Heq; vm_compute in Heq; discriminate Heq.
Qed.

(* ================================================================== *)
(** * Sorting rearranges, it never loses a record                      *)
(* ================================================================== *)

Section SliceStablePermutation.

Context {A : Type}.
Variable less : list A -> nat -> nat -> bool.

Lemma Swap_Permutation (data : list A) (i j : nat) : Swap data i j ≡ₚ data.
Proof.
  unfold Swap.
  destruct (data !! i) as [x|] eqn:Hi; [|reflexivity].
  destruct (data !! j) as [y|] eqn:Hj; [|reflexivity].
  now apply Permutation_insert_swap.
Qed.

Lemma fold_left_Permutation {B : Type} (f : list A -> B -> list A) (steps : list B)
    (data : list A) :
  (forall d b, f d b ≡ₚ d) -> fold_left f steps data ≡ₚ data.
Proof.
  intros Hf. revert data. induction steps as [|b steps IH]; intros data; simpl.
  - reflexivity.
  - rewrite IH. apply Hf.
Qed.

Lemma insertLoop_Permutation (a : nat) (data : list A) (j : nat) :
  insertLoop less a data j ≡ₚ data.
Proof.
  revert data. induction j as [|j IH]; intros data; simpl; [reflexivity|].
  destruct ((a <? S j)%nat && less data (S j) j); [|reflexivity].
  rewrite IH. apply Swap_Permutation.
Qed.

Lemma insertionSort_Permutation (data : list A) (a b : nat) :
  insertionSort_func less data a b ≡ₚ data.
Proof.
  unfold insertionSort_func. apply fold_left_Permutation.
  intros d i. apply insertLoop_Permutation.
Qed.

Lemma swapRange_Permutation (data : list A) (a b n : nat) :
  swapRange_func data a b n ≡ₚ data.
Proof.
  unfold swapRange_func. apply fold_left_Permutation.
  intros d i. apply Swap_Permutation.
Qed.

Lemma rotateLoop_Permutation (fuel : nat) (data : list A) (m i j : nat) :
  fst (rotateLoop fuel data m i j) ≡ₚ data.
Proof.
  revert data i j. induction fuel as [|fuel IH]; intros data i j; simpl; [reflexivity|].
  destruct (i =? j)%nat; [reflexivity|].
  destruct (j <? i)%nat; rewrite IH; apply swapRange_Permutation.
Qed.

Lemma rotate_Permutation (data : list A) (a m b : nat) :
  rotate_func data a m b ≡ₚ data.
Proof.
  unfold rotate_func.
  pose proof (rotateLoop_Permutation (b - a) data m (m - a) (b - m)) as Hloop.
  destruct (rotateLoop (b - a) data m (m - a) (b - m)) as [data' i]. simpl in Hloop.
  rewrite swapRange_Permutation. exact Hloop.
Qed.

Lemma symMerge_Permutation (fuel : nat) (data : list A) (a m b : nat) :
  symMerge_func less fuel data a m b ≡ₚ data.
Proof.
  revert data a m b. induction fuel as [|fuel IH]; intros data a m b; [reflexivity|].
  cbn [symMerge_func].
  destruct (m - a =? 1)%nat.
  { apply fold_left_Permutation. intros d k. apply Swap_Permutation. }
  destruct (b - m =? 1)%nat.
  { apply fold_left_Permutation. intros d k. apply Swap_Permutation. }
  destruct (if ((a + b) / 2 <? m)%nat
            then ((((a + b) / 2 + m - b)%nat), ((a + b) / 2)%nat)
            else (a, m)) as [start0 r].
  cbv zeta.
  set (start := search _ _ start0 r).
  set (end_ := ((a + b) / 2 + m - start)%nat).
  set (data1 := if (start <? m)%nat && (m <? end_)%nat
                then rotate_func data start m end_ else data).
  assert (H1 : data1 ≡ₚ data).
  { unfold data1. destruct ((start <? m)%nat && (m <? end_)%nat);
      [apply rotate_Permutation | reflexivity]. }
  set (data2 := if (a <? start)%nat && (start <? (a + b) / 2)%nat
                then symMerge_func less fuel data1 a start ((a + b) / 2) else data1).
  assert (H2 : data2 ≡ₚ data).
  { unfold data2. destruct ((a <? start)%nat && (start <? (a + b) / 2)%nat);
      [rewrite IH|]; exact H1. }
  destruct ((((a + b) / 2) <? end_)%nat && (end_ <? b)%nat); [rewrite IH|]; exact H2.
Qed.

Lemma sortBlocks_Permutation (fuel : nat) (data : list A) (blockSize n a b : nat) :
  sortBlocks less fuel data blockSize n a b ≡ₚ data.
Proof.
  revert data a b. induction fuel as [|fuel IH]; intros data a b; simpl; [reflexivity|].
  destruct (b <=? n)%nat; [rewrite IH|]; apply insertionSort_Permutation.
Qed.

Lemma mergePass_Permutation (fuel : nat) (data : list A) (blockSize n a b : nat) :
  mergePass less fuel data blockSize n a b ≡ₚ data.
Proof.
  revert data a b. induction fuel as [|fuel IH]; intros data a b; simpl; [reflexivity|].
  destruct (b <=? n)%nat; [rewrite IH; apply symMerge_Permutation|].
  destruct (a + blockSize <? n)%nat; [apply symMerge_Permutation | reflexivity].
Qed.

Lemma mergeRuns_Permutation (fuel : nat) (data : list A) (blockSize n : nat) :
  mergeRuns less fuel data blockSize n ≡ₚ data.
Proof.
  revert data blockSize. induction fuel as [|fuel IH]; intros data blockSize; simpl;
    [reflexivity|].
  destruct (blockSize <? n)%nat; [|reflexivity].
  rewrite IH. apply mergePass_Permutation.
Qed.

(** Whatever [less] answers, [sort.SliceStable] only exchanges elements. *)
Lemma SliceStable_Permutation (x : list A) : SliceStable less x ≡ₚ x.
Proof.
  unfold SliceStable, stable_func.
  rewrite mergeRuns_Permutation. apply sortBlocks_Permutation.
Qed.

End SliceStablePermutation.

Section ViewProperties.

Context `{CaseFolding}.

(** X1 -- [Sort] rearranges the rows of the model: for every column and either
    order, also the descending one whose comparator is not a strict order,
    the sorted rows are a permutation of the rows before, and the model
    remembers the column and the order. *)
Theorem Sort_rearranges (m : VacancyModel) (col : Z) (order : SortOrder) :
  items (Sort m col order) ≡ₚ items m
  /\ length (items (Sort m col order)) = length (items m)
  /\ sortColumn (Sort m col order) = col
  /\ sortOrder (Sort m col order) = order.
Proof.
  assert (Hperm : items (Sort m col order) ≡ₚ items m)
    by (unfold Sort; cbn [items]; apply SliceStable_Permutation).
  split; [exact Hperm|]. split; [now apply Permutation_length|]. split; reflexivity.
Qed.

Lemma List_filter_sublist {A : Type} (keep : A -> bool) (l : list A) :
  List.filter keep l `sublist_of` l.
Proof.
  induction l as [|x l IH]; simpl; [constructor|].
  destruct (keep x); [now apply sublist_skip | now apply sublist_cons].
Qed.

Lemma List_filter_all {A : Type} (keep : A -> bool) (l : list A) :
  (forall x, keep x = true) -> List.filter keep l = l.
Proof.
  intros Hall. induction l as [|x l IH]; simpl; [reflexivity|].
  now rewrite Hall, IH.
Qed.

Lemma List_filter_weaken {A : Type} (p q : A -> bool) (l : list A) :
  (forall x, p x = true -> q x = true) ->
  List.filter p l `sublist_of` List.filter q l.
Proof.
  intros Hpq. induction l as [|x l IH]; simpl; [constructor|].
  destruct (p x) eqn:Hp.
  - rewrite (Hpq x Hp). now apply sublist_skip.
  - destruct (q x); [now apply sublist_cons | exact IH].
Qed.

Lemma Contains_empty (s : string) : Contains s "" = true.
Proof. destruct s; reflexivity. Qed.

(** X4 -- The filter only leaves records out: whatever the selector and the
    query, what it returns is the snapshot with some records removed, the
    others in their order and as often as they occur. *)
Theorem filter_returns_sublist (ui : SearchControls) (snapshot : list Vacancy) :
  filterVacancies ui snapshot `sublist_of` snapshot.
Proof.
  unfold filterVacancies.
  destruct (String.eqb _ "" && _ && _); [reflexivity|].
  rewrite filter_loop. apply List_filter_sublist.
Qed.

(** X5 -- [performSearch] shows exactly the records the filter keeps, each as
    often as the filter keeps it, and leaves the sort column and order of
    the table as they were. *)
Theorem performSearch_shows_filtered (ui : SearchControls) (allVacancies : list Vacancy)
    (m : VacancyModel) :
  items (performSearch ui allVacancies m) ≡ₚ filterVacancies ui allVacancies
  /\ (forall v, v ∈ items (performSearch ui allVacancies m)
                <-> v ∈ filterVacancies ui allVacancies)
  /\ sortColumn (performSearch ui allVacancies m) = sortColumn m
  /\ sortOrder (performSearch ui allVacancies m) = sortOrder m.
Proof.
  assert (Hperm : items (performSearch ui allVacancies m)
                  ≡ₚ filterVacancies ui allVacancies).
  { unfold performSearch, Sort. cbn [items]. apply SliceStable_Permutation. }
  split; [exact Hperm|]. split; [|split; reflexivity].
  intros v. now rewrite Hperm.
Qed.

Lemma filterVacancies_selector (ui : SearchControls) (snapshot : list Vacancy)
    (label : string) :
  searchInFieldOf (searchFieldCB_CurrentIndex ui) = label ->
  String.eqb label "По статусу" = false ->
  String.eqb label "По опыту" = false ->
  filterVacancies ui snapshot
  = if String.eqb (ToLower (searchEdit_Text ui)) "" then snapshot
    else List.filter (found label (ToLower (searchEdit_Text ui))) snapshot.
Proof.
  intros Hlabel Hstatus Hexp. unfold filterVacancies, searchTermOf.
  rewrite Hlabel, Hstatus, Hexp. cbn [negb andb]. rewrite andb_true_r.
  destruct (String.eqb (ToLower (searchEdit_Text ui)) ""); [reflexivity|].
  now rewrite filter_loop.
Qed.

Lemma filterVacancies_free_text (ui : SearchControls) (snapshot : list Vacancy) :
  let text := searchEdit_Text ui in
  (searchFieldCB_CurrentIndex ui = 1%Z ->
   filterVacancies ui snapshot
   = List.filter (fun v => fieldContains text (Title v)) snapshot)
  /\ (searchFieldCB_CurrentIndex ui = 2%Z ->
      filterVacancies ui snapshot
      = List.filter (fun v => fieldContains text (Company v)) snapshot)
  /\ (searchFieldCB_CurrentIndex ui = 3%Z ->
      filterVacancies ui snapshot
      = List.filter (fun v => fieldContains text (Description v)) snapshot)
  /\ (searchFieldCB_CurrentIndex ui = 4%Z ->
      filterVacancies ui snapshot
      = if String.eqb (ToLower text) "" then snapshot
        else List.filter (fun v => existsb (fieldContains text) (Keywords v)) snapshot)
  /\ (searchFieldCB_CurrentIndex ui = 0%Z ->
      filterVacancies ui snapshot
      = if String.eqb (ToLower text) "" then snapshot
        else List.filter
               (fun v => fieldContains text (Title v) || fieldContains text (Company v)
                         || fieldContains text (Description v)
                         || fieldContains text (Status v)
                         || fieldContains text (ExperienceLevel v)
                         || existsb (fieldContains text) (Keywords v))
               snapshot).
Proof.
  cbv zeta.
  assert (Hone : forall (label : string) (field : Vacancy -> string),
            String.eqb label "По статусу" = false ->
            String.eqb label "По опыту" = false ->
            searchInFieldOf (searchFieldCB_CurrentIndex ui) = label ->
            (forall term v, found label term v = Contains (ToLower (field v)) term) ->
            filterVacancies ui snapshot
            = List.filter (fun v => fieldContains (searchEdit_Text ui) (field v)) snapshot).
  { intros label field Hs He Hlabel Hfound.
    rewrite (filterVacancies_selector ui snapshot label Hlabel Hs He).
    unfold fieldContains.
    destruct (String.eqb (ToLower (searchEdit_Text ui)) "") eqn:Hterm.
    - apply String.eqb_eq in Hterm. rewrite Hterm.
      symmetry. apply List_filter_all. intros v. apply Contains_empty.
    - apply filter_ext. intros v. apply Hfound. }
  split; [|split; [|split; [|split]]]; intros Hidx.
  - apply (Hone "По названию" Title); try reflexivity; now rewrite Hidx.
  - apply (Hone "По компании" Company); try reflexivity; now rewrite Hidx.
  - apply (Hone "По описанию" Description); try reflexivity; now rewrite Hidx.
  - assert (Hlabel : searchInFieldOf (searchFieldCB_CurrentIndex ui) = "По ключевым словам")
      by now rewrite Hidx.
    rewrite (filterVacancies_selector ui snapshot _ Hlabel eq_refl eq_refl).
    destruct (String.eqb (ToLower (searchEdit_Text ui)) ""); reflexivity.
  - assert (Hlabel : searchInFieldOf (searchFieldCB_CurrentIndex ui) = "Везде")
      by now rewrite Hidx.
    rewrite (filterVacancies_selector ui snapshot _ Hlabel eq_refl eq_refl).
    destruct (String.eqb (ToLower (searchEdit_Text ui)) ""); [reflexivity|].
    apply filter_ext. intros v. unfold found, fieldContains, anyKeyword. simpl.
    destruct (Contains (ToLower (Title v)) (ToLower (searchEdit_Text ui))
              || Contains (ToLower (Company v)) (ToLower (searchEdit_Text ui))
              || Contains (ToLower (Description v)) (ToLower (searchEdit_Text ui))
              || Contains (ToLower (Status v)) (ToLower (searchEdit_Text ui))
              || Contains (ToLower (ExperienceLevel v)) (ToLower (searchEdit_Text ui)));
      reflexivity.
Qed.

(** X6 -- The free-text selectors test for a substring after lower-casing both
    sides: title, company and description each look at their one field,
    the keyword selector at every keyword, "everywhere" at all of these
    and at status and experience level.  A query that lower-cases to the
    empty string keeps every record, under the keyword selector also the
    records without keywords. *)
Theorem free_text_selectors (ui : SearchControls) (snapshot : list Vacancy) :
  let text := searchEdit_Text ui in
  (searchFieldCB_CurrentIndex ui = 1%Z ->
   filterVacancies ui snapshot
   = List.filter (fun v => fieldContains text (Title v)) snapshot)
  /\ (searchFieldCB_CurrentIndex ui = 2%Z ->
      filterVacancies ui snapshot
      = List.filter (fun v => fieldContains text (Company v)) snapshot)
  /\ (searchFieldCB_CurrentIndex ui = 3%Z ->
      filterVacancies ui snapshot
      = List.filter (fun v => fieldContains text (Description v)) snapshot)
  /\ (searchFieldCB_CurrentIndex ui = 4%Z ->
      filterVacancies ui snapshot
      = if String.eqb (ToLower text) "" then snapshot
        else List.filter (fun v => existsb (fieldContains text) (Keywords v)) snapshot)
  /\ (searchFieldCB_CurrentIndex ui = 0%Z ->
      filterVacancies ui snapshot
      = if String.eqb (ToLower text) "" then snapshot
        else List.filter
               (fun v => fieldContains text (Title v) || fieldContains text (Company v)
                         || fieldContains text (Description v)
                         || fieldContains text (Status v)
                         || fieldContains text (ExperienceLevel v)
                         || existsb (fieldContains text) (Keywords v))
               snapshot).
Proof. apply filterVacancies_free_text. Qed.

(** X7 -- Searching everywhere finds whatever a search in one text field or in
    the keywords finds for the same query text. *)
Theorem everywhere_finds_more (ui everywhere : SearchControls) (snapshot : list Vacancy) :
  (1 <= searchFieldCB_CurrentIndex ui <= 4)%Z ->
  searchFieldCB_CurrentIndex everywhere = 0%Z ->
  searchEdit_Text everywhere = searchEdit_Text ui ->
  filterVacancies ui snapshot `sublist_of` filterVacancies everywhere snapshot.
Proof.
  intros Hidx Hzero Htext.
  destruct (filterVacancies_free_text ui snapshot) as (H1 & H2 & H3 & H4 & _).
  destruct (filterVacancies_free_text everywhere snapshot) as (_ & _ & _ & _ & H0).
  cbv zeta in *. rewrite (H0 Hzero), Htext.
  assert (Hcase : (searchFieldCB_CurrentIndex ui = 1 \/ searchFieldCB_CurrentIndex ui = 2
                   \/ searchFieldCB_CurrentIndex ui = 3
                   \/ searchFieldCB_CurrentIndex ui = 4)%Z) by lia.
  destruct Hcase as [Hi|[Hi|[Hi|Hi]]];
    [rewrite (H1 Hi) | rewrite (H2 Hi) | rewrite (H3 Hi) | rewrite (H4 Hi)];
    destruct (String.eqb (ToLower (searchEdit_Text ui)) "");
    try apply List_filter_sublist; try reflexivity;
    apply List_filter_weaken; intros v Hv; rewrite Hv; cbn;
    rewrite ?orb_true_r; reflexivity.
Qed.

End ViewProperties.

(* ================================================================== *)
(** * Operations on the store                                          *)
(* ================================================================== *)

Section StoreOperations.

Context `{CaseFolding}.

Lemma findFrom_first (vs : list Vacancy) (title company : string) (i k : nat) :
  findFrom i vs title company = Some k ->
  forall j w, j < k - i -> vs !! j = Some w -> keyMatches title company w = false.
Proof.
  revert i. induction vs as [|v vs IH]; intros i; cbn [findFrom]; [discriminate|].
  destruct (EqualFold (Title v) title && EqualFold (Company v) company) eqn:Hm.
  - intros Hk. injection Hk as Hk. subst k. intros j w Hj. lia.
  - intros Hk j w Hj Hw. destruct j as [|j].
    + simpl in Hw. injection Hw as <-. exact Hm.
    + apply (IH (S i) Hk j w); [lia | exact Hw].
Qed.

(** X8 -- [findVacancyIndexInAllExt] returns the position of the first record
    whose title and company both match without regard to case, and [-1]
    (here [None]) exactly when no record of the store matches. *)
Theorem findVacancyIndex_first_match (allVacancies : list Vacancy) (title company : string) :
  match findVacancyIndexInAllExt allVacancies title company with
  | Some k =>
      (exists v, allVacancies !! k = Some v /\ keyMatches title company v = true)
      /\ (forall j w, j < k -> allVacancies !! j = Some w ->
                      keyMatches title company w = false)
  | None => forall w, w ∈ allVacancies -> keyMatches title company w = false
  end.
Proof.
  unfold findVacancyIndexInAllExt.
  destruct (findFrom 0 allVacancies title company) as [k|] eqn:Hfind.
  - split.
    + apply findFrom_Some in Hfind. destruct Hfind as [_ [v [Hv [Ht Hc]]]].
      rewrite Nat.sub_0_r in Hv. exists v. split; [exact Hv|].
      unfold keyMatches. now rewrite Ht, Hc.
    + intros j w Hj Hw. apply (findFrom_first _ _ _ _ _ Hfind j w); [lia | exact Hw].
  - intros w Hw. apply findFrom_None in Hfind.
    rewrite Forall_forall in Hfind. now apply Hfind.
Qed.

(** X9 -- A dialog that is not accepted leaves the store as it was; a title
    that is empty once trimmed is refused, and a new record is refused as
    already present only when some record of the store has its key. *)
Theorem rejected_dialog_keeps_store (dlg : AddVacancyDialog) (isOnlineSearch : bool)
    (allVacancies stored : list Vacancy) (result : DialogResult) :
  acceptVacancyDialog dlg isOnlineSearch allVacancies = (stored, result) ->
  (result <> Accepted -> stored = allVacancies)
  /\ (TrimSpace (titleLE dlg) = "" -> result = RejectedEmptyTitle)
  /\ (result = RejectedAlreadyPresent ->
      exists v, v ∈ allVacancies /\ sameKey v (savedVacancyOf dlg) = true).
Proof.
  unfold acceptVacancyDialog. cbn [savedVacancyOf Title Company].
  destruct (String.eqb (TrimSpace (titleLE dlg)) "") eqn:Htitle.
  { intros Hacc. injection Hacc as <- <-.
    split; [reflexivity|]. split; [reflexivity | discriminate]. }
  apply String.eqb_neq in Htitle.
  destruct (isEdit dlg && negb isOnlineSearch).
  - destruct (findVacancyIndexInAllExt allVacancies (originalTitle dlg) (originalCompany dlg));
      intros Hacc; injection Hacc as <- <-;
      (split; [intros Hres; try reflexivity; congruence|]);
      (split; [intros Hempty; congruence | discriminate]).
  - destruct (findVacancyIndexInAllExt allVacancies (TrimSpace (titleLE dlg))
                (TrimSpace (companyLE dlg))) as [k|] eqn:Hfind;
      intros Hacc; injection Hacc as <- <-;
      (split; [intros Hres; try reflexivity; congruence|]);
      (split; [intros Hempty; congruence|]); [|discriminate].
    intros _. apply findFrom_Some in Hfind. destruct Hfind as [_ [v [Hv [Ht Hc]]]].
    exists v. split; [apply list_elem_of_lookup; eauto|].
    unfold sameKey. cbn [savedVacancyOf Title Company]. now rewrite Ht, Hc.
Qed.

(** X10 -- An accepted add, from the local list or from the online results, puts
    the new record last and leaves the others where they were; its title
    is not empty, its text fields carry no white space at either end, and
    no record of the store had its key. *)
Theorem accepted_add_appends (dlg : AddVacancyDialog) (isOnlineSearch : bool)
    (allVacancies stored : list Vacancy) :
  isEdit dlg && negb isOnlineSearch = false ->
  acceptVacancyDialog dlg isOnlineSearch allVacancies = (stored, Accepted) ->
  stored = allVacancies ++ [savedVacancyOf dlg]
  /\ Title (savedVacancyOf dlg) <> ""
  /\ trimmed (Title (savedVacancyOf dlg)) /\ trimmed (Company (savedVacancyOf dlg))
  /\ trimmed (Description (savedVacancyOf dlg)) /\ trimmed (SourceURL (savedVacancyOf dlg))
  /\ trimmed (Notes (savedVacancyOf dlg))
  /\ (forall v, v ∈ allVacancies -> sameKey v (savedVacancyOf dlg) = false).
Proof.
  intros Hadd. unfold acceptVacancyDialog. rewrite Hadd.
  destruct (String.eqb (Title (savedVacancyOf dlg)) "") eqn:Htitle; [discriminate|].
  apply String.eqb_neq in Htitle.
  destruct (findVacancyIndexInAllExt allVacancies (Title (savedVacancyOf dlg))
              (Company (savedVacancyOf dlg))) eqn:Hfind; [discriminate|].
  intros Hacc. injection Hacc as <-.
  split; [reflexivity|]. split; [exact Htitle|].
  assert (Htrim : forall s, trimmed (TrimSpace s))
    by (intros s; split; [apply TrimSpace_no_leading | apply TrimSpace_no_trailing]).
  repeat (split; [apply Htrim|]).
  apply findFrom_None in Hfind. rewrite Forall_forall in Hfind. exact Hfind.
Qed.

(** X11 -- An accepted edit overwrites one record, the first that matches the
    title and company the dialog was opened on, with the contents of the
    form; the store keeps its length and every other record, and the
    overwritten record loses its attached resume, which the form does not
    carry. *)
Theorem accepted_edit_overwrites (dlg : AddVacancyDialog)
    (allVacancies stored : list Vacancy) :
  isEdit dlg = true ->
  acceptVacancyDialog dlg false allVacancies = (stored, Accepted) ->
  exists k,
    findVacancyIndexInAllExt allVacancies (originalTitle dlg) (originalCompany dlg) = Some k
    /\ stored = <[k := savedVacancyOf dlg]> allVacancies
    /\ length stored = length allVacancies
    /\ (forall j, j <> k -> stored !! j = allVacancies !! j)
    /\ (exists v, stored !! k = Some v
                  /\ ResumePath v = "" /\ ResumeFileName v = ""
                  /\ Title v = TrimSpace (titleLE dlg)
                  /\ Company v = TrimSpace (companyLE dlg)).
Proof.
  intros Hedit. unfold acceptVacancyDialog. rewrite Hedit. cbn [negb andb].
  destruct (String.eqb (Title (savedVacancyOf dlg)) ""); [discriminate|].
  destruct (findVacancyIndexInAllExt allVacancies (originalTitle dlg) (originalCompany dlg))
    as [k|] eqn:Hfind; [|discriminate].
  intros Hacc. injection Hacc as <-.
  exists k. split; [reflexivity|]. split; [reflexivity|].
  split; [apply length_insert|].
  split; [intros j Hj; now apply list_lookup_insert_ne|].
  apply findFrom_Some in Hfind. destruct Hfind as [_ [old [Hold _]]].
  rewrite Nat.sub_0_r in Hold. apply lookup_lt_Some in Hold.
  exists (savedVacancyOf dlg). split; [now apply list_lookup_insert_eq|].
  repeat split.
Qed.

(** X12 -- Deleting cuts out one record, the first whose key matches the
    selected row, and keeps the others in their order; when no record
    matches, the store stays as it is. *)
Theorem delete_removes_first_match (selected : Vacancy) (allVacancies : list Vacancy) :
  match findVacancyIndexInAllExt allVacancies (Title selected) (Company selected) with
  | Some k =>
      confirmDeleteVacancy selected allVacancies = delete k allVacancies
      /\ S (length (confirmDeleteVacancy selected allVacancies)) = length allVacancies
      /\ exists v, allVacancies !! k = Some v
                   /\ keyMatches (Title selected) (Company selected) v = true
  | None => confirmDeleteVacancy selected allVacancies = allVacancies
  end
  /\ confirmDeleteVacancy selected allVacancies `sublist_of` allVacancies.
Proof.
  unfold confirmDeleteVacancy.
  destruct (findVacancyIndexInAllExt allVacancies (Title selected) (Company selected))
    as [k|] eqn:Hfind; [|split; reflexivity].
  replace (k + 1) with (S k) by lia. rewrite <- delete_take_drop.
  apply findFrom_Some in Hfind. destruct Hfind as [_ [v [Hv [Ht Hc]]]].
  rewrite Nat.sub_0_r in Hv.
  split; [|apply sublist_delete].
  split; [reflexivity|]. split.
  - rewrite length_delete by eauto.
    apply lookup_lt_Some in Hv. lia.
  - exists v. split; [exact Hv|]. unfold keyMatches. now rewrite Ht, Hc.
Qed.

(** X14 -- [equalStringSlices] answers whether the two slices hold the same
    strings in the same order. *)
Theorem equalStringSlices_reflects (a b : list string) :
  equalStringSlices a b = true <-> a = b.
Proof. apply equalStringSlices_eq. Qed.

End StoreOperations.

(* ================================================================== *)
(** * Keywords shown and read back                                     *)
(* ================================================================== *)

Lemma trimFront_id (flip : bool) (s : string) :
  startsWithSpace flip s = false -> trimFront flip s = s.
Proof.
  destruct s as [|b1 [|b2 [|b3 s]]]; simpl; intros Hs; try reflexivity.
  - now rewrite Hs.
  - apply orb_false_iff in Hs. destruct Hs as [H1 H2]. now rewrite H1, H2.
  - apply orb_false_iff in Hs. destruct Hs as [Hs H3].
    apply orb_false_iff in Hs. destruct Hs as [H1 H2]. now rewrite H1, H2, H3.
Qed.

Lemma TrimSpace_id (s : string) :
  hasLeadingSpace s = false -> hasTrailingSpace s = false -> TrimSpace s = s.
Proof.
  unfold hasLeadingSpace, hasTrailingSpace, TrimSpace. intros Hl Ht.
  rewrite (trimFront_id false s Hl), (trimFront_id true _ Ht).
  apply reverseBytes_involutive.
Qed.

Lemma TrimSpace_after_space (kw : string) :
  hasLeadingSpace kw = false -> hasTrailingSpace kw = false ->
  TrimSpace (String " " kw) = kw.
Proof.
  intros Hl Ht. unfold TrimSpace.
  change (trimFront false (String " " kw)) with (trimFront false kw).
  now apply TrimSpace_id.
Qed.

(** A multi-byte white-space rune has no ASCII byte after its first, in
    either reading direction, so a string that does not start with white
    space does not start with it either when ASCII text follows. *)
Lemma space2_ascii_r (b c : ascii) : nat_of_ascii c < 128 -> space2 b c = false.
Proof.
  intros Hc. unfold space2.
  destruct (Nat.eqb_spec (nat_of_ascii c) 133); [lia|].
  destruct (Nat.eqb_spec (nat_of_ascii c) 160); [lia|].
  now rewrite andb_false_r.
Qed.

Lemma space2_ascii_l (b c : ascii) : nat_of_ascii c < 128 -> space2 c b = false.
Proof.
  intros Hc. unfold space2.
  destruct (Nat.eqb_spec (nat_of_ascii c) 194); [lia | reflexivity].
Qed.

Lemma space3_ascii_2 (b1 c b3 : ascii) : nat_of_ascii c < 128 -> space3 b1 c b3 = false.
Proof.
  intros Hc. unfold space3. cbv zeta.
  destruct (Nat.eqb_spec (nat_of_ascii c) 154); [lia|].
  destruct (Nat.eqb_spec (nat_of_ascii c) 128); [lia|].
  destruct (Nat.eqb_spec (nat_of_ascii c) 129); [lia|].
  now rewrite !andb_false_r, !andb_false_l.
Qed.

Lemma space3_ascii_3 (b1 b2 c : ascii) : nat_of_ascii c < 128 -> space3 b1 b2 c = false.
Proof.
  intros Hc. unfold space3. cbv zeta.
  destruct (Nat.eqb_spec (nat_of_ascii c) 128); [lia|].
  destruct (Nat.eqb_spec (nat_of_ascii c) 159); [lia|].
  destruct (Nat.eqb_spec (nat_of_ascii c) 168); [lia|].
  destruct (Nat.eqb_spec (nat_of_ascii c) 169); [lia|].
  destruct (Nat.eqb_spec (nat_of_ascii c) 175); [lia|].
  destruct (Nat.leb_spec 128 (nat_of_ascii c)); [lia|].
  now rewrite !andb_false_r.
Qed.

Lemma space3_ascii_1 (c b2 b3 : ascii) : nat_of_ascii c < 128 -> space3 c b2 b3 = false.
Proof.
  intros Hc. unfold space3. cbv zeta.
  destruct (Nat.eqb_spec (nat_of_ascii c) 225); [lia|].
  destruct (Nat.eqb_spec (nat_of_ascii c) 226); [lia|].
  destruct (Nat.eqb_spec (nat_of_ascii c) 227); [lia|].
  reflexivity.
Qed.

Lemma startsWithSpace_before_ascii (flip : bool) (s : string) (c d : ascii) (rest : string) :
  s <> "" -> nat_of_ascii c < 128 -> nat_of_ascii d < 128 ->
  startsWithSpace flip s = false ->
  startsWithSpace flip (s +:+ String c (String d rest)) = false.
Proof.
  intros Hne Hc Hd Hs.
  destruct s as [|b1 [|b2 [|b3 s]]]; [contradiction| | |];
    rewrite ?append_String, ?append_empty_l; simpl in *.
  - rewrite Hs. destruct flip; simpl.
    + now rewrite (space2_ascii_l b1 c Hc), (space3_ascii_1 d c b1 Hd).
    + now rewrite (space2_ascii_r b1 c Hc), (space3_ascii_2 b1 c d Hc).
  - rewrite Hs. destruct flip; simpl.
    + now rewrite (space3_ascii_1 c b2 b1 Hc).
    + now rewrite (space3_ascii_3 b1 b2 c Hc).
  - exact Hs.
Qed.

Lemma Split_commaFree (s : string) : commaFree s = true -> Split s "," = [s].
Proof.
  induction s as [|c s IH]; simpl; [reflexivity|].
  intros Hs. apply andb_true_iff in Hs. destruct Hs as [Hc Hs].
  apply negb_true_iff in Hc. rewrite Hc, (IH Hs). reflexivity.
Qed.

Lemma Split_before_comma (s rest : string) :
  commaFree s = true -> Split (s +:+ String "," rest) "," = s :: Split rest ",".
Proof.
  induction s as [|c s IH]; intros Hs.
  - reflexivity.
  - simpl in Hs. apply andb_true_iff in Hs. destruct Hs as [Hc Hs].
    apply negb_true_iff in Hc.
    rewrite append_String. cbn [Split]. rewrite Hc, (IH Hs). reflexivity.
Qed.

(** The pieces of the joined text: the first keyword, and every other
    keyword behind a space. *)
Lemma Split_Join (kw : string) (kws : list string) :
  Forall (fun k => commaFree k = true) (kw :: kws) ->
  Split (Join (kw :: kws) ", ") "," = kw :: map (String " ") kws.
Proof.
  revert kw. induction kws as [|kw2 kws IH]; intros kw Hfree.
  - simpl. apply Split_commaFree. now inversion Hfree.
  - inversion Hfree as [|? ? Hkw Hrest]; subst.
    change (Join (kw :: kw2 :: kws) ", ")
      with (kw +:+ String "," (String " " (Join (kw2 :: kws) ", "))).
    rewrite (Split_before_comma _ _ Hkw).
    cbn [Split]. change (Ascii.eqb " " ",") with false. cbv iota.
    rewrite (IH kw2 Hrest). reflexivity.
Qed.

Lemma Join_starts (kw : string) (kws : list string) :
  exists rest, Join (kw :: kws) ", " = kw +:+ rest
               /\ (rest = "" \/ exists r, rest = String "," (String " " r)).
Proof.
  destruct kws as [|kw2 kws].
  - exists "". split; [|now left]. simpl. clear. induction kw; simpl; [reflexivity|].
    rewrite append_String. now f_equal.
  - exists (String "," (String " " (Join (kw2 :: kws) ", "))). split; [reflexivity|].
    right. now eexists.
Qed.

Lemma append_empty_r (s : string) : s +:+ "" = s.
Proof. induction s as [|c s IH]; [reflexivity|]. rewrite append_String. now f_equal. Qed.

Lemma append_assoc (a b c : string) : (a +:+ b) +:+ c = a +:+ (b +:+ c).
Proof.
  induction a as [|x a IH]; [reflexivity|]. rewrite !append_String. now f_equal.
Qed.

Lemma reverseBytes_String (c : ascii) (s : string) :
  reverseBytes (String c s) = reverseBytes s +:+ String c "".
Proof.
  change (String c s) with (String c "" +:+ s). now rewrite reverseBytes_app.
Qed.

(** The joined text read backwards starts with the last keyword read
    backwards, followed by nothing or by a space and a comma. *)
Lemma Join_ends (kw : string) (kws : list string) :
  exists last rest,
    last ∈ kw :: kws
    /\ reverseBytes (Join (kw :: kws) ", ") = reverseBytes last +:+ rest
    /\ (rest = "" \/ exists r, rest = String " " (String "," r)).
Proof.
  revert kw. induction kws as [|kw2 kws IH]; intros kw.
  - exists kw, "". split; [now left|]. split; [|now left].
    simpl. now rewrite append_empty_r.
  - destruct (IH kw2) as [last [rest [Hin [Hrev Hrest]]]].
    change (Join (kw :: kw2 :: kws) ", ")
      with (kw +:+ String "," (String " " (Join (kw2 :: kws) ", "))).
    rewrite reverseBytes_app, !reverseBytes_String, Hrev.
    destruct Hrest as [-> | [r ->]].
    + exists last, (String " " (String "," (reverseBytes kw))).
      split; [now right|]. split; [|right; now eexists].
      rewrite append_empty_r, !append_assoc. reflexivity.
    + exists last, (String " " (String "," (r +:+ String " " (String "," (reverseBytes kw))))).
      split; [now right|]. split; [|right; now eexists].
      rewrite !append_assoc. reflexivity.
Qed.

Lemma reverseBytes_empty (s : string) : reverseBytes s = "" -> s = "".
Proof.
  intros Hrev. apply (f_equal reverseBytes) in Hrev.
  now rewrite reverseBytes_involutive in Hrev.
Qed.

(** The joined text of clean keywords is not blank. *)
Lemma TrimSpace_Join (kw : string) (kws : list string) :
  Forall cleanKeyword (kw :: kws) -> TrimSpace (Join (kw :: kws) ", ") <> "".
Proof.
  intros Hclean.
  assert (Hall : forall k, k ∈ kw :: kws -> cleanKeyword k) by now apply Forall_forall.
  assert (Hfront : trimFront false (Join (kw :: kws) ", ") = Join (kw :: kws) ", ").
  { apply trimFront_id.
    destruct (Join_starts kw kws) as [rest [-> Hrest]].
    destruct (Hall kw ltac:(now left)) as (Hne & Hl & _).
    destruct Hrest as [-> | [r ->]]; [now rewrite append_empty_r|].
    apply startsWithSpace_before_ascii; try assumption; apply Nat.ltb_lt; reflexivity. }
  assert (Hback : trimFront true (reverseBytes (Join (kw :: kws) ", "))
                  = reverseBytes (Join (kw :: kws) ", ")).
  { apply trimFront_id.
    destruct (Join_ends kw kws) as [last [rest [Hin [-> Hrest]]]].
    destruct (Hall last Hin) as (Hne & _ & Ht).
    destruct Hrest as [-> | [r ->]]; [now rewrite append_empty_r|].
    apply startsWithSpace_before_ascii; try assumption;
      [|apply Nat.ltb_lt; reflexivity|apply Nat.ltb_lt; reflexivity].
    intros Hrev. now apply reverseBytes_empty in Hrev. }
  unfold TrimSpace. rewrite Hfront, Hback, reverseBytes_involutive.
  destruct (Join_starts kw kws) as [rest [-> _]].
  destruct (Hall kw ltac:(now left)) as (Hne & _).
  destruct kw; [contradiction | discriminate].
Qed.

Lemma parseKeywords_Join (keywords : list string) :
  Forall cleanKeyword keywords ->
  Forall (fun kw => commaFree kw = true) keywords ->
  parseKeywords (Join keywords ", ") = keywords.
Proof.
  intros Hclean Hfree. destruct keywords as [|kw kws]; [reflexivity|].
  unfold parseKeywords.
  destruct (String.eqb_spec (TrimSpace (Join (kw :: kws) ", ")) "") as [Hblank|_];
    [now apply TrimSpace_Join in Hblank|].
  rewrite parseKeywords_loop, (Split_Join kw kws Hfree). cbn [app map List.filter].
  inversion Hclean as [|? ? (Hne & Hl & Ht) Hrest]; subst.
  rewrite (TrimSpace_id kw Hl Ht).
  destruct (String.eqb_spec kw "") as [Hkw|_]; [contradiction|]. cbn [negb]. f_equal.
  clear -Hrest. induction Hrest as [|k ks (Hne & Hl & Ht) _ IH]; [reflexivity|].
  cbn [map List.filter]. rewrite (TrimSpace_after_space k Hl Ht).
  destruct (String.eqb_spec k "") as [Hk|_]; [contradiction|]. cbn [negb]. now f_equal.
Qed.

(** X15 -- Keywords survive being shown and read back: joining clean keywords
    that contain no comma with [", "], as the dialog and the details panel
    do when they open, and parsing that text, as they do when they save,
    gives the same keywords in the same order. *)
Theorem keywords_read_back (keywords : list string) :
  Forall cleanKeyword keywords ->
  Forall (fun kw => commaFree kw = true) keywords ->
  parseKeywords (Join keywords ", ") = keywords.
Proof. apply parseKeywords_Join. Qed.

(* ================================================================== *)
(** * Saving from the details panel                                    *)
(* ================================================================== *)

Lemma updatedVacancyOf_eq (panel : DetailsPanel) (v : Vacancy) :
  updatedVacancyOf panel v
  = ({| Title := Title v; Company := Company v;
        Description := fieldAfter String.eqb (detailDescriptionTE panel) (Description v);
        Keywords := fieldAfter equalStringSlices
                      (option_map parseKeywords (detailKeywordsLE panel)) (Keywords v);
        SourceURL := fieldAfter String.eqb (detailSourceURLLE panel) (SourceURL v);
        Status := fieldAfter String.eqb (detailStatusCB panel) (Status v);
        ExperienceLevel :=
          fieldAfter String.eqb (detailExperienceCB panel) (ExperienceLevel v);
        Notes := fieldAfter String.eqb (detailNotesTE panel) (Notes v);
        ResumePath := ResumePath v; ResumeFileName := ResumeFileName v |},
     false
     || fieldDiffers String.eqb (detailStatusCB panel) (Status v)
     || fieldDiffers String.eqb (detailExperienceCB panel) (ExperienceLevel v)
     || fieldDiffers equalStringSlices
          (option_map parseKeywords (detailKeywordsLE panel)) (Keywords v)
     || fieldDiffers String.eqb (detailSourceURLLE panel) (SourceURL v)
     || fieldDiffers String.eqb (detailDescriptionTE panel) (Description v)
     || fieldDiffers String.eqb (detailNotesTE panel) (Notes v)).
Proof.
  unfold updatedVacancyOf.
  repeat (rewrite updateField_eq; cbn beta iota).
  reflexivity.
Qed.

Lemma fieldAfter_again {A : Type} (same : A -> A -> bool) (widget : option A) (old : A) :
  (forall a, same a a = true) ->
  fieldAfter same widget (fieldAfter same widget old) = fieldAfter same widget old
  /\ fieldDiffers same widget (fieldAfter same widget old) = false.
Proof.
  intros Hrefl. destruct widget as [new|]; simpl; [|now split].
  destruct (same old new) eqn:Hsame.
  - now rewrite Hsame.
  - now rewrite Hrefl.
Qed.

Lemma equalStringSlices_refl (a : list string) : equalStringSlices a a = true.
Proof. now apply equalStringSlices_eq. Qed.

(** What the panel wrote is what the panel holds: applying it again
    changes nothing. *)
Lemma updatedVacancyOf_again (panel : DetailsPanel) (v : Vacancy) :
  updatedVacancyOf panel (fst (updatedVacancyOf panel v))
  = (fst (updatedVacancyOf panel v), false).
Proof.
  rewrite (updatedVacancyOf_eq panel v). cbn [fst].
  rewrite updatedVacancyOf_eq. cbn [Title Company Description Keywords SourceURL Status
                                    ExperienceLevel Notes ResumePath ResumeFileName].
  pose proof (fun w o => fieldAfter_again String.eqb w o String.eqb_refl) as Hs.
  pose proof (fun w o => fieldAfter_again equalStringSlices w o equalStringSlices_refl) as Hk.
  rewrite !(fun w o => proj1 (Hs w o)), !(fun w o => proj2 (Hs w o)).
  rewrite !(fun w o => proj1 (Hk w o)), !(fun w o => proj2 (Hk w o)).
  reflexivity.
Qed.

Lemma findExactFrom_overwrite (vs : list Vacancy) (title company : string) (i k : nat)
    (old new : Vacancy) :
  vs !! k = Some old -> Title new = Title old -> Company new = Company old ->
  findExactFrom i (<[k := new]> vs) title company = findExactFrom i vs title company.
Proof.
  revert i k. induction vs as [|v vs IH]; intros i k Hk Ht Hc; [reflexivity|].
  destruct k as [|k]; simpl in *.
  - injection Hk as ->. now rewrite Ht, Hc.
  - now rewrite (IH (S i) k Hk Ht Hc).
Qed.

(** X16 -- Saving from the details panel a second time changes nothing: once
    the panel's values are written, the next save finds the same record and
    no difference. *)
Theorem details_save_idempotent (panel : DetailsPanel) (vacancyInView : Vacancy)
    (allVacancies : list Vacancy) :
  saveVacancyDetails panel vacancyInView
    (saveVacancyDetails panel vacancyInView allVacancies)
  = saveVacancyDetails panel vacancyInView allVacancies.
Proof.
  destruct (findExactFrom 0 allVacancies (Title vacancyInView) (Company vacancyInView))
    as [k|] eqn:Hfind.
  2: { assert (Hsave : saveVacancyDetails panel vacancyInView allVacancies = allVacancies)
         by (unfold saveVacancyDetails; now rewrite Hfind).
       now rewrite !Hsave. }
  destruct (allVacancies !! k) as [v|] eqn:Hk.
  2: { assert (Hsave : saveVacancyDetails panel vacancyInView allVacancies = allVacancies)
         by (unfold saveVacancyDetails; now rewrite Hfind, Hk).
       now rewrite !Hsave. }
  pose proof (updatedVacancyOf_again panel v) as Hagain.
  pose proof (updatedVacancyOf_key panel v) as [Ht Hc].
  destruct (updatedVacancyOf panel v) as [updated changed] eqn:Hupd.
  cbn [fst] in *.
  destruct changed.
  - assert (Hsave : saveVacancyDetails panel vacancyInView allVacancies
                    = <[k := updated]> allVacancies)
      by (unfold saveVacancyDetails; now rewrite Hfind, Hk, Hupd).
    rewrite Hsave. unfold saveVacancyDetails.
    rewrite (findExactFrom_overwrite _ _ _ 0 k v updated Hk Ht Hc), Hfind.
    rewrite list_lookup_insert_eq by (now apply lookup_lt_Some in Hk).
    rewrite Hagain. reflexivity.
  - assert (Hsave : saveVacancyDetails panel vacancyInView allVacancies = allVacancies)
      by (unfold saveVacancyDetails; now rewrite Hfind, Hk, Hupd).
    now rewrite !Hsave.
Qed.

(** X17 -- The details panel writes to one record at most, never adds or removes
    one, and leaves title, company and the attached resume of every record
    alone. *)
Theorem details_save_keeps_identity (panel : DetailsPanel) (vacancyInView : Vacancy)
    (allVacancies : list Vacancy) :
  length (saveVacancyDetails panel vacancyInView allVacancies) = length allVacancies
  /\ (forall j saved,
        saveVacancyDetails panel vacancyInView allVacancies !! j = Some saved ->
        exists v, allVacancies !! j = Some v
                  /\ Title saved = Title v /\ Company saved = Company v
                  /\ ResumePath saved = ResumePath v
                  /\ ResumeFileName saved = ResumeFileName v)
  /\ (forall i j, saveVacancyDetails panel vacancyInView allVacancies !! i
                  <> allVacancies !! i ->
                  saveVacancyDetails panel vacancyInView allVacancies !! j
                  <> allVacancies !! j -> i = j).
Proof.
  unfold saveVacancyDetails.
  destruct (findExactFrom 0 allVacancies (Title vacancyInView) (Company vacancyInView))
    as [k|]; [|split; [reflexivity | split; [intros j saved Hj; now exists saved
                                            | intros i j Hi; now contradiction Hi]]].
  destruct (allVacancies !! k) as [v|] eqn:Hk;
    [|split; [reflexivity | split; [intros j saved Hj; now exists saved
                                   | intros i j Hi; now contradiction Hi]]].
  rewrite (updatedVacancyOf_eq panel v).
  match goal with |- context [if ?c then _ else _] => destruct c end;
    [|split; [reflexivity | split; [intros j saved Hj; now exists saved
                                   | intros i j Hi; now contradiction Hi]]].
  split; [apply length_insert|]. split.
  - intros j saved Hj. apply list_lookup_insert_Some in Hj.
    destruct Hj as [[-> [<- _]]|[_ Hj]]; [exists v | exists saved]; now repeat split.
  - intros i j Hi Hj.
    destruct (decide (i = k)) as [->|Hik]; [|now rewrite list_lookup_insert_ne in Hi].
    destruct (decide (j = k)) as [->|Hjk]; [reflexivity|].
    now rewrite list_lookup_insert_ne in Hj.
Qed.

(** X18 -- Saving right after the panel was filled changes nothing: with every
    field still showing the value of the record, the keywords shown joined
    by [", "] (they being clean and free of commas), the store stays as it
    is. *)
Theorem unedited_details_save_changes_nothing (panel : DetailsPanel)
    (vacancyInView : Vacancy) (allVacancies : list Vacancy) :
  (forall k v,
      findExactFrom 0 allVacancies (Title vacancyInView) (Company vacancyInView) = Some k ->
      allVacancies !! k = Some v ->
      panelShows panel v /\ Forall cleanKeyword (Keywords v)
      /\ Forall (fun kw => commaFree kw = true) (Keywords v)) ->
  saveVacancyDetails panel vacancyInView allVacancies = allVacancies.
Proof.
  intros Hshown. unfold saveVacancyDetails.
  destruct (findExactFrom 0 allVacancies (Title vacancyInView) (Company vacancyInView))
    as [k|]; [|reflexivity].
  destruct (allVacancies !! k) as [v|] eqn:Hv; [|reflexivity].
  destruct (Hshown k v eq_refl Hv) as [(Hs & He & Hk & Hu & Hd & Hn) [Hclean Hfree]].
  assert (Hsame : forall (w : option string) (old : string),
            (forall s, w = Some s -> s = old) -> fieldDiffers String.eqb w old = false).
  { intros [s|] old Hw; [|reflexivity]. simpl.
    rewrite (Hw s eq_refl), String.eqb_refl. reflexivity. }
  assert (Hkw : fieldDiffers equalStringSlices
                  (option_map parseKeywords (detailKeywordsLE panel)) (Keywords v) = false).
  { destruct (detailKeywordsLE panel) as [s|]; [|reflexivity]. simpl.
    rewrite (Hk s eq_refl). unfold keywordsText.
    rewrite (parseKeywords_Join _ Hclean Hfree), equalStringSlices_refl. reflexivity. }
  rewrite (updatedVacancyOf_eq panel v).
  rewrite (Hsame _ _ Hs), (Hsame _ _ He), Hkw, (Hsame _ _ Hu), (Hsame _ _ Hd),
    (Hsame _ _ Hn).
  reflexivity.
Qed.

(* ================================================================== *)
(** * Resume attachments and the archive                               *)
(* ================================================================== *)

Section ResumeProperties.

Context `{CaseFolding}.
Variable Base : string -> string.

Lemma findFrom_overwrite (vs : list Vacancy) (title company : string) (i k : nat)
    (old new : Vacancy) :
  vs !! k = Some old -> Title new = Title old -> Company new = Company old ->
  findFrom i (<[k := new]> vs) title company = findFrom i vs title company.
Proof.
  revert i k. induction vs as [|v vs IH]; intros i k Hk Ht Hc; [reflexivity|].
  destruct k as [|k]; simpl in *.
  - injection Hk as ->. now rewrite Ht, Hc.
  - now rewrite (IH (S i) k Hk Ht Hc).
Qed.

(** The shared write: it touches the first record that matches the
    selected row, or nothing. *)
Lemma writeResume_eq (selected : Vacancy) (path name : string)
    (allVacancies : list Vacancy) :
  match findVacancyIndexInAllExt allVacancies (Title selected) (Company selected) with
  | Some k =>
      exists v, allVacancies !! k = Some v
                /\ writeResume selected path name allVacancies
                   = <[k := setResume path name v]> allVacancies
  | None => writeResume selected path name allVacancies = allVacancies
  end.
Proof.
  unfold writeResume.
  destruct (findVacancyIndexInAllExt allVacancies (Title selected) (Company selected))
    as [k|] eqn:Hfind; [|reflexivity].
  apply findFrom_Some in Hfind. destruct Hfind as [_ [v [Hv _]]].
  rewrite Nat.sub_0_r in Hv. exists v. now rewrite Hv.
Qed.

Lemma writeResume_rest (selected : Vacancy) (path name : string)
    (allVacancies : list Vacancy) :
  Forall2 sameButResume (writeResume selected path name allVacancies) allVacancies.
Proof.
  assert (Hrefl : Forall2 sameButResume allVacancies allVacancies).
  { apply Forall2_same_length_lookup. split; [reflexivity|].
    intros i a b Ha Hb. rewrite Ha in Hb. injection Hb as <-. now repeat split. }
  pose proof (writeResume_eq selected path name allVacancies) as Hw.
  destruct (findVacancyIndexInAllExt allVacancies (Title selected) (Company selected))
    as [k|]; [|now rewrite Hw].
  destruct Hw as [v [Hv ->]].
  apply Forall2_same_length_lookup. split; [apply length_insert|].
  intros i a b Ha Hb. apply list_lookup_insert_Some in Ha.
  destruct Ha as [[-> [<- _]]|[_ Ha]].
  - rewrite Hv in Hb. injection Hb as <-. now repeat split.
  - rewrite Ha in Hb. injection Hb as <-. now repeat split.
Qed.

Lemma sameButResume_uniqueKeys (changed allVacancies : list Vacancy) :
  Forall2 sameButResume changed allVacancies ->
  uniqueKeys allVacancies -> uniqueKeys changed.
Proof.
  intros Hsame Huniq i j a b Hi Hj Hij.
  destruct (Forall2_lookup_l _ _ _ _ _ Hsame Hi) as [a' [Ha' (Hta & Hca & _)]].
  destruct (Forall2_lookup_l _ _ _ _ _ Hsame Hj) as [b' [Hb' (Htb & Hcb & _)]].
  unfold sameKey. rewrite Hta, Hca, Htb, Hcb. now apply (Huniq i j).
Qed.

Lemma writeResume_after_write (selected : Vacancy) (path name path' name' : string)
    (allVacancies : list Vacancy) :
  writeResume selected path' name' (writeResume selected path name allVacancies)
  = writeResume selected path' name' allVacancies.
Proof.
  pose proof (writeResume_eq selected path name allVacancies) as Hw.
  destruct (findVacancyIndexInAllExt allVacancies (Title selected) (Company selected))
    as [k|] eqn:Hfind; [|now rewrite Hw].
  destruct Hw as [v [Hv ->]].
  unfold writeResume, findVacancyIndexInAllExt in *.
  rewrite (findFrom_overwrite _ _ _ 0 k v (setResume path name v) Hv eq_refl eq_refl).
  rewrite Hfind, Hv.
  rewrite list_lookup_insert_eq by (now apply lookup_lt_Some in Hv).
  now rewrite list_insert_insert_eq.
Qed.

(** X19 -- Dropping files, choosing one in the file dialog and clearing the
    attachment change nothing but the two resume fields: the store keeps
    its length, every record keeps all its other fields, and unique keys
    stay unique. *)
Theorem resume_operations_keep_records (files : list string)
    (shown : string + option string) (confirmed : bool) (selected : option Vacancy)
    (allVacancies : list Vacancy) :
  let dropped := handleFileDrop Base files selected allVacancies in
  let chosen := selectResume Base shown selected allVacancies in
  let cleared := clearResume confirmed selected allVacancies in
  Forall2 sameButResume dropped allVacancies
  /\ Forall2 sameButResume chosen allVacancies
  /\ Forall2 sameButResume cleared allVacancies
  /\ (uniqueKeys allVacancies ->
      uniqueKeys dropped /\ uniqueKeys chosen /\ uniqueKeys cleared).
Proof.
  cbv zeta.
  assert (Hrefl : Forall2 sameButResume allVacancies allVacancies).
  { apply Forall2_same_length_lookup. split; [reflexivity|].
    intros i a b Ha Hb. rewrite Ha in Hb. injection Hb as <-. now repeat split. }
  assert (Hattach : forall sel path,
            Forall2 sameButResume (attachResume Base sel path allVacancies) allVacancies).
  { intros sel path. unfold attachResume.
    destruct (negb (allowedExt (ToLower (Ext (Base path)))));
      [exact Hrefl | apply writeResume_rest]. }
  assert (Hdrop : Forall2 sameButResume (handleFileDrop Base files selected allVacancies)
                    allVacancies).
  { unfold handleFileDrop. destruct files as [|path rest]; [exact Hrefl|].
    destruct selected; [apply Hattach | exact Hrefl]. }
  assert (Hchosen : Forall2 sameButResume (selectResume Base shown selected allVacancies)
                      allVacancies).
  { unfold selectResume. destruct selected; [|exact Hrefl].
    destruct shown as [err|[path|]]; [exact Hrefl | apply Hattach | exact Hrefl]. }
  assert (Hclear : Forall2 sameButResume (clearResume confirmed selected allVacancies)
                     allVacancies).
  { unfold clearResume. destruct selected; [|exact Hrefl].
    destruct confirmed; [apply writeResume_rest | exact Hrefl]. }
  repeat split; try assumption; eapply sameButResume_uniqueKeys; eassumption.
Qed.

(** X20 -- Only a file whose extension, lower-cased, is one of [.pdf], [.doc],
    [.docx], [.txt] and [.rtf] is attached, and only the first of the
    dropped files is looked at.  When it is attached, the first record
    matching the selected row gets the full path and the base name; the
    file dialog attaches the chosen path in the same way. *)
Theorem only_allowed_files_are_attached (filePath : string) (others : list string)
    (selected : Vacancy) (allVacancies : list Vacancy) :
  let dropped := handleFileDrop Base (filePath :: others) (Some selected) allVacancies in
  (allowedExt (ToLower (Ext (Base filePath))) = false -> dropped = allVacancies)
  /\ (allowedExt (ToLower (Ext (Base filePath))) = true ->
      match findVacancyIndexInAllExt allVacancies (Title selected) (Company selected) with
      | Some k => exists v, allVacancies !! k = Some v
                            /\ dropped = <[k := setResume filePath (Base filePath) v]>
                                           allVacancies
      | None => dropped = allVacancies
      end)
  /\ dropped = handleFileDrop Base [filePath] (Some selected) allVacancies
  /\ dropped = selectResume Base (inr (Some filePath)) (Some selected) allVacancies.
Proof.
  cbv zeta. unfold handleFileDrop, selectResume, attachResume.
  split; [intros Hext; now rewrite Hext|].
  split; [|split; reflexivity].
  intros Hext. rewrite Hext. cbn [negb].
  apply writeResume_eq.
Qed.

(** X21 -- Clearing undoes an attachment: clearing after a drop leaves the store
    as clearing alone would, which is the store itself when the record had
    no resume before; and clearing twice is clearing once. *)
Theorem clearing_undoes_attaching (files : list string) (selected : Vacancy)
    (allVacancies : list Vacancy) :
  let cleared := clearResume true (Some selected) allVacancies in
  clearResume true (Some selected)
    (handleFileDrop Base files (Some selected) allVacancies) = cleared
  /\ clearResume true (Some selected) cleared = cleared
  /\ ((forall k v,
         findVacancyIndexInAllExt allVacancies (Title selected) (Company selected) = Some k ->
         allVacancies !! k = Some v -> ResumePath v = "" /\ ResumeFileName v = "") ->
      cleared = allVacancies).
Proof.
  cbv zeta. unfold clearResume, handleFileDrop. split; [|split].
  - destruct files as [|path rest]; [reflexivity|].
    unfold attachResume.
    destruct (negb (allowedExt (ToLower (Ext (Base path))))); [reflexivity|].
    apply writeResume_after_write.
  - apply writeResume_after_write.
  - intros Hnone.
    pose proof (writeResume_eq selected "" "" allVacancies) as Hw.
    destruct (findVacancyIndexInAllExt allVacancies (Title selected) (Company selected))
      as [k|]; [|exact Hw].
    destruct Hw as [v [Hv ->]].
    destruct (Hnone k v eq_refl Hv) as [Hp Hn].
    apply list_insert_id. rewrite Hv. f_equal.
    destruct v. simpl in *. now subst.
Qed.

End ResumeProperties.

Lemma archive_loop (vs : list Vacancy) (acc : list ResumeArchive.Entry) :
  fold_left
    (fun items v =>
       if negb (String.eqb (ResumeFileName v) "") && negb (String.eqb (ResumePath v) "")
       then items ++ [{| ResumeArchive.FileName := ResumeFileName v;
                         ResumeArchive.FilePath := ResumePath v;
                         ResumeArchive.VacancyName := Title v;
                         ResumeArchive.Company := Company v;
                         ResumeArchive.AddedDate := "" |}]
       else items)
    vs acc
  = acc ++ map archiveEntryOf (List.filter archived vs).
Proof.
  revert acc. induction vs as [|v vs IH]; intros acc; simpl.
  - now rewrite app_nil_r.
  - rewrite IH. unfold archived at 2.
    destruct (negb (String.eqb (ResumeFileName v) "") && negb (String.eqb (ResumePath v) ""));
      [|reflexivity].
    simpl. now rewrite <- app_assoc.
Qed.

(** X22 -- The archive window lists, in the order of the store, one row for
    every record that has both a resume path and a resume file name, with
    that name and path and the record's title and company; no row has an
    empty name or path. *)
Theorem archive_lists_attached (allVacancies : list Vacancy) :
  archiveEntries allVacancies = map archiveEntryOf (List.filter archived allVacancies)
  /\ Forall (fun e => ResumeArchive.FileName e <> "" /\ ResumeArchive.FilePath e <> "")
       (archiveEntries allVacancies)
  /\ length (archiveEntries allVacancies) <= length allVacancies.
Proof.
  assert (Heq : archiveEntries allVacancies
                = map archiveEntryOf (List.filter archived allVacancies))
    by (unfold archiveEntries; now rewrite archive_loop).
  split; [exact Heq|]. rewrite Heq. split.
  - apply Forall_forall. intros e He.
    apply list_elem_of_In, in_map_iff in He. destruct He as [v [<- Hv]].
    apply filter_In in Hv. destruct Hv as [_ Hv]. unfold archived in Hv.
    apply andb_true_iff in Hv. destruct Hv as [Hn Hp].
    apply negb_true_iff in Hn, Hp. apply String.eqb_neq in Hn, Hp. now split.
  - rewrite length_map.
    pose proof (List.filter_length archived allVacancies). lia.
Qed.

Lemma indexFrom_Some (options : list string) (current : string) (i k : nat) :
  indexFrom i options current = Some k ->
  i <= k /\ options !! (k - i) = Some current
  /\ forall j, j < k - i -> options !! j <> Some current.
Proof.
  revert i. induction options as [|s options IH]; intros i; cbn [indexFrom]; [discriminate|].
  destruct (String.eqb_spec s current) as [->|Hne].
  - intros Hk. injection Hk as Hk. subst k. rewrite Nat.sub_diag.
    repeat split; [lia|]. intros j Hj. lia.
  - intros Hk. apply IH in Hk. destruct Hk as (Hle & Hk & Hfirst).
    split; [lia|]. split.
    + replace (k - i) with (S (k - S i)) by lia. exact Hk.
    + intros [|j] Hj; simpl; [congruence|]. apply Hfirst. lia.
Qed.

Lemma indexFrom_None (options : list string) (current : string) (i : nat) :
  indexFrom i options current = None -> current ∉ options.
Proof.
  revert i. induction options as [|s options IH]; intros i; cbn [indexFrom].
  - intros _ Hin. inversion Hin.
  - destruct (String.eqb_spec s current) as [->|Hne]; [discriminate|].
    intros Hnone Hin. apply elem_of_cons in Hin.
    destruct Hin as [Heq|Hin]; [congruence | now apply (IH (S i))].
Qed.

(** X23 -- The entry a combo box is opened on.  In the dialog a value
    that is not empty selects the first entry equal to it, and an empty
    value or one that is not listed selects the first entry of all.  In the
    details panel a listed value, the empty one included, selects the
    first entry equal to it, and a value that is not listed selects
    nothing ([-1]) unless it is empty and the list is not, which selects
    the first entry. *)
Theorem combo_index_of_value (options : list string) (current : string) :
  (current ∈ options ->
   exists k,
     options !! k = Some current
     /\ (forall j, j < k -> options !! j <> Some current)
     /\ detailIndex options current = Z.of_nat k
     /\ initialIndex options current = if String.eqb current "" then 0 else k)
  /\ (current ∉ options ->
      initialIndex options current = 0
      /\ detailIndex options current
         = if String.eqb current "" && (0 <? length options)%nat then 0%Z else (-1)%Z)
  /\ (-1 <= detailIndex options current < Z.of_nat (length options))%Z
  /\ (options <> [] -> initialIndex options current < length options).
Proof.
  unfold initialIndex, detailIndex.
  destruct (indexFrom 0 options current) as [k|] eqn:Hidx.
  - apply indexFrom_Some in Hidx. destruct Hidx as (_ & Hk & Hfirst).
    rewrite Nat.sub_0_r in Hk, Hfirst.
    pose proof (lookup_lt_Some _ _ _ Hk) as Hlt.
    split; [|split; [|split]].
    + intros _. exists k. split; [exact Hk|]. split; [exact Hfirst|].
      split; [reflexivity|]. now destruct (String.eqb current "").
    + intros Hnot. exfalso. apply Hnot. apply list_elem_of_lookup. now exists k.
    + lia.
    + intros _. destruct (negb (String.eqb current "")); simpl; lia.
  - apply indexFrom_None in Hidx. split; [|split; [|split]].
    + intros Hin. contradiction.
    + intros _. split; [now destruct (negb (String.eqb current "")) | reflexivity].
    + destruct (String.eqb current "" && (0 <? length options)%nat) eqn:Hc; [|lia].
      apply andb_true_iff in Hc. destruct Hc as [_ Hlen].
      apply Nat.ltb_lt in Hlen. lia.
    + intros Hne. destruct options; [contradiction|].
      destruct (negb (String.eqb current "")); simpl; lia.
Qed.

(* ================================================================== *)
(** * More on the client and the task                                  *)
(* ================================================================== *)

(** X24 -- The client hands back records only from an exchange in which every
    step succeeded: the request was built and sent, the body was read, the
    status was 200, the body decoded and carried no error payload; it never
    returns more records than the response has jobs.  With the cancel
    channel never closed such an exchange always yields records. *)
Theorem client_succeeds_exactly_when (keywords location : string) (net : Exchange)
    (sig : Signal) (p : Probe) :
  let succeeded :=
    marshal net = None /\ newRequest net = None
    /\ exists resp body joobleResp,
         clientDo net = inr resp /\ readAll resp = inr body
         /\ StatusCode resp = 200%Z
         /\ unmarshalResponse net body = inr joobleResp
         /\ Jooble.Err joobleResp = None in
  (forall vs, fst (searchVacanciesJooble keywords location net sig p) = Vacancies vs ->
              succeeded
              /\ forall resp body joobleResp,
                   clientDo net = inr resp -> readAll resp = inr body ->
                   unmarshalResponse net body = inr joobleResp ->
                   length vs <= length (Jooble.Jobs joobleResp))
  /\ (closeAt sig = None -> succeeded ->
      exists vs, fst (searchVacanciesJooble keywords location net sig p) = Vacancies vs).
Proof.
  cbv zeta. split.
  - intros vs. unfold searchVacanciesJooble.
    destruct (marshal net); [discriminate|].
    destruct (newRequest net); [discriminate|].
    destruct (clientDo net) as [err|resp] eqn:Hdo; unfold bind;
      destruct (poll sig p) as [closed p1]; (destruct closed; [discriminate|]).
    + destruct (ctxCanceled sig p1) as [canceled p2]. destruct canceled; discriminate.
    + destruct (readAll resp) as [err|body] eqn:Hread; [discriminate|].
      destruct (poll sig p1) as [closed' p2]. destruct closed'; [discriminate|].
      destruct (StatusCode resp =? 200)%Z eqn:Hstatus; [|discriminate]. cbn [negb].
      apply Z.eqb_eq in Hstatus.
      destruct (unmarshalResponse net body) as [err|joobleResp] eqn:Hdecode.
      { unfold decodeFailure. destruct (unmarshalError net body) as [e|]; [|discriminate].
        destruct (negb (String.eqb (Jooble.Message e) "")); discriminate. }
      unfold convertResponse. destruct (Jooble.Err joobleResp) eqn:Herr; [discriminate|].
      intros Hvs. apply convertJobs_result in Hvs. split.
      * repeat split. exists resp, body, joobleResp. now repeat split.
      * intros resp' body' joobleResp' [= <-] Hread' Hdecode'.
        rewrite Hread in Hread'. injection Hread' as <-.
        rewrite Hdecode in Hdecode'. injection Hdecode' as <-.
        rewrite Hvs. cbn [app]. rewrite length_map.
        pose proof (List.filter_length usableJob (Jooble.Jobs joobleResp)). lia.
  - intros Hnone (Hm & Hr & resp & body & joobleResp & Hdo & Hread & Hstatus & Hdecode & Herr).
    eexists. unfold searchVacanciesJooble. rewrite Hm, Hr, Hdo. unfold bind.
    pose proof (poll_never sig p Hnone) as Hpoll.
    destruct (poll sig p) as [closed p1]. simpl in Hpoll. subst closed.
    rewrite Hread.
    pose proof (poll_never sig p1 Hnone) as Hpoll.
    destruct (poll sig p1) as [closed p2]. simpl in Hpoll. subst closed.
    rewrite Hstatus, Hdecode. simpl.
    unfold convertResponse. rewrite Herr.
    apply convertJobs_never. exact Hnone.
Qed.

(** X25 -- With the cancel channel never closed, a response whose status is not
    200 is an error that carries the status code and the raw body, whether
    or not the body decodes, and a decoded response with an error payload
    is an error that carries the payload's message and code. *)
Theorem protocol_errors_carry_detail (keywords location : string) (net : Exchange)
    (sig : Signal) (p : Probe) (resp : HttpResponse) (body : string) :
  closeAt sig = None ->
  marshal net = None -> newRequest net = None ->
  clientDo net = inr resp -> readAll resp = inr body ->
  (StatusCode resp <> 200%Z ->
   fst (searchVacanciesJooble keywords location net sig p)
   = SearchError ("ошибка API Jooble (HTTP " +:+ itoa (StatusCode resp) +:+ "): " +:+ body))
  /\ (forall joobleResp e,
        StatusCode resp = 200%Z ->
        unmarshalResponse net body = inr joobleResp ->
        Jooble.Err joobleResp = Some e ->
        fst (searchVacanciesJooble keywords location net sig p)
        = SearchError ("API Jooble вернуло ошибку: " +:+ Jooble.Message e
                       +:+ " (код: " +:+ itoa (Jooble.Code e) +:+ ")")).
Proof.
  intros Hnone Hm Hr Hdo Hread.
  unfold searchVacanciesJooble. rewrite Hm, Hr, Hdo. unfold bind.
  pose proof (poll_never sig p Hnone) as Hpoll.
  destruct (poll sig p) as [closed p1]. simpl in Hpoll. subst closed.
  rewrite Hread.
  pose proof (poll_never sig p1 Hnone) as Hpoll.
  destruct (poll sig p1) as [closed p2]. simpl in Hpoll. subst closed.
  split.
  - intros Hstatus. apply Z.eqb_neq in Hstatus. now rewrite Hstatus.
  - intros joobleResp e Hstatus Hdecode Herr.
    rewrite Hstatus, Hdecode. simpl. unfold convertResponse. now rewrite Herr.
Qed.

Section TaskViews.

Context `{CaseFolding}.

(** What the task leaves on screen, by cases on what happened. *)
Lemma runSearch_view (currentSearchTerm : string) (net : Exchange)
    (allVacancies : list Vacancy) (sig : Signal) :
  let result := fst (searchVacanciesJooble currentSearchTerm "" net sig start) in
  let view := fst (runSearch currentSearchTerm net allVacancies sig) in
  let p := snd (runSearch currentSearchTerm net allVacancies sig) in
  match onlineResultsLabel view with
  | LabelFound n => n = length (onlineItems view) /\ 0 < n
  | _ => onlineItems view = []
  end
  /\ (forall detail, outcomeOf view = Failed detail <->
        result = SearchError detail /\ Contains detail "context canceled" = false
        /\ ~ In true (seen p))
  /\ (closeAt sig = Some 0 ->
      view = {| onlineResultsLabel := LabelCancelled; onlineItems := [] |}).
Proof.
  unfold runSearch, onlineSearchTask, bind.
  pose proof (searchVacanciesJooble_faithful currentSearchTerm "" net sig start
                (faithful_start sig)) as Hp1.
  destruct (searchVacanciesJooble currentSearchTerm "" net sig start) as [result p1].
  cbn [fst snd] in *.
  pose proof (faithful_closed sig p1 Hp1) as Hseen1.
  pose proof (faithful_poll sig p1 Hp1) as Hp2.
  unfold poll in *. cbn [snd] in Hp2.
  destruct (closedAt sig (clock p1)) eqn:Hclosed.
  { cbn. split; [reflexivity|]. split; [|reflexivity].
    intros detail. split; [discriminate|]. intros (_ & _ & Hno). exfalso. apply Hno. now left. }
  assert (Hopen : closeAt sig <> Some 0).
  { intros Hzero. unfold closedAt in Hclosed. now rewrite Hzero in Hclosed. }
  assert (Hnone1 : ~ In true (seen p1)) by (intros Hin; apply Hseen1 in Hin; discriminate).
  set (p2 := {| clock := S (clock p1); seen := false :: seen p1 |}) in *.
  assert (Hnone2 : ~ In true (seen p2)).
  { simpl. intros [Hin|Hin]; [discriminate | now apply Hnone1]. }
  destruct result as [joobleVacancies|err]; cbn [publish].
  - unfold bind.
    destruct (filterOnline_spec sig allVacancies joobleVacancies [] p2 Hp2) as [Hp3 Hres].
    destruct (filterOnline allVacancies joobleVacancies [] sig p2) as [filtered p3].
    cbn [fst snd] in *.
    destruct filtered as [filtered|].
    + destruct (length filtered =? 0)%nat eqn:Hlen.
      * apply Nat.eqb_eq in Hlen. apply length_zero_iff_nil in Hlen. subst filtered.
        unfold poll. destruct (closedAt sig (clock p3)); cbn;
          (split; [reflexivity|]); (split; [|intros Hzero; contradiction]);
          intros detail; (split; [discriminate | intros (Hr & _); discriminate Hr]).
      * apply Nat.eqb_neq in Hlen. cbn.
        split; [split; [reflexivity | lia]|]. split; [|intros Hzero; contradiction].
        intros detail. split; [discriminate | intros (Hr & _); discriminate Hr].
    + cbn. split; [reflexivity|]. split; [|intros Hzero; contradiction].
      intros detail. split; [discriminate | intros (Hr & _); discriminate Hr].
  - destruct (Contains err "context canceled") eqn:Htext; cbn.
    + split; [reflexivity|]. split; [|intros Hzero; contradiction].
      intros detail. split; [discriminate|].
      intros (Hr & Hc & _). injection Hr as <-. congruence.
    + split; [reflexivity|]. split; [|intros Hzero; contradiction].
      intros detail. split.
      * intros Hf. injection Hf as <-. now repeat split.
      * intros (Hr & _). now injection Hr as <-.
Qed.

(** X26 -- The label and the rows of the online table agree: rows are shown only
    under the label that counts them, with that count, and every other
    label (cancelled, error, no new results) comes with an empty table. *)
Theorem online_label_matches_rows (currentSearchTerm : string) (net : Exchange)
    (allVacancies : list Vacancy) (sig : Signal) :
  match onlineResultsLabel (fst (runSearch currentSearchTerm net allVacancies sig)) with
  | LabelFound n =>
      n = length (onlineItems (fst (runSearch currentSearchTerm net allVacancies sig)))
      /\ 0 < n
  | _ => onlineItems (fst (runSearch currentSearchTerm net allVacancies sig)) = []
  end.
Proof. apply (runSearch_view currentSearchTerm net allVacancies sig). Qed.

(** X27 -- The task reports a failure exactly when the client returned an error
    whose text does not contain ["context canceled"] and no checkpoint saw
    the cancel channel closed; the detail shown is the client's error
    text. *)
Theorem failure_is_the_client_error (currentSearchTerm : string) (net : Exchange)
    (allVacancies : list Vacancy) (sig : Signal) (detail : string) :
  outcomeOf (fst (runSearch currentSearchTerm net allVacancies sig)) = Failed detail <->
  fst (searchVacanciesJooble currentSearchTerm "" net sig start) = SearchError detail
  /\ Contains detail "context canceled" = false
  /\ ~ In true (seen (snd (runSearch currentSearchTerm net allVacancies sig))).
Proof. apply (runSearch_view currentSearchTerm net allVacancies sig). Qed.

(** X28 -- A search whose cancel channel is closed before the task first looks
    at it ends as cancelled with an empty table, whatever the exchange
    with the API would give. *)
Theorem cancelled_before_first_look (currentSearchTerm : string) (net : Exchange)
    (allVacancies : list Vacancy) (sig : Signal) :
  closeAt sig = Some 0 ->
  fst (runSearch currentSearchTerm net allVacancies sig)
  = {| onlineResultsLabel := LabelCancelled; onlineItems := [] |}.
Proof. apply (runSearch_view currentSearchTerm net allVacancies sig). Qed.

End TaskViews.


(* ================================================================== *)
(** * The properties at sample data                                    *)
(* ================================================================== *)

Ltac uniqueKeys_of_two :=
  let i := fresh "i" in let j := fresh "j" in
  let Hi := fresh "Hi" in let Hj := fresh "Hj" in
  intros i j ? ? Hi Hj ?;
  destruct i as [|[|i]], j as [|[|j]]; simpl in Hi, Hj; try discriminate; try lia;
  injection Hi as <-; injection Hj as <-; reflexivity.

Lemma free_text_selectors_witness :
  let snapshot := [sampleVacancy "Go Dev" "Acme"; sampleVacancy "QA" "Globex"] in
  filterVacancies (sampleControls 2 "" "" "ACME") snapshot
  = List.filter (fun v => fieldContains "ACME" (Company v)) snapshot
  /\ filterVacancies (sampleControls 4 "" "" "") snapshot = snapshot.
Proof.
  cbv zeta.
  split.
  - exact (proj1 (proj2 (free_text_selectors (sampleControls 2 "" "" "ACME")
                           [sampleVacancy "Go Dev" "Acme"; sampleVacancy "QA" "Globex"]))
             eq_refl).
  - exact (proj1 (proj2 (proj2 (proj2 (free_text_selectors (sampleControls 4 "" "" "")
                           [sampleVacancy "Go Dev" "Acme"; sampleVacancy "QA" "Globex"]))))
             eq_refl).
Defined.

Lemma everywhere_finds_more_witness :
  let snapshot := [sampleVacancy "Go Dev" "Acme"; sampleVacancy "QA" "Globex"] in
  filterVacancies (sampleControls 2 "" "" "acme") snapshot
  `sublist_of` filterVacancies (sampleControls 0 "" "" "acme") snapshot.
Proof.
  cbv zeta.
  apply (everywhere_finds_more (sampleControls 2 "" "" "acme") (sampleControls 0 "" "" "acme"));
    [simpl; lia | reflexivity | reflexivity].
Defined.

Lemma rejected_dialog_keeps_store_witness :
  let store := [sampleVacancy "Go Dev" "Acme"] in
  let dlg := sampleForm " go dev " "ACME" "" in
  acceptVacancyDialog dlg false store = (store, RejectedAlreadyPresent)
  /\ exists v, v ∈ store /\ sameKey v (savedVacancyOf dlg) = true.
Proof.
  cbv zeta.
  assert (Hrej : acceptVacancyDialog (sampleForm " go dev " "ACME" "") false
                   [sampleVacancy "Go Dev" "Acme"]
                 = ([sampleVacancy "Go Dev" "Acme"], RejectedAlreadyPresent))
    by reflexivity.
  split; [exact Hrej|].
  exact (proj2 (proj2 (rejected_dialog_keeps_store _ _ _ _ _ Hrej)) eq_refl).
Defined.

Lemma accepted_add_appends_witness :
  let store := [sampleVacancy "Go Dev" "Acme"] in
  let dlg := sampleForm " QA " "Globex" "go, sql" in
  acceptVacancyDialog dlg true store = (store ++ [savedVacancyOf dlg], Accepted)
  /\ Title (savedVacancyOf dlg) = "QA"
  /\ forall v, v ∈ store -> sameKey v (savedVacancyOf dlg) = false.
Proof.
  cbv zeta.
  assert (Hacc : acceptVacancyDialog (sampleForm " QA " "Globex" "go, sql") true
                   [sampleVacancy "Go Dev" "Acme"]
                 = ([sampleVacancy "Go Dev" "Acme"]
                    ++ [savedVacancyOf (sampleForm " QA " "Globex" "go, sql")], Accepted))
    by reflexivity.
  split; [exact Hacc|]. split; [reflexivity|].
  destruct (accepted_add_appends (sampleForm " QA " "Globex" "go, sql") true _ _
              eq_refl Hacc) as (_ & _ & _ & _ & _ & _ & _ & Hnew).
  exact Hnew.
Defined.

Lemma accepted_edit_overwrites_witness :
  let old := setResume "/home/cv.pdf" "cv.pdf" (sampleVacancy "Go Dev" "Acme") in
  let store := [sampleVacancy "QA" "Globex"; old] in
  let dlg := editDialog old (sampleForm "Go Developer" "Acme" "go") in
  ResumePath old = "/home/cv.pdf"
  /\ exists k,
       findVacancyIndexInAllExt store (originalTitle dlg) (originalCompany dlg) = Some k
       /\ <[1 := savedVacancyOf dlg]> store = <[k := savedVacancyOf dlg]> store
       /\ length (<[1 := savedVacancyOf dlg]> store) = length store
       /\ (forall j, j <> k -> <[1 := savedVacancyOf dlg]> store !! j = store !! j)
       /\ (exists v, <[1 := savedVacancyOf dlg]> store !! k = Some v
                     /\ ResumePath v = "" /\ ResumeFileName v = ""
                     /\ Title v = TrimSpace (titleLE dlg)
                     /\ Company v = TrimSpace (companyLE dlg)).
Proof.
  cbv zeta. split; [reflexivity|].
  apply accepted_edit_overwrites; reflexivity.
Defined.

Lemma keywords_read_back_witness :
  Join ["go"; "sql server"] ", " = "go, sql server"
  /\ parseKeywords (Join ["go"; "sql server"] ", ") = ["go"; "sql server"].
Proof.
  split; [reflexivity|].
  apply keywords_read_back.
  - repeat constructor; discriminate.
  - repeat constructor.
Defined.

Lemma unedited_details_save_changes_nothing_witness :
  let shown := savedVacancyOf (sampleForm "Go Dev" "Acme" "go, sql") in
  let store := [sampleVacancy "QA" "Globex"; shown] in
  Keywords shown = ["go"; "sql"]
  /\ saveVacancyDetails (samplePanel "go, sql") shown store = store.
Proof.
  cbv zeta. split; [reflexivity|].
  apply unedited_details_save_changes_nothing.
  intros k v Hk Hv.
  assert (Hfound : k = 1) by (vm_compute in Hk; now injection Hk as <-).
  subst k. simpl in Hv. injection Hv as <-.
  split; [|split].
  - repeat split; intros s Hs; injection Hs as <-; reflexivity.
  - repeat constructor; discriminate.
  - repeat constructor.
Defined.

Lemma resume_operations_keep_records_witness :
  let store := [sampleVacancy "Go Dev" "Acme"; sampleVacancy "QA" "Acme"] in
  let selected := Some (sampleVacancy "QA" "Acme") in
  uniqueKeys store
  /\ uniqueKeys (handleFileDrop (fun path => path) ["cv.pdf"] selected store)
  /\ uniqueKeys (selectResume (fun path => path) (inr (Some "cv.docx")) selected store)
  /\ uniqueKeys (clearResume true selected store).
Proof.
  cbv zeta.
  assert (Huniq : uniqueKeys [sampleVacancy "Go Dev" "Acme"; sampleVacancy "QA" "Acme"])
    by uniqueKeys_of_two.
  split; [exact Huniq|].
  exact (proj2 (proj2 (proj2 (resume_operations_keep_records (fun path => path) ["cv.pdf"]
                                (inr (Some "cv.docx")) true
                                (Some (sampleVacancy "QA" "Acme"))
                                [sampleVacancy "Go Dev" "Acme"; sampleVacancy "QA" "Acme"])))
           Huniq).
Defined.

Lemma only_allowed_files_are_attached_witness :
  let store := [sampleVacancy "Go Dev" "Acme"; sampleVacancy "QA" "Acme"] in
  let selected := sampleVacancy "QA" "Acme" in
  handleFileDrop (fun path => path) ["setup.exe"; "cv.pdf"] (Some selected) store = store
  /\ exists v, store !! 1 = Some v
               /\ handleFileDrop (fun path => path) ["cv.PDF"; "setup.exe"] (Some selected) store
                  = <[1 := setResume "cv.PDF" "cv.PDF" v]> store.
Proof.
  cbv zeta. split.
  - exact (proj1 (only_allowed_files_are_attached (fun path => path) "setup.exe" ["cv.pdf"]
                    (sampleVacancy "QA" "Acme")
                    [sampleVacancy "Go Dev" "Acme"; sampleVacancy "QA" "Acme"]) eq_refl).
  - exact (proj1 (proj2 (only_allowed_files_are_attached (fun path => path) "cv.PDF"
                           ["setup.exe"] (sampleVacancy "QA" "Acme")
                           [sampleVacancy "Go Dev" "Acme"; sampleVacancy "QA" "Acme"]))
             eq_refl).
Defined.

Lemma clearing_undoes_attaching_witness :
  let store := [sampleVacancy "Go Dev" "Acme"; sampleVacancy "QA" "Acme"] in
  let selected := Some (sampleVacancy "QA" "Acme") in
  handleFileDrop (fun path => path) ["cv.pdf"] selected store <> store
  /\ clearResume true selected (handleFileDrop (fun path => path) ["cv.pdf"] selected store)
     = store.
Proof.
  cbv zeta. split; [intros Heq; vm_compute in Heq; discriminate Heq|].
  destruct (clearing_undoes_attaching (fun path => path) ["cv.pdf"] (sampleVacancy "QA" "Acme")
              [sampleVacancy "Go Dev" "Acme"; sampleVacancy "QA" "Acme"])
    as (Hundo & _ & Hnone).
  rewrite Hundo. apply Hnone.
  intros k v Hk Hv.
  assert (Hfound : k = 1) by (vm_compute in Hk; now injection Hk as <-).
  subst k. simpl in Hv. injection Hv as <-. split; reflexivity.
Defined.

Lemma combo_index_of_value_witness :
  (exists k,
     possibleStatuses !! k = Some "Откликнулся"
     /\ (forall j, j < k -> possibleStatuses !! j <> Some "Откликнулся")
     /\ detailIndex possibleStatuses "Откликнулся" = Z.of_nat k
     /\ initialIndex possibleStatuses "Откликнулся"
        = if String.eqb "Откликнулся" "" then 0 else k)
  /\ initialIndex possibleStatuses "Принят" = 0
  /\ detailIndex possibleStatuses "Принят" = (-1)%Z.
Proof.
  destruct (combo_index_of_value possibleStatuses "Откликнулся") as (Hlisted & _ & _).
  destruct (combo_index_of_value possibleStatuses "Принят") as (_ & Hother & _).
  split.
  - apply Hlisted. apply list_elem_of_In. simpl. tauto.
  - apply Hother. intros Hin. apply list_elem_of_In in Hin. simpl in Hin.
    repeat (destruct Hin as [Hin|Hin]; [discriminate Hin|]). exact Hin.
Defined.

Lemma client_succeeds_exactly_when_witness :
  exists vs,
    fst (searchVacanciesJooble "go" ""
           (successfulExchange [sampleJob "Go Dev" "https://jooble.org/1" "Acme"])
           neverClosed start) = Vacancies vs.
Proof.
  apply (proj2 (client_succeeds_exactly_when "go" ""
                  (successfulExchange [sampleJob "Go Dev" "https://jooble.org/1" "Acme"])
                  neverClosed start)); [reflexivity|].
  split; [reflexivity|]. split; [reflexivity|].
  eexists _, _, _. repeat split; reflexivity.
Defined.

Lemma protocol_errors_carry_detail_witness :
  fst (searchVacanciesJooble "go" "" (serverError 500 "internal error") neverClosed start)
  = SearchError "ошибка API Jooble (HTTP 500): internal error".
Proof.
  apply (proj1 (protocol_errors_carry_detail "go" "" (serverError 500 "internal error")
                  neverClosed start {| StatusCode := 500; readAll := inr "internal error" |}
                  "internal error" eq_refl eq_refl eq_refl eq_refl eq_refl)).
  simpl. lia.
Defined.

Lemma cancelled_before_first_look_witness :
  fst (runSearch "go" (successfulExchange [sampleJob "Go Dev" "https://jooble.org/1" "Acme"])
         [] (closedFrom 0))
  = {| onlineResultsLabel := LabelCancelled; onlineItems := [] |}.
Proof.
  exact (cancelled_before_first_look "go"
           (successfulExchange [sampleJob "Go Dev" "https://jooble.org/1" "Acme"])
           [] (closedFrom 0) eq_refl).
Defined.

(* ================================================================== *)
(** * [sort.SliceStable] sorts and is stable                           *)
(* ================================================================== *)

(** For a [Less] that reads the slice and applies a strict weak order to
    the two values, the standard library's stable sort (insertion sort on
    blocks of 20, then rounds of in-place merges by [symMerge_func] and
    [rotate_func]) leaves the slice sorted with ties in their first
    order. *)

Section SliceStableSorts.

Context {A : Type}.
Variable before : A -> A -> bool.
Variable Less : list A -> nat -> nat -> bool.

Hypothesis Less_reads : forall data i j x y,
  data !! i = Some x -> data !! j = Some y -> Less data i j = before x y.
Hypothesis before_irrefl : forall x, before x x = false.
Hypothesis before_trans : forall x y z, before x y = true -> before y z = true -> before x z = true.
Hypothesis notAfter_trans : forall x y z, before y x = false -> before z y = false -> before z x = false.

Lemma before_asym (x y : A) : before x y = true -> before y x = false.
Proof.
  intros Hxy. destruct (before y x) eqn:Hyx; [|reflexivity].
  pose proof (before_trans x y x Hxy Hyx) as Hxx. rewrite before_irrefl in Hxx. discriminate.
Qed.

Lemma before_notAfter (x y z : A) : before x y = true -> before z y = false -> before x z = true.
Proof.
  intros Hxy Hyz. destruct (before x z) eqn:Hxz; [reflexivity|].
  pose proof (notAfter_trans y z x Hyz Hxz) as Hc. congruence.
Qed.

Lemma notAfter_before (x y z : A) : before y x = false -> before y z = true -> before x z = true.
Proof.
  intros Hxy Hyz. destruct (before x z) eqn:Hxz; [reflexivity|].
  pose proof (notAfter_trans z x y Hxz Hxy) as Hc. congruence.
Qed.

Lemma sortedRun_app (l1 l2 : list A) :
  sortedRun before (l1 ++ l2) <->
  sortedRun before l1 /\ sortedRun before l2 /\ forall x y, In x l1 -> In y l2 -> before y x = false.
Proof.
  induction l1 as [|a l1 IH]; simpl.
  - split.
    + intros H. split; [exact I|]. split; [exact H|]. intros x y [].
    + intros (_ & H & _). exact H.
  - rewrite IH, Forall_app. split.
    + intros ([Ha1 Ha2] & H1 & H2 & H12).
      split; [now split|]. split; [exact H2|].
      intros x y [<-|Hx] Hy.
      * rewrite Forall_forall in Ha2. apply Ha2. now apply list_elem_of_In.
      * now apply H12.
    + intros ([Ha H1] & H2 & H12).
      split; [split; [exact Ha|]|].
      * rewrite Forall_forall. intros y Hy. apply list_elem_of_In in Hy.
        apply H12; [now left | exact Hy].
      * split; [exact H1|]. split; [exact H2|].
        intros x y Hx Hy. apply H12; [now right | exact Hy].
Qed.

Lemma sortedRun_singleton (x : A) : sortedRun before [x].
Proof. simpl. split; [constructor | exact I]. Qed.

Lemma sortedRun_lookup (l : list A) : sortedRun before l <-> ascending before l.
Proof.
  unfold ascending. split.
  - induction l as [|a l IH]; intros Hrun i j x y Hij Hi Hj.
    + discriminate.
    + destruct Hrun as [Ha Hl].
      destruct i as [|i], j as [|j]; simpl in Hi, Hj.
      * injection Hi as <-. injection Hj as <-. apply before_irrefl.
      * injection Hi as <-. rewrite Forall_forall in Ha. apply Ha.
        apply list_elem_of_lookup. eauto.
      * lia.
      * apply (IH Hl i j); [lia | exact Hi | exact Hj].
  - induction l as [|a l IH]; intros Hasc; [exact I|].
    split.
    + rewrite Forall_forall. intros y Hy. apply list_elem_of_lookup in Hy.
      destruct Hy as [j Hj]. apply (Hasc 0 (S j)); [lia | reflexivity | exact Hj].
    + apply IH. intros i j x y Hij Hi Hj. apply (Hasc (S i) (S j)); [lia | exact Hi | exact Hj].
Qed.

Lemma filter_none (f : A -> bool) (l : list A) :
  (forall y, In y l -> f y = false) -> List.filter f l = [].
Proof.
  induction l as [|a l IH]; intros Hf; simpl; [reflexivity|].
  rewrite (Hf a) by now left. apply IH. intros y Hy. apply Hf. now right.
Qed.

Lemma tied_refl (x : A) : tied before x x = true.
Proof. unfold tied. now rewrite before_irrefl. Qed.

(** Exchanging two neighbouring blocks of which one sorts entirely before
    the other leaves the ties in their order. *)
Lemma ties_exchange (P Q : list A) (e : A) :
  (forall x y, In x P -> In y Q -> before x y = true) ->
  List.filter (tied before e) (Q ++ P) = List.filter (tied before e) (P ++ Q).
Proof.
  intros Hlt. rewrite !List.filter_app.
  destruct (List.filter (tied before e) P) as [|x P'] eqn:HP.
  - now rewrite app_nil_r.
  - assert (Hx : In x (List.filter (tied before e) P)) by (rewrite HP; now left).
    apply filter_In in Hx. destruct Hx as [Hx Hex].
    rewrite (filter_none (tied before e) Q); [now rewrite app_nil_r|].
    intros y Hy. specialize (Hlt x y Hx Hy).
    unfold tied in *. apply andb_true_iff in Hex. destruct Hex as [Hex Hxe].
    apply negb_true_iff in Hex, Hxe.
    destruct (before e y) eqn:Hey; [reflexivity|]. simpl.
    destruct (before y e) eqn:Hye; [reflexivity|]. exfalso.
    pose proof (notAfter_trans y e x Hey Hxe) as Hc. congruence.
Qed.

(** ** [Swap] on a slice written as its pieces *)

Lemma Swap_pieces (l1 l2 l3 : list A) (x y : A) :
  Swap (l1 ++ x :: l2 ++ y :: l3) (length l1) (length l1 + S (length l2))
  = l1 ++ y :: l2 ++ x :: l3.
Proof.
  unfold Swap.
  rewrite list_lookup_middle by reflexivity.
  replace (l1 ++ x :: l2 ++ y :: l3) with ((l1 ++ x :: l2) ++ y :: l3)
    by now rewrite <- app_assoc.
  rewrite (list_lookup_middle (l1 ++ x :: l2) l3 y)
    by (rewrite length_app; simpl; lia).
  rewrite <- app_assoc. simpl.
  rewrite insert_app_r. simpl.
  replace (length l2) with (length l2 + 0) at 1 by lia.
  rewrite insert_app_r. simpl.
  replace (length l1) with (length l1 + 0) at 1 by lia.
  now rewrite insert_app_r.
Qed.

Lemma Swap_comm (data : list A) (i j : nat) : Swap data i j = Swap data j i.
Proof.
  unfold Swap.
  destruct (data !! i) as [x|] eqn:Hi, (data !! j) as [y|] eqn:Hj; try reflexivity.
  destruct (decide (i = j)) as [->|Hne].
  - congruence.
  - now apply list_insert_insert_ne.
Qed.

Lemma Swap_neighbours (pre post : list A) (x y : A) (k : nat) :
  k = length pre ->
  Swap (pre ++ x :: y :: post) k (k + 1) = pre ++ y :: x :: post
  /\ Swap (pre ++ x :: y :: post) (k + 1) k = pre ++ y :: x :: post.
Proof.
  intros ->. rewrite (Swap_comm _ (length pre + 1)).
  pose proof (Swap_pieces pre [] post x y) as H. simpl in H.
  replace (length pre + 1) with (length pre + 1) by lia. now split.
Qed.

Lemma sortsTo_In (w seg : list A) (x : A) : sortsTo before w seg -> In x w -> In x seg.
Proof.
  intros (_ & Hperm & _) Hx. apply list_elem_of_In. rewrite <- Hperm.
  now apply list_elem_of_In.
Qed.

Lemma sortsTo_length (w seg : list A) : sortsTo before w seg -> length w = length seg.
Proof. intros (_ & Hperm & _). now rewrite Hperm. Qed.

(** ** Insertion sort *)

Lemma insertLoop_spec (s pre post : list A) (x : A) :
  sortedRun before s ->
  exists lo hi,
    s = lo ++ hi
    /\ insertLoop Less (length pre) (pre ++ s ++ x :: post) (length pre + length s)
       = pre ++ lo ++ x :: hi ++ post
    /\ (forall y, In y hi -> before x y = true)
    /\ (forall y, In y lo -> before x y = false).
Proof.
  revert post. induction s as [|y s IH] using rev_ind; intros post Hrun.
  - exists [], []. split; [reflexivity|]. split; [|split; intros y []].
    simpl. rewrite Nat.add_0_r.
    destruct (length pre) as [|a] eqn:Ha; simpl; [reflexivity|].
    now rewrite Nat.ltb_irrefl.
  - apply sortedRun_app in Hrun. destruct Hrun as (Hs & _ & Hsy).
    rewrite length_app. simpl.
    replace (length pre + (length s + 1)) with (S (length pre + length s)) by lia.
    cbn [insertLoop].
    assert (Hlt : (length pre <? S (length pre + length s))%nat = true)
      by (apply Nat.ltb_lt; lia).
    rewrite Hlt. cbn [andb].
    assert (Hdata : pre ++ (s ++ [y]) ++ x :: post = (pre ++ s) ++ y :: x :: post)
      by (now rewrite <- !app_assoc).
    rewrite Hdata.
    assert (Hlen : length pre + length s = length (pre ++ s))
      by (now rewrite length_app).
    rewrite (Less_reads _ _ _ x y).
    2: { rewrite Hlen. replace (pre ++ s) with (pre ++ s) by reflexivity.
         replace ((pre ++ s) ++ y :: x :: post) with (((pre ++ s) ++ [y]) ++ x :: post)
           by (now rewrite <- !app_assoc).
         apply list_lookup_middle. rewrite !length_app. simpl. lia. }
    2: { rewrite Hlen. now apply list_lookup_middle. }
    destruct (before x y) eqn:Hxy.
    + destruct (Swap_neighbours (pre ++ s) post y x (length pre + length s) Hlen)
        as [_ Hswap].
      replace (S (length pre + length s)) with (length pre + length s + 1) by lia.
      rewrite Hswap. rewrite <- app_assoc.
      destruct (IH (y :: post) Hs) as (lo & hi & -> & Hloop & Hhi & Hlo).
      rewrite length_app in Hloop. rewrite length_app. rewrite Hloop.
      exists lo, (hi ++ [y]). split; [now rewrite <- app_assoc|].
      split; [now rewrite <- !app_assoc|]. split; [|exact Hlo].
      intros z Hz. apply in_app_iff in Hz. destruct Hz as [Hz|[<-|[]]]; auto.
    + exists (s ++ [y]), []. split; [now rewrite app_nil_r|].
      split; [now rewrite <- !app_assoc|]. split; [intros z []|].
      intros z Hz. apply in_app_iff in Hz. destruct Hz as [Hz|[<-|[]]]; [|exact Hxy].
      apply (notAfter_trans z y x); [|exact Hxy]. apply Hsy; [exact Hz | now left].
Qed.

Lemma insertion_keeps_sortedRun (lo hi : list A) (x : A) :
  sortedRun before (lo ++ hi) ->
  (forall y, In y hi -> before x y = true) ->
  (forall y, In y lo -> before x y = false) ->
  sortedRun before (lo ++ x :: hi).
Proof.
  intros Hrun Hhi Hlo. apply sortedRun_app in Hrun. destruct Hrun as (Hl & Hh & Hlh).
  apply sortedRun_app. split; [exact Hl|]. split.
  - simpl. split; [|exact Hh]. rewrite Forall_forall. intros y Hy.
    apply list_elem_of_In in Hy. apply before_asym. now apply Hhi.
  - intros a b Ha [<-|Hb]; [now apply Hlo | now apply Hlh].
Qed.

Lemma insertionSort_steps (rest s pre post : list A) :
  sortedRun before s ->
  exists w,
    fold_left (insertLoop Less (length pre)) (seq (length pre + length s) (length rest))
      (pre ++ s ++ rest ++ post) = pre ++ w ++ post
    /\ sortsTo before w (s ++ rest).
Proof.
  revert s. induction rest as [|x rest IH]; intros s Hrun.
  - exists s. simpl. split; [reflexivity|]. rewrite app_nil_r.
    split; [exact Hrun|]. split; [reflexivity | intros e; reflexivity].
  - simpl.
    destruct (insertLoop_spec s pre (rest ++ post) x Hrun) as (lo & hi & -> & Hloop & Hhi & Hlo).
    rewrite Hloop.
    destruct (IH (lo ++ x :: hi) (insertion_keeps_sortedRun lo hi x Hrun Hhi Hlo))
      as (w & Hfold & Hw & Hperm & Hties).
    rewrite <- !app_assoc in Hfold. simpl in Hfold.
    rewrite !length_app in Hfold. simpl in Hfold.
    rewrite length_app.
    replace (S (length pre + (length lo + length hi)))
      with (length pre + (length lo + S (length hi))) by lia.
    rewrite <- app_assoc. rewrite Hfold.
    exists w. split; [reflexivity|]. split; [exact Hw|]. split.
    + rewrite Hperm. rewrite <- !app_assoc. simpl.
      apply Permutation_app_head. apply Permutation_middle.
    + intros e. rewrite Hties.
      rewrite <- !app_assoc. rewrite (List.filter_app _ lo), (List.filter_app _ lo).
      f_equal.
      change (x :: hi ++ rest) with (([x] ++ hi) ++ rest).
      change (hi ++ x :: rest) with (hi ++ [x] ++ rest). rewrite (app_assoc hi).
      rewrite (List.filter_app _ ([x] ++ hi)), (List.filter_app _ (hi ++ [x])).
      f_equal. symmetry. apply ties_exchange.
      intros a b [<-|[]] Hb. now apply Hhi.
Qed.

Lemma insertionSort_spec (pre seg post : list A) :
  exists w,
    insertionSort_func Less (pre ++ seg ++ post) (length pre) (length pre + length seg)
    = pre ++ w ++ post
    /\ sortsTo before w seg.
Proof.
  unfold insertionSort_func. destruct seg as [|x seg].
  - exists []. simpl. rewrite Nat.add_0_r.
    replace (length pre - (length pre + 1)) with 0 by lia. simpl.
    split; [reflexivity|]. split; [exact I|]. split; [reflexivity | intros e; reflexivity].
  - destruct (insertionSort_steps seg [x] pre post (sortedRun_singleton x)) as (w & Hfold & Hw).
    simpl in Hfold. simpl.
    replace (length pre + S (length seg) - (length pre + 1)) with (length seg) by lia.
    rewrite Hfold. now exists w.
Qed.


(** ** Exchanging blocks *)

Lemma swapRange_steps (n : nat) :
  forall (k a b : nat) (pre u mid v post : list A),
    length u = n -> length v = n ->
    length pre = a + k -> length pre + n + length mid = b + k ->
    fold_left (fun d i => Swap d (a + i) (b + i)) (seq k n) (pre ++ u ++ mid ++ v ++ post)
    = pre ++ v ++ mid ++ u ++ post.
Proof.
  induction n as [|n IH]; intros k a b pre u mid v post Hu Hv Ha Hb.
  - destruct u; [|discriminate]. destruct v; [|discriminate]. reflexivity.
  - destruct u as [|x u]; [discriminate|]. destruct v as [|y v]; [discriminate|].
    injection Hu as Hu. injection Hv as Hv. simpl.
    replace (pre ++ x :: u ++ mid ++ y :: v ++ post)
      with (pre ++ x :: (u ++ mid) ++ y :: (v ++ post))
      by (now rewrite <- !app_assoc).
    replace (a + k) with (length pre) by lia.
    replace (b + k) with (length pre + S (length (u ++ mid)))
      by (rewrite length_app; lia).
    rewrite Swap_pieces.
    replace (pre ++ y :: (u ++ mid) ++ x :: v ++ post)
      with ((pre ++ [y]) ++ u ++ (mid ++ [x]) ++ v ++ post)
      by (rewrite <- !app_assoc; reflexivity).
    rewrite (IH (S k) a b (pre ++ [y]) u (mid ++ [x]) v post Hu Hv);
      [| rewrite length_app; simpl; lia | rewrite !length_app; simpl; lia].
    rewrite <- !app_assoc. reflexivity.
Qed.

Lemma swapRange_spec (pre u mid v post : list A) (a b n : nat) :
  length u = n -> length v = n -> a = length pre -> b = length pre + n + length mid ->
  swapRange_func (pre ++ u ++ mid ++ v ++ post) a b n = pre ++ v ++ mid ++ u ++ post.
Proof.
  intros Hu Hv -> ->. unfold swapRange_func.
  apply swapRange_steps; [exact Hu | exact Hv | lia | lia].
Qed.

Lemma split_at (n : nat) (l : list A) :
  n <= length l -> exists l1 l2, l = l1 ++ l2 /\ length l1 = n /\ length l2 = length l - n.
Proof.
  intros Hn. exists (take n l), (drop n l).
  rewrite take_drop, length_take, length_drop. repeat split; lia.
Qed.

Lemma rotateLoop_spec (fuel : nat) :
  forall (pre u v post : list A) (m i j : nat),
    i = length u -> j = length v ->
    0 < i -> 0 < j -> i + j <= fuel -> m = length pre + i ->
    swapRange_func (fst (rotateLoop fuel (pre ++ u ++ v ++ post) m i j))
      (m - snd (rotateLoop fuel (pre ++ u ++ v ++ post) m i j)) m
      (snd (rotateLoop fuel (pre ++ u ++ v ++ post) m i j))
    = pre ++ v ++ u ++ post.
Proof.
  induction fuel as [|fuel IH]; intros pre u v post m i j Hi Hj Hipos Hjpos Hfuel Hm.
  - lia.
  - cbn [rotateLoop].
    destruct (i =? j)%nat eqn:Heq.
    + apply Nat.eqb_eq in Heq. cbn [fst snd].
      pose proof (swapRange_spec pre u [] v post (m - i) m i) as Hswap.
      simpl in Hswap. apply Hswap; lia.
    + apply Nat.eqb_neq in Heq.
      destruct (j <? i)%nat eqn:Hlt.
      * apply Nat.ltb_lt in Hlt.
        destruct (split_at j u) as (u1 & u2 & -> & Hu1 & Hu2); [lia|].
        rewrite <- (app_assoc u1).
        rewrite (swapRange_spec pre u1 u2 v post (m - i) m j);
          [| lia | lia | lia | rewrite length_app in Hi; lia].
        replace (pre ++ v ++ u2 ++ u1 ++ post) with ((pre ++ v) ++ u2 ++ u1 ++ post)
          by (now rewrite <- app_assoc).
        rewrite (IH (pre ++ v) u2 u1 post m (i - j) j);
          [| rewrite length_app in Hi; lia | lia | lia | lia | lia
           | rewrite length_app; lia].
        now rewrite <- !app_assoc.
      * apply Nat.ltb_ge in Hlt.
        destruct (split_at (j - i) v) as (v1 & v2 & -> & Hv1 & Hv2); [lia|].
        rewrite <- (app_assoc v1).
        rewrite (swapRange_spec pre u v1 v2 post (m - i) (m + j - i) i);
          [| lia | rewrite length_app in Hj; lia | lia | lia].
        rewrite (IH pre v2 v1 (u ++ post) m i (j - i));
          [| rewrite length_app in Hj; lia | lia | lia | lia | lia | lia].
        now rewrite <- !app_assoc.
Qed.

Lemma rotate_spec (pre u v post : list A) (a m b : nat) :
  u <> [] -> v <> [] ->
  a = length pre -> m = a + length u -> b = m + length v ->
  rotate_func (pre ++ u ++ v ++ post) a m b = pre ++ v ++ u ++ post.
Proof.
  intros Hu Hv -> -> ->. unfold rotate_func.
  assert (Hupos : 0 < length u) by (destruct u; [contradiction | simpl; lia]).
  assert (Hvpos : 0 < length v) by (destruct v; [contradiction | simpl; lia]).
  pose proof (rotateLoop_spec (length u + length v) pre u v post
                (length pre + length u) (length u) (length v)
                eq_refl eq_refl Hupos Hvpos (le_n _) eq_refl) as Hrot.
  replace (length pre + length u + length v - length pre) with (length u + length v) by lia.
  replace (length pre + length u - length pre) with (length u) by lia.
  replace (length pre + length u + length v - (length pre + length u))
    with (length v) by lia.
  destruct (rotateLoop _ _ _ _ _) as [d i]. exact Hrot.
Qed.

(** ** The binary searches *)

Lemma search_spec (cond : nat -> bool) (fuel : nat) :
  forall i j,
    j - i <= fuel -> i <= j ->
    (forall h h', i <= h -> h <= h' -> h' < j -> cond h' = true -> cond h = true) ->
    i <= search fuel cond i j <= j
    /\ (forall h, i <= h -> h < search fuel cond i j -> cond h = true)
    /\ (forall h, search fuel cond i j <= h -> h < j -> cond h = false).
Proof.
  induction fuel as [|fuel IH]; intros i j Hfuel Hij Hmono.
  - simpl. split; [lia|]. split; intros h Hh Hh'; lia.
  - cbn [search]. destruct (i <? j)%nat eqn:Hlt.
    2: { apply Nat.ltb_ge in Hlt. split; [lia|]. split; intros h Hh Hh'; lia. }
    apply Nat.ltb_lt in Hlt. cbv zeta.
    assert (Hh : i <= (i + j) / 2 < j).
    { pose proof (Nat.div_mod_eq (i + j) 2) as Hdiv.
      pose proof (Nat.mod_upper_bound (i + j) 2). lia. }
    set (h := (i + j) / 2) in *.
    destruct (cond h) eqn:Hc.
    + destruct (IH (h + 1) j) as (Hr & Htrue & Hfalse); [lia | lia | |].
      { intros h1 h2 H1 H2 H3. apply Hmono; lia. }
      split; [lia|]. split; [|intros h0 H0 H0'; apply Hfalse; lia].
      intros h0 H0 H0'. destruct (Nat.le_gt_cases h0 h) as [Hle|Hgt].
      * apply (Hmono h0 h); [lia | lia | lia | exact Hc].
      * apply Htrue; lia.
    + destruct (IH i h) as (Hr & Htrue & Hfalse); [lia | lia | |].
      { intros h1 h2 H1 H2 H3. apply Hmono; lia. }
      split; [lia|]. split; [intros h0 H0 H0'; apply Htrue; lia|].
      intros h0 H0 H0'. destruct (Nat.lt_ge_cases h0 h) as [Hlt'|Hge].
      * apply Hfalse; lia.
      * destruct (cond h0) eqn:Hc0; [|reflexivity].
        rewrite (Hmono h h0) in Hc; [discriminate | lia | lia | lia | exact Hc0].
Qed.

(** ** Carrying one value through a run *)

Lemma carry_right (lo : list A) :
  forall (pre rest : list A) (x : A) (a : nat),
    a = length pre ->
    fold_left (fun d k => Swap d k (k + 1)) (seq a (length lo)) (pre ++ x :: lo ++ rest)
    = pre ++ lo ++ x :: rest.
Proof.
  induction lo as [|y lo IH]; intros pre rest x a Ha; [reflexivity|].
  simpl. destruct (Swap_neighbours pre (lo ++ rest) x y a Ha) as [Hswap _].
  rewrite Hswap.
  replace (pre ++ y :: x :: lo ++ rest) with ((pre ++ [y]) ++ x :: lo ++ rest)
    by (now rewrite <- app_assoc).
  rewrite (IH (pre ++ [y]) rest x (S a)) by (rewrite length_app; simpl; lia).
  now rewrite <- app_assoc.
Qed.

Lemma carry_left (hi : list A) :
  forall (pre post : list A) (y : A) (i : nat),
    i = length pre ->
    fold_left (fun d k => Swap d k (k - 1)) (rev (seq (i + 1) (length hi)))
      (pre ++ hi ++ y :: post)
    = pre ++ y :: hi ++ post.
Proof.
  induction hi as [|z hi IH] using rev_ind; intros pre post y i Hi; [reflexivity|].
  rewrite length_app. simpl. rewrite seq_app. simpl. rewrite rev_app_distr. simpl.
  replace (i + 1 + length hi - 1) with (length (pre ++ hi))
    by (rewrite length_app; lia).
  replace (i + 1 + length hi) with (length (pre ++ hi) + 1)
    by (rewrite length_app; lia).
  replace (pre ++ (hi ++ [z]) ++ y :: post) with ((pre ++ hi) ++ z :: y :: post)
    by (now rewrite <- !app_assoc).
  destruct (Swap_neighbours (pre ++ hi) post z y (length (pre ++ hi)) eq_refl) as [_ Hswap].
  rewrite Hswap. rewrite <- app_assoc.
  rewrite (IH pre (z :: post) y i Hi). now rewrite <- app_assoc.
Qed.

(** ** Merging two sorted runs *)

Lemma sortsTo_refl (l : list A) : sortedRun before l -> sortsTo before l l.
Proof. intros Hl. split; [exact Hl|]. split; [reflexivity | intros e; reflexivity]. Qed.

(** Two runs cut so that the front of the second sorts strictly before
    the back of the first, and the front of the first not after the back
    of the second: sorting the fronts and the backs apart sorts the
    whole. *)
Lemma sortsTo_blocks (u1 u2 v1 v2 w1 w2 : list A) :
  sortedRun before (u1 ++ u2) -> sortedRun before (v1 ++ v2) ->
  (forall x y, In x u1 -> In y v2 -> before y x = false) ->
  (forall x y, In x u2 -> In y v1 -> before y x = true) ->
  sortsTo before w1 (u1 ++ v1) -> sortsTo before w2 (u2 ++ v2) ->
  sortsTo before (w1 ++ w2) ((u1 ++ u2) ++ v1 ++ v2).
Proof.
  intros Hu Hv C1 C2 H1 H2.
  apply sortedRun_app in Hu. destruct Hu as (_ & _ & Hu).
  apply sortedRun_app in Hv. destruct Hv as (_ & _ & Hv).
  split; [|split].
  - apply sortedRun_app. split; [apply H1|]. split; [apply H2|].
    intros x y Hx Hy.
    apply (sortsTo_In _ _ _ H1), in_app_iff in Hx.
    apply (sortsTo_In _ _ _ H2), in_app_iff in Hy.
    destruct Hx as [Hx|Hx], Hy as [Hy|Hy]; auto.
    apply before_asym. now apply C2.
  - destruct H1 as (_ & P1 & _). destruct H2 as (_ & P2 & _).
    rewrite P1, P2. rewrite <- !app_assoc. apply Permutation_app_head.
    rewrite !app_assoc. apply Permutation_app_tail. apply Permutation_app_comm.
  - intros e. destruct H1 as (_ & _ & T1). destruct H2 as (_ & _ & T2).
    rewrite List.filter_app, T1, T2. rewrite <- !List.filter_app.
    rewrite <- !app_assoc.
    rewrite (List.filter_app _ u1), (List.filter_app _ u1). f_equal.
    rewrite !app_assoc.
    rewrite (List.filter_app _ (v1 ++ u2)), (List.filter_app _ (u2 ++ v1)). f_equal.
    symmetry. apply ties_exchange. intros x y Hx Hy. now apply C2.
Qed.

Lemma lookup_piece (pre seg rest : list A) (c : nat) :
  length pre <= c -> c < length pre + length seg ->
  (pre ++ seg ++ rest) !! c = seg !! (c - length pre).
Proof.
  intros Hlo Hhi. rewrite lookup_app_r by lia. apply lookup_app_l. lia.
Qed.

Lemma Less_across (pre u v post : list A) (c h : nat) (x y : A) :
  length pre <= c -> c < length pre + length u ->
  length pre + length u <= h -> h < length pre + length u + length v ->
  u !! (c - length pre) = Some x ->
  v !! (h - (length pre + length u)) = Some y ->
  Less (pre ++ u ++ v ++ post) h c = before y x
  /\ Less (pre ++ u ++ v ++ post) c h = before x y.
Proof.
  intros Hc1 Hc2 Hh1 Hh2 Hx Hy.
  assert (Hdc : (pre ++ u ++ v ++ post) !! c = Some x)
    by (rewrite lookup_piece by lia; exact Hx).
  assert (Hdh : (pre ++ u ++ v ++ post) !! h = Some y).
  { rewrite (app_assoc pre u). rewrite lookup_piece by (rewrite length_app; lia).
    rewrite length_app. exact Hy. }
  split; now apply Less_reads.
Qed.

Lemma lookup_exists (l : list A) (k : nat) : k < length l -> exists x, l !! k = Some x.
Proof. intros Hk. now apply lookup_lt_is_Some_2. Qed.

Lemma In_lookup (l : list A) (x : A) : In x l -> exists k, l !! k = Some x.
Proof. intros Hx. apply list_elem_of_In in Hx. now apply list_elem_of_lookup_1. Qed.

Lemma symMerge_split (pre u v post : list A) (a m b start0 r : nat) :
  sortedRun before u -> sortedRun before v ->
  a = length pre -> m = a + length u -> b = m + length v ->
  1 <= length u -> 1 <= length v ->
  (start0, r) = (if ((a + b) / 2 <? m)%nat
                 then ((a + b) / 2 + m - b, (a + b) / 2) else (a, m)) ->
  let start :=
    search (r - start0)
      (fun c => negb (Less (pre ++ u ++ v ++ post) ((a + b) / 2 + m - 1 - c) c)) start0 r in
  let end_ := (a + b) / 2 + m - start in
  exists u1 u2 v1 v2,
    u = u1 ++ u2 /\ v = v1 ++ v2
    /\ length u1 = start - a /\ length v1 = end_ - m
    /\ a <= start /\ start <= m /\ m <= end_ /\ end_ <= b
    /\ start + (end_ - m) = (a + b) / 2
    /\ (forall x y, In x u1 -> In y v2 -> before y x = false)
    /\ (forall x y, In x u2 -> In y v1 -> before y x = true).
Proof.
  intros Hu Hv Ha Hm Hb Hulen Hvlen Hsr.
  apply sortedRun_lookup in Hu. apply sortedRun_lookup in Hv.
  pose proof (Nat.div_mod_eq (a + b) 2) as Hdiv.
  pose proof (Nat.mod_upper_bound (a + b) 2 ltac:(lia)) as Hmod.
  set (mid := (a + b) / 2) in *.
  assert (Hbounds : a <= start0 /\ start0 <= r /\ r <= m
                    /\ forall c, start0 <= c -> c < r ->
                                 m <= mid + m - 1 - c /\ mid + m - 1 - c < b).
  { destruct (mid <? m)%nat eqn:Hmid; injection Hsr as -> ->.
    - apply Nat.ltb_lt in Hmid. repeat split; lia.
    - apply Nat.ltb_ge in Hmid. repeat split; lia. }
  destruct Hbounds as (Hs0 & Hs0r & Hrm & Hrange).
  set (data := pre ++ u ++ v ++ post).
  set (cond := fun c => negb (Less data (mid + m - 1 - c) c)).
  assert (Hcond : forall c x y, start0 <= c -> c < r ->
            u !! (c - a) = Some x -> v !! (mid + m - 1 - c - m) = Some y ->
            cond c = negb (before y x)).
  { intros c x y Hc1 Hc2 Hx Hy. unfold cond, data.
    destruct (Hrange c Hc1 Hc2) as [Hp1 Hp2].
    destruct (Less_across pre u v post c (mid + m - 1 - c) x y) as [HL _];
      try lia; [now rewrite <- Ha | now replace (length pre + length u) with m by lia|].
    now rewrite HL. }
  assert (Hget : forall c, start0 <= c -> c < r ->
            exists x y, u !! (c - a) = Some x /\ v !! (mid + m - 1 - c - m) = Some y).
  { intros c Hc1 Hc2. destruct (Hrange c Hc1 Hc2) as [Hp1 Hp2].
    destruct (lookup_exists u (c - a)) as [x Hx]; [lia|].
    destruct (lookup_exists v (mid + m - 1 - c - m)) as [y Hy]; [lia|].
    now exists x, y. }
  destruct (search_spec cond (r - start0) start0 r) as (Hsr' & Htrue & Hfalse);
    [lia | lia | |].
  { intros h h' H1 H2 H3 Hc'.
    destruct (Hget h) as (x & y & Hx & Hy); [lia | lia|].
    destruct (Hget h') as (x' & y' & Hx' & Hy'); [lia | lia|].
    rewrite (Hcond h x y) by (try lia; assumption).
    rewrite (Hcond h' x' y') in Hc' by (try lia; assumption).
    apply negb_true_iff in Hc'. apply negb_true_iff.
    assert (Hxx : before x' x = false) by (apply (Hu (h - a) (h' - a)); [lia | exact Hx | exact Hx']).
    assert (Hyy : before y y' = false)
      by (apply (Hv (mid + m - 1 - h' - m) (mid + m - 1 - h - m)); [lia | exact Hy' | exact Hy]).
    apply (notAfter_trans x x' y Hxx). apply (notAfter_trans x' y' y Hc' Hyy). }
  cbv zeta. fold data. fold cond.
  set (start := search (r - start0) cond start0 r) in *.
  destruct (split_at (start - a) u) as (u1 & u2 & Hu12 & Hu1 & Hu2); [lia|].
  assert (Hend : m <= mid + m - start /\ mid + m - start <= b).
  { destruct (mid <? m)%nat eqn:Hmid; injection Hsr as -> ->.
    - apply Nat.ltb_lt in Hmid. lia.
    - apply Nat.ltb_ge in Hmid. lia. }
  destruct (split_at (mid + m - start - m) v) as (v1 & v2 & Hv12 & Hv1 & Hv2); [lia|].
  exists u1, u2, v1, v2.
  split; [exact Hu12|]. split; [exact Hv12|]. split; [exact Hu1|]. split; [exact Hv1|].
  split; [lia|]. split; [lia|]. split; [lia|]. split; [lia|]. split; [lia|].
  split.
  - intros x y Hx Hy.
    destruct (In_lookup _ _ Hx) as [k Hk]. destruct (In_lookup _ _ Hy) as [k' Hk'].
    pose proof (lookup_lt_Some _ _ _ Hk) as Hklt.
    pose proof (lookup_lt_Some _ _ _ Hk') as Hklt'.
    assert (Hux : u !! k = Some x) by (rewrite Hu12; now apply lookup_app_l_Some).
    assert (Hvy : v !! (length v1 + k') = Some y)
      by (rewrite Hv12, lookup_app_r by lia; now replace (length v1 + k' - length v1) with k' by lia).
    assert (Hgt : start0 < start).
    { destruct (mid <? m)%nat eqn:Hmid; injection Hsr as -> ->.
      - apply Nat.ltb_lt in Hmid. lia.
      - apply Nat.ltb_ge in Hmid. lia. }
    destruct (Hget (start - 1)) as (x0 & y0 & Hx0 & Hy0); [lia | lia|].
    pose proof (Htrue (start - 1) ltac:(lia) ltac:(lia)) as Hc.
    rewrite (Hcond (start - 1) x0 y0) in Hc by (try lia; assumption).
    apply negb_true_iff in Hc.
    assert (Hxx : before x0 x = false) by (apply (Hu k (start - 1 - a)); [lia | exact Hux | exact Hx0]).
    assert (Hyy : before y y0 = false)
      by (apply (Hv (mid + m - 1 - (start - 1) - m) (length v1 + k')); [lia | exact Hy0 | exact Hvy]).
    apply (notAfter_trans x x0 y Hxx). apply (notAfter_trans x0 y0 y Hc Hyy).
  - intros x y Hx Hy.
    destruct (In_lookup _ _ Hx) as [k Hk]. destruct (In_lookup _ _ Hy) as [k' Hk'].
    pose proof (lookup_lt_Some _ _ _ Hk) as Hklt.
    pose proof (lookup_lt_Some _ _ _ Hk') as Hklt'.
    assert (Hux : u !! (length u1 + k) = Some x)
      by (rewrite Hu12, lookup_app_r by lia; now replace (length u1 + k - length u1) with k by lia).
    assert (Hvy : v !! k' = Some y) by (rewrite Hv12; now apply lookup_app_l_Some).
    assert (Hlt : start < r).
    { destruct (mid <? m)%nat eqn:Hmid; injection Hsr as -> ->.
      - apply Nat.ltb_lt in Hmid. lia.
      - apply Nat.ltb_ge in Hmid. lia. }
    destruct (Hget start) as (x0 & y0 & Hx0 & Hy0); [lia | lia|].
    pose proof (Hfalse start ltac:(lia) ltac:(lia)) as Hc.
    rewrite (Hcond start x0 y0) in Hc by (try lia; assumption).
    apply negb_false_iff in Hc.
    assert (Hxx : before x x0 = false) by (apply (Hu (start - a) (length u1 + k)); [lia | exact Hx0 | exact Hux]).
    assert (Hyy : before y0 y = false)
      by (apply (Hv k' (mid + m - 1 - start - m)); [lia | exact Hvy | exact Hy0]).
    apply (before_notAfter y x0 x); [|exact Hxx].
    apply (notAfter_before y y0 x0 Hyy Hc).
Qed.

Lemma nonempty_length (l : list A) : l <> [] <-> 0 < length l.
Proof. destruct l; simpl; split; intros; try lia; congruence. Qed.

(** The part of [symMerge_func] after the search: rotate, then merge the
    two halves. *)
Lemma symMerge_halves (fuel : nat) (pre u1 u2 v1 v2 post : list A)
    (a m b start end_ mid : nat) :
  merges before Less fuel ->
  sortedRun before (u1 ++ u2) -> sortedRun before (v1 ++ v2) ->
  (forall x y, In x u1 -> In y v2 -> before y x = false) ->
  (forall x y, In x u2 -> In y v1 -> before y x = true) ->
  a = length pre -> start = a + length u1 -> m = start + length u2 ->
  end_ = m + length v1 -> b = end_ + length v2 -> mid = start + length v1 ->
  0 < length u1 + length v1 -> 0 < length u2 + length v2 ->
  length u1 + length u2 + length v1 + length v2 <= S fuel ->
  let data := pre ++ (u1 ++ u2) ++ (v1 ++ v2) ++ post in
  let data1 :=
    if (start <? m)%nat && (m <? end_)%nat then rotate_func data start m end_ else data in
  let data2 :=
    if (a <? start)%nat && (start <? mid)%nat
    then symMerge_func Less fuel data1 a start mid else data1 in
  exists w,
    (if (mid <? end_)%nat && (end_ <? b)%nat
     then symMerge_func Less fuel data2 mid end_ b else data2) = pre ++ w ++ post
    /\ sortsTo before w ((u1 ++ u2) ++ v1 ++ v2).
Proof.
  intros IH Hu Hv C1 C2 Ha Hstart Hm Hend Hb Hmid Hupos Hvpos Hfuel data data1 data2.
  pose proof Hu as Hu'. apply sortedRun_app in Hu'. destruct Hu' as (Hu1 & Hu2 & _).
  pose proof Hv as Hv'. apply sortedRun_app in Hv'. destruct Hv' as (Hv1 & Hv2 & _).
  assert (Hdata1 : data1 = pre ++ u1 ++ v1 ++ u2 ++ v2 ++ post).
  { unfold data1, data.
    destruct (start <? m)%nat eqn:H1; [destruct (m <? end_)%nat eqn:H2|]; cbn [andb].
    - apply Nat.ltb_lt in H1, H2.
      replace (pre ++ (u1 ++ u2) ++ (v1 ++ v2) ++ post)
        with ((pre ++ u1) ++ u2 ++ v1 ++ v2 ++ post) by (now rewrite <- !app_assoc).
      rewrite (rotate_spec (pre ++ u1) u2 v1 (v2 ++ post) start m end_);
        [now rewrite <- !app_assoc | apply nonempty_length; lia | apply nonempty_length; lia
         | rewrite length_app; lia | lia | lia].
    - apply Nat.ltb_ge in H2.
      assert (v1 = []) as -> by (apply length_zero_iff_nil; lia).
      now rewrite <- !app_assoc.
    - apply Nat.ltb_ge in H1.
      assert (u2 = []) as -> by (apply length_zero_iff_nil; lia).
      rewrite app_nil_r. now rewrite <- !app_assoc. }
  assert (Hdata2 : exists w1, data2 = pre ++ w1 ++ u2 ++ v2 ++ post /\ sortsTo before w1 (u1 ++ v1)).
  { unfold data2. rewrite Hdata1.
    destruct (a <? start)%nat eqn:H1; [destruct (start <? mid)%nat eqn:H2|]; cbn [andb].
    - apply Nat.ltb_lt in H1, H2.
      destruct (IH pre u1 v1 (u2 ++ v2 ++ post) a start mid) as (w1 & Hw1 & Hs1);
        try assumption; try lia; try (apply nonempty_length; lia).
      exists w1. split; [exact Hw1 | exact Hs1].
    - apply Nat.ltb_ge in H2.
      assert (v1 = []) as -> by (apply length_zero_iff_nil; lia).
      exists (u1 ++ []). split; [now rewrite <- !app_assoc|].
      apply sortsTo_refl. now rewrite app_nil_r.
    - apply Nat.ltb_ge in H1.
      assert (u1 = []) as -> by (apply length_zero_iff_nil; lia).
      exists ([] ++ v1). split; [now rewrite <- !app_assoc|].
      now apply sortsTo_refl. }
  destruct Hdata2 as (w1 & Hdata2 & Hs1). rewrite Hdata2.
  assert (Hlen1 : length w1 = length u1 + length v1)
    by (rewrite (sortsTo_length _ _ Hs1), length_app; reflexivity).
  assert (Hres : exists w2,
            (if (mid <? end_)%nat && (end_ <? b)%nat
             then symMerge_func Less fuel (pre ++ w1 ++ u2 ++ v2 ++ post) mid end_ b
             else pre ++ w1 ++ u2 ++ v2 ++ post) = pre ++ w1 ++ w2 ++ post
            /\ sortsTo before w2 (u2 ++ v2)).
  { destruct (mid <? end_)%nat eqn:H1; [destruct (end_ <? b)%nat eqn:H2|]; cbn [andb].
    - apply Nat.ltb_lt in H1, H2.
      rewrite (app_assoc pre w1).
      destruct (IH (pre ++ w1) u2 v2 post mid end_ b) as (w2 & Hw2 & Hs2);
        try assumption; try lia; try (apply nonempty_length; lia);
        try (rewrite length_app; lia).
      exists w2. split; [now rewrite Hw2, <- !app_assoc | exact Hs2].
    - apply Nat.ltb_ge in H2.
      assert (v2 = []) as -> by (apply length_zero_iff_nil; lia).
      exists (u2 ++ []). split; [now rewrite <- !app_assoc|].
      apply sortsTo_refl. now rewrite app_nil_r.
    - apply Nat.ltb_ge in H1.
      assert (u2 = []) as -> by (apply length_zero_iff_nil; lia).
      exists ([] ++ v2). split; [now rewrite <- !app_assoc|].
      now apply sortsTo_refl. }
  destruct Hres as (w2 & Hres & Hs2). rewrite Hres.
  exists (w1 ++ w2). split; [now rewrite <- !app_assoc|].
  now apply sortsTo_blocks.
Qed.

Lemma symMerge_spec (fuel : nat) : merges before Less fuel.
Proof.
  induction fuel as [|fuel IH]; intros pre u v post a m b Hu Hv Hune Hvne Ha Hm Hb Hfuel.
  { apply nonempty_length in Hune. lia. }
  apply nonempty_length in Hune, Hvne.
  cbn [symMerge_func].
  destruct (m - a =? 1)%nat eqn:Hone.
  { apply Nat.eqb_eq in Hone.
    destruct u as [|x [|x' u]]; simpl in Hone, Hm, Hune; try lia. cbv zeta.
    set (data := pre ++ [x] ++ v ++ post).
    set (cond := fun h => Less data h a).
    assert (Hcond : forall h y, m <= h -> h < b -> v !! (h - m) = Some y -> cond h = before y x).
    { intros h y H1 H2 Hy. unfold cond, data.
      destruct (Less_across pre [x] v post a h x y) as [HL _]; simpl; try lia.
      - now replace (a - length pre) with 0 by lia.
      - now replace (length pre + 1) with m by lia.
      - exact HL. }
    pose proof (proj1 (sortedRun_lookup v) Hv) as Hasc.
    destruct (search_spec cond (b - m) m b) as (Hi & Htrue & Hfalse); [lia | lia | |].
    { intros h h' H1 H2 H3 Hc'.
      destruct (lookup_exists v (h - m)) as [y Hy]; [lia|].
      destruct (lookup_exists v (h' - m)) as [y' Hy']; [lia|].
      rewrite (Hcond h y) by (try lia; assumption).
      rewrite (Hcond h' y') in Hc' by (try lia; assumption).
      apply (notAfter_before y y' x); [|exact Hc'].
      apply (Hasc (h - m) (h' - m)); [lia | exact Hy | exact Hy']. }
    set (i := search (b - m) cond m b) in *.
    destruct (split_at (i - m) v) as (lo & rest & Hv' & Hlo & Hrest); [lia|].
    subst v.
    assert (Hlolt : forall y, In y lo -> before y x = true).
    { intros y Hy. destruct (In_lookup _ _ Hy) as [k Hk].
      pose proof (lookup_lt_Some _ _ _ Hk) as Hklt.
      rewrite <- (Hcond (m + k) y); [apply Htrue; lia | lia | rewrite length_app in Hb; lia|].
      replace (m + k - m) with k by lia. now apply lookup_app_l_Some. }
    assert (Hrestge : forall y, In y rest -> before y x = false).
    { intros y Hy. destruct (In_lookup _ _ Hy) as [k Hk].
      pose proof (lookup_lt_Some _ _ _ Hk) as Hklt.
      rewrite <- (Hcond (i + k) y); [apply Hfalse; lia | lia | rewrite length_app in Hb; lia|].
      rewrite lookup_app_r by lia. now replace (i + k - m - length lo) with k by lia. }
    exists (lo ++ x :: rest). split.
    - unfold data. replace (i - 1 - a) with (length lo) by lia.
      replace (pre ++ [x] ++ (lo ++ rest) ++ post) with (pre ++ x :: lo ++ rest ++ post)
        by (now rewrite <- !app_assoc).
      rewrite (carry_right lo pre (rest ++ post) x a Ha). now rewrite <- !app_assoc.
    - pose proof Hv as Hv'. apply sortedRun_app in Hv'. destruct Hv' as (Hrlo & Hrrest & _).
      apply (sortsTo_blocks [] [x] lo rest lo (x :: rest)).
      + apply sortedRun_singleton.
      + exact Hv.
      + intros ? ? [].
      + intros x0 y [<-|[]] Hy. now apply Hlolt.
      + now apply sortsTo_refl.
      + apply (sortsTo_refl (x :: rest)). simpl. split; [|exact Hrrest].
        apply Forall_forall. intros y Hy. apply list_elem_of_In in Hy. now apply Hrestge. }
  apply Nat.eqb_neq in Hone.
  destruct (b - m =? 1)%nat eqn:Hone'.
  { apply Nat.eqb_eq in Hone'.
    destruct v as [|y [|y' v]]; simpl in Hone', Hb, Hvne; try lia. cbv zeta.
    set (data := pre ++ u ++ [y] ++ post).
    set (cond := fun h => negb (Less data m h)).
    assert (Hcond : forall h x, a <= h -> h < m -> u !! (h - a) = Some x ->
                                cond h = negb (before y x)).
    { intros h x H1 H2 Hx. unfold cond, data.
      destruct (Less_across pre u [y] post h m x y) as [HL _];
        [lia | lia | lia | simpl; lia | now rewrite <- Ha
         | now replace (m - (length pre + length u)) with 0 by lia |].
      now rewrite HL. }
    pose proof (proj1 (sortedRun_lookup u) Hu) as Hasc.
    destruct (search_spec cond (m - a) a m) as (Hi & Htrue & Hfalse); [lia | lia | |].
    { intros h h' H1 H2 H3 Hc'.
      destruct (lookup_exists u (h - a)) as [x Hx]; [lia|].
      destruct (lookup_exists u (h' - a)) as [x' Hx']; [lia|].
      rewrite (Hcond h x) by (try lia; assumption).
      rewrite (Hcond h' x') in Hc' by (try lia; assumption).
      apply negb_true_iff in Hc'. apply negb_true_iff.
      apply (notAfter_trans x x' y); [|exact Hc'].
      apply (Hasc (h - a) (h' - a)); [lia | exact Hx | exact Hx']. }
    set (i := search (m - a) cond a m) in *.
    destruct (split_at (i - a) u) as (lo & hi & Hu' & Hlo & Hhi); [lia|].
    subst u.
    assert (Hlole : forall x, In x lo -> before y x = false).
    { intros x Hx. destruct (In_lookup _ _ Hx) as [k Hk].
      pose proof (lookup_lt_Some _ _ _ Hk) as Hklt.
      apply negb_true_iff.
      rewrite <- (Hcond (a + k) x); [apply Htrue; lia | lia | rewrite length_app in Hm; lia|].
      replace (a + k - a) with k by lia. now apply lookup_app_l_Some. }
    assert (Hhigt : forall x, In x hi -> before y x = true).
    { intros x Hx. destruct (In_lookup _ _ Hx) as [k Hk].
      pose proof (lookup_lt_Some _ _ _ Hk) as Hklt.
      apply negb_false_iff.
      rewrite <- (Hcond (i + k) x); [apply Hfalse; lia | lia | rewrite length_app in Hm; lia|].
      rewrite lookup_app_r by lia. now replace (i + k - a - length lo) with k by lia. }
    exists (lo ++ y :: hi). split.
    - unfold data. replace (m - i) with (length hi) by (rewrite length_app in Hm; lia).
      replace (pre ++ (lo ++ hi) ++ [y] ++ post) with ((pre ++ lo) ++ hi ++ y :: post)
        by (now rewrite <- !app_assoc).
      rewrite (carry_left hi (pre ++ lo) post y i) by (rewrite length_app; lia).
      now rewrite <- !app_assoc.
    - pose proof Hu as Hu'. apply sortedRun_app in Hu'. destruct Hu' as (Hrlo & Hrhi & _).
      pose proof (sortsTo_blocks lo hi [y] [] (lo ++ [y]) hi) as Hblocks.
      rewrite <- app_assoc in Hblocks. simpl in Hblocks. apply Hblocks.
      + exact Hu.
      + split; [constructor | exact I].
      + intros ? ? _ [].
      + intros x y0 Hx [<-|[]]. now apply Hhigt.
      + apply sortsTo_refl. apply sortedRun_app. split; [exact Hrlo|].
        split; [apply sortedRun_singleton|]. intros x y0 Hx [<-|[]]. now apply Hlole.
      + rewrite app_nil_r. now apply sortsTo_refl. }
  apply Nat.eqb_neq in Hone'.
  cbv zeta.
  destruct (if ((a + b) / 2 <? m)%nat then ((a + b) / 2 + m - b, (a + b) / 2) else (a, m))
    as [start0 r] eqn:Hsr.
  destruct (symMerge_split pre u v post a m b start0 r Hu Hv Ha Hm Hb
              ltac:(lia) ltac:(lia) (eq_sym Hsr))
    as (u1 & u2 & v1 & v2 & Hu12 & Hv12 & Hlu1 & Hlv1 & H1 & H2 & H3 & H4 & Hmid & C1 & C2).
  set (start := search (r - start0)
                  (fun c => negb (Less (pre ++ u ++ v ++ post) ((a + b) / 2 + m - 1 - c) c))
                  start0 r) in *.
  pose proof (Nat.div_mod_eq (a + b) 2) as Hdiv.
  pose proof (Nat.mod_upper_bound (a + b) 2 ltac:(lia)) as Hmod.
  subst u v. rewrite !length_app in *.
  apply (symMerge_halves fuel pre u1 u2 v1 v2 post a m b start
           ((a + b) / 2 + m - start) ((a + b) / 2)); try assumption; try lia.
Qed.

(** ** The passes over the blocks *)

Lemma chunked_short (blockSize : nat) (l : list A) :
  chunked before blockSize l -> length l <= blockSize -> sortedRun before l.
Proof.
  intros Hc Hlen. destruct Hc as [l _ Hrun|blk rest Hblk Hrun Hrest]; [exact Hrun|].
  rewrite length_app in Hlen.
  assert (rest = []) as -> by (apply length_zero_iff_nil; lia).
  now rewrite app_nil_r.
Qed.

Lemma chunked_take (blockSize : nat) (l : list A) :
  chunked before blockSize l -> blockSize <= length l ->
  exists blk rest,
    l = blk ++ rest /\ length blk = blockSize /\ sortedRun before blk /\ chunked before blockSize rest.
Proof.
  intros Hc Hlen. destruct Hc as [l Hle Hrun|blk rest Hblk Hrun Hrest].
  - exists l, []. rewrite app_nil_r. split; [reflexivity|]. split; [lia|].
    split; [exact Hrun|]. apply chunked_last; [simpl; lia | exact I].
  - now exists blk, rest.
Qed.

Lemma arranged_cons (blockSize : nat) (w seg rest' rest : list A) :
  sortsTo before w seg -> length seg = blockSize ->
  arranged before blockSize rest' rest ->
  arranged before blockSize (w ++ rest') (seg ++ rest).
Proof.
  intros (Hrun & Hperm & Hties) Hlen (Hc & Hperm' & Hties').
  split; [|split].
  - apply chunked_cons; [now rewrite Hperm | exact Hrun | exact Hc].
  - now rewrite Hperm, Hperm'.
  - intros e. now rewrite !List.filter_app, Hties, Hties'.
Qed.

Lemma arranged_last (blockSize : nat) (w seg : list A) :
  sortsTo before w seg -> length seg <= blockSize -> arranged before blockSize w seg.
Proof.
  intros (Hrun & Hperm & Hties) Hlen. split; [|now split].
  apply chunked_last; [now rewrite Hperm | exact Hrun].
Qed.

Lemma sortBlocks_spec (blockSize : nat) (fuel : nat) :
  forall (pre rest : list A) (n a b : nat),
    0 < blockSize -> a = length pre -> b = a + blockSize -> n = a + length rest ->
    length rest < fuel ->
    exists rest',
      sortBlocks Less fuel (pre ++ rest) blockSize n a b = pre ++ rest'
      /\ arranged before blockSize rest' rest.
Proof.
  intros. revert pre rest n a b H H0 H1 H2 H3.
  induction fuel as [|fuel IH]; intros pre rest n a b Hbs Ha Hb Hn Hfuel; [lia|].
  cbn [sortBlocks]. destruct (b <=? n)%nat eqn:Hle.
  - apply Nat.leb_le in Hle.
    destruct (split_at blockSize rest) as (blk & rest2 & -> & Hblk & Hrest2); [lia|].
    destruct (insertionSort_spec pre blk rest2) as (w & Hsort & Hw).
    replace (length pre + length blk) with b in Hsort by lia.
    rewrite <- Ha in Hsort. rewrite Hsort.
    rewrite (app_assoc pre w).
    destruct (IH (pre ++ w) rest2 n b (b + blockSize)) as (rest' & Hrec & Harr);
      [lia | rewrite length_app, (sortsTo_length _ _ Hw); lia | reflexivity
       | rewrite length_app in Hn; lia | rewrite length_app in Hfuel; lia|].
    rewrite Hrec. exists (w ++ rest'). split; [now rewrite <- app_assoc|].
    now apply arranged_cons.
  - apply Nat.leb_gt in Hle.
    destruct (insertionSort_spec pre rest []) as (w & Hsort & Hw).
    rewrite !app_nil_r in Hsort.
    replace (length pre + length rest) with n in Hsort by lia.
    rewrite <- Ha in Hsort. rewrite Hsort.
    exists w. split; [reflexivity|]. apply arranged_last; [exact Hw | lia].
Qed.

Lemma mergePass_spec (blockSize : nat) (fuel : nat) :
  forall (pre rest : list A) (n a b : nat),
    0 < blockSize -> a = length pre -> b = a + 2 * blockSize -> n = a + length rest ->
    chunked before blockSize rest -> length rest <= fuel ->
    exists rest',
      mergePass Less fuel (pre ++ rest) blockSize n a b = pre ++ rest'
      /\ arranged before (2 * blockSize) rest' rest.
Proof.
  induction fuel as [|fuel IH]; intros pre rest n a b Hbs Ha Hb Hn Hc Hfuel.
  - assert (rest = []) as -> by (apply length_zero_iff_nil; lia).
    exists []. split; [reflexivity|].
    split; [apply chunked_last; [simpl; lia | exact I]|].
    split; [reflexivity | intros e; reflexivity].
  - cbn [mergePass]. destruct (b <=? n)%nat eqn:Hle.
    + apply Nat.leb_le in Hle.
      destruct (chunked_take blockSize rest Hc) as (blk1 & rest1 & -> & Hl1 & Hr1 & Hc1); [lia|].
      rewrite length_app in Hn, Hfuel.
      destruct (chunked_take blockSize rest1 Hc1) as (blk2 & rest2 & -> & Hl2 & Hr2 & Hc2); [lia|].
      rewrite length_app in Hn, Hfuel.
      destruct (symMerge_spec n pre blk1 blk2 rest2 a (a + blockSize) b)
        as (w & Hmerge & Hw); try assumption; try lia;
        try (apply nonempty_length; lia).
      rewrite Hmerge. rewrite (app_assoc pre w).
      pose proof (sortsTo_length _ _ Hw) as Hwlen. rewrite length_app in Hwlen.
      destruct (IH (pre ++ w) rest2 n b (b + 2 * blockSize)) as (rest' & Hrec & Harr);
        [lia | rewrite length_app; lia | reflexivity | lia | exact Hc2 | lia|].
      rewrite Hrec. exists (w ++ rest'). split; [now rewrite <- app_assoc|].
      rewrite app_assoc. apply arranged_cons; [exact Hw | rewrite length_app; lia | exact Harr].
    + apply Nat.leb_gt in Hle. cbv zeta.
      destruct (a + blockSize <? n)%nat eqn:Hm.
      * apply Nat.ltb_lt in Hm.
        destruct (chunked_take blockSize rest Hc) as (blk1 & rest1 & -> & Hl1 & Hr1 & Hc1); [lia|].
        rewrite length_app in Hn, Hfuel.
        pose proof (chunked_short blockSize rest1 Hc1 ltac:(lia)) as Hr2.
        replace (pre ++ blk1 ++ rest1) with (pre ++ blk1 ++ rest1 ++ [])
          by (now rewrite app_nil_r).
        destruct (symMerge_spec n pre blk1 rest1 [] a (a + blockSize) n)
          as (w & Hmerge & Hw); try assumption; try lia;
          try (apply nonempty_length; lia).
        rewrite Hmerge, app_nil_r. exists w. split; [reflexivity|].
        apply arranged_last; [exact Hw | rewrite length_app; lia].
      * apply Nat.ltb_ge in Hm.
        pose proof (chunked_short blockSize rest Hc ltac:(lia)) as Hr.
        exists rest. split; [reflexivity|].
        apply arranged_last; [now apply sortsTo_refl | lia].
Qed.

Lemma mergeRuns_spec (fuel : nat) :
  forall (data : list A) (blockSize n : nat),
    0 < blockSize -> n = length data -> chunked before blockSize data ->
    n <= blockSize + fuel ->
    sortsTo before (mergeRuns Less fuel data blockSize n) data.
Proof.
  induction fuel as [|fuel IH]; intros data blockSize n Hbs Hn Hc Hfuel.
  - simpl. apply sortsTo_refl. apply (chunked_short blockSize); [exact Hc | lia].
  - cbn [mergeRuns]. destruct (blockSize <? n)%nat eqn:Hlt.
    + apply Nat.ltb_lt in Hlt.
      destruct (mergePass_spec blockSize n [] data n 0 (2 * blockSize))
        as (data' & Hpass & Hc' & Hperm & Hties);
        [exact Hbs | reflexivity | lia | simpl; lia | exact Hc | lia|].
      cbn [app] in Hpass. rewrite Hpass.
      destruct (IH data' (blockSize * 2) n) as (Hrun & Hperm' & Hties');
        [lia | now rewrite Hperm | now rewrite Nat.mul_comm | lia|].
      split; [exact Hrun|]. split; [now rewrite Hperm'|].
      intros e. now rewrite Hties'.
    + apply Nat.ltb_ge in Hlt. apply sortsTo_refl.
      apply (chunked_short blockSize); [exact Hc | lia].
Qed.

(** [sort.SliceStable] sorts, and keeps ties in the order they had. *)
Lemma SliceStable_sorts (x : list A) : sortsTo before (SliceStable Less x) x.
Proof.
  unfold SliceStable, stable_func. cbv zeta.
  destruct (sortBlocks_spec 20 (S (length x)) [] x (length x) 0 20)
    as (blocks & Hblocks & Hc & Hperm & Hties); [lia | reflexivity | lia | simpl; lia | lia|].
  cbn [app] in Hblocks. rewrite Hblocks.
  destruct (mergeRuns_spec (length x) blocks 20 (length x))
    as (Hrun & Hperm' & Hties'); [lia | now rewrite Hperm | exact Hc | lia|].
  split; [exact Hrun|]. split; [now rewrite Hperm'|].
  intros e. now rewrite Hties'.
Qed.

(** A sorted arrangement that keeps ties in order is the only one. *)
Lemma sortsTo_unique (l1 l2 : list A) :
  sortedRun before l1 -> sortedRun before l2 -> l1 ≡ₚ l2 -> tiesInOrder before l1 l2 -> l1 = l2.
Proof.
  revert l2. induction l1 as [|a l1 IH]; intros l2 H1 H2 Hperm Hties.
  - now apply Permutation_nil_l in Hperm.
  - destruct l2 as [|b l2]; [now apply Permutation_nil_r in Hperm|].
    destruct H1 as [Ha H1]. destruct H2 as [Hb H2].
    rewrite Forall_forall in Ha, Hb.
    assert (Hab : before b a = false).
    { assert (Hin : b ∈ a :: l1) by (rewrite Hperm; now left).
      apply elem_of_cons in Hin. destruct Hin as [->|Hin]; [apply before_irrefl | now apply Ha]. }
    assert (Hba : before a b = false).
    { assert (Hin : a ∈ b :: l2) by (rewrite <- Hperm; now left).
      apply elem_of_cons in Hin. destruct Hin as [->|Hin]; [apply before_irrefl | now apply Hb]. }
    pose proof (Hties a) as Ht. simpl in Ht. rewrite tied_refl in Ht.
    unfold tied in Ht at 2. rewrite Hab, Hba in Ht. simpl in Ht.
    injection Ht as <- _.
    f_equal. apply IH; [exact H1 | exact H2 | now apply Permutation_cons_inv in Hperm|].
    intros e. specialize (Hties e). simpl in Hties.
    destruct (tied before e a); [now injection Hties | exact Hties].
Qed.

Lemma SliceStable_sorted_input (x : list A) : sortedRun before x -> SliceStable Less x = x.
Proof.
  intros Hx. destruct (SliceStable_sorts x) as (Hrun & Hperm & Hties).
  now apply sortsTo_unique.
Qed.

End SliceStableSorts.

(* ================================================================== *)
(** * The ascending sort of the table                                  *)
(* ================================================================== *)

Lemma String_compare_refl (a : string) : String.compare a a = Eq.
Proof.
  induction a as [|c a IH]; simpl; [reflexivity|].
  unfold Ascii.compare. now rewrite N.compare_refl.
Qed.

Lemma String_compare_lt_trans (a b c : string) :
  String.compare a b = Lt -> String.compare b c = Lt -> String.compare a c = Lt.
Proof.
  revert b c. induction a as [|x a IH]; intros [|y b] [|z c]; simpl;
    try discriminate; try reflexivity.
  destruct (Ascii.compare x y) eqn:Hxy; try discriminate;
    destruct (Ascii.compare y z) eqn:Hyz; try discriminate; intros Hab Hbc.
  - apply Ascii.compare_eq_iff in Hxy, Hyz. subst.
    unfold Ascii.compare. rewrite N.compare_refl. now apply (IH b).
  - apply Ascii.compare_eq_iff in Hxy. subst. now rewrite Hyz.
  - apply Ascii.compare_eq_iff in Hyz. subst. now rewrite Hxy.
  - unfold Ascii.compare in *. rewrite N.compare_lt_iff in *.
    replace (N_of_ascii x ?= N_of_ascii z)%N with Lt; [reflexivity|].
    symmetry. apply N.compare_lt_iff. lia.
Qed.

Lemma stringLess_trans (a b c : string) :
  stringLess a b = true -> stringLess b c = true -> stringLess a c = true.
Proof.
  unfold stringLess, String.ltb. intros Hab Hbc.
  destruct (String.compare a b) eqn:Cab; try discriminate.
  destruct (String.compare b c) eqn:Cbc; try discriminate.
  now rewrite (String_compare_lt_trans a b c Cab Cbc).
Qed.

Lemma stringLess_tied (a b : string) :
  negb (stringLess a b) && negb (stringLess b a) = String.eqb a b.
Proof.
  unfold stringLess, String.ltb. rewrite (String.compare_antisym b a).
  destruct (String.eqb_spec a b) as [->|Hne].
  - now rewrite String_compare_refl.
  - destruct (String.compare a b) eqn:Cab; try reflexivity.
    apply String.compare_eq_iff in Cab. contradiction.
Qed.

Lemma stringLess_notAfter_trans (x y z : string) :
  stringLess y x = false -> stringLess z y = false -> stringLess z x = false.
Proof.
  intros Hyx Hzy. destruct (stringLess z x) eqn:Hzx; [|reflexivity].
  destruct (stringLess x y) eqn:Hxy.
  - now rewrite (stringLess_trans z x y Hzx Hxy) in Hzy.
  - pose proof (stringLess_tied x y) as Ht. rewrite Hxy, Hyx in Ht. simpl in Ht.
    symmetry in Ht. apply String.eqb_eq in Ht. subst. congruence.
Qed.

(** Filtering by a key that decides the ties. *)
Lemma ties_by_key {A : Type} (before : A -> A -> bool) (key : A -> string) (l' l : list A) :
  (forall a b, tied before a b = String.eqb (key a) (key b)) ->
  l' ≡ₚ l -> tiesInOrder before l' l ->
  forall k, List.filter (fun v => String.eqb (key v) k) l'
            = List.filter (fun v => String.eqb (key v) k) l.
Proof.
  intros Hkey Hperm Hties k.
  destruct (existsb (fun v => String.eqb (key v) k) l) eqn:Hex.
  - apply existsb_exists in Hex. destruct Hex as (e & _ & He).
    apply String.eqb_eq in He. subst k.
    assert (Hext : forall l0, List.filter (fun v => String.eqb (key v) (key e)) l0
                              = List.filter (tied before e) l0).
    { intros l0. apply List.filter_ext. intros v. rewrite Hkey. apply String.eqb_sym. }
    rewrite !Hext. apply Hties.
  - assert (Hnone : forall v, In v l -> String.eqb (key v) k = false).
    { intros v Hv. destruct (String.eqb (key v) k) eqn:Hk; [|reflexivity].
      rewrite <- Hex. symmetry. apply existsb_exists. now exists v. }
    rewrite !filter_none; [reflexivity | exact Hnone|].
    intros v Hv. apply Hnone. apply list_elem_of_In. rewrite <- Hperm.
    now apply list_elem_of_In.
Qed.

Section AscendingSort.

Context `{CaseFolding}.

Lemma ascending_Sort_sortsTo (m : VacancyModel) (col : Z) :
  sortsTo (fun a b => stringLess (sortKey col a) (sortKey col b))
    (items (Sort m col SortAscending)) (items m).
Proof.
  unfold Sort. cbn [items]. apply SliceStable_sorts.
  - intros data i j x y Hi Hj.
    exact (Less_sortKey {| items := data; sortColumn := col; sortOrder := SortAscending |}
             i j x y Hi Hj).
  - intros x. apply stringLess_irrefl.
  - intros x y z. apply stringLess_trans.
  - intros x y z. apply stringLess_notAfter_trans.
Qed.

(** X2 -- In ascending order [Sort] is a stable sort, for every column: no row
    of the sorted table has a key, the lower-cased title, company or
    status, that sorts before the key of an earlier row, and the rows
    that share a key stand in the order they had before. *)
Theorem ascending_sort_is_stable (m : VacancyModel) (col : Z) :
  let sorted := items (Sort m col SortAscending) in
  ascending (fun a b => stringLess (sortKey col a) (sortKey col b)) sorted
  /\ forall key, List.filter (fun v => String.eqb (sortKey col v) key) sorted
                 = List.filter (fun v => String.eqb (sortKey col v) key) (items m).
Proof.
  cbv zeta. destruct (ascending_Sort_sortsTo m col) as (Hrun & Hperm & Hties).
  split.
  - apply sortedRun_lookup; [intros x; apply stringLess_irrefl | exact Hrun].
  - apply (ties_by_key (fun a b => stringLess (sortKey col a) (sortKey col b)));
      [|exact Hperm | exact Hties].
    intros a b. apply stringLess_tied.
Qed.

(** X3 -- Sorting in ascending order a table that is in that order already
    leaves it as it is, so that sorting twice is sorting once. *)
Theorem ascending_sort_settles (m : VacancyModel) (col : Z) :
  (ascending (fun a b => stringLess (sortKey col a) (sortKey col b)) (items m) ->
   items (Sort m col SortAscending) = items m)
  /\ Sort (Sort m col SortAscending) col SortAscending = Sort m col SortAscending.
Proof.
  assert (Hfix : forall m', ascending (fun a b => stringLess (sortKey col a) (sortKey col b))
                              (items m') ->
                            items (Sort m' col SortAscending) = items m').
  { intros m' Hasc. destruct (ascending_Sort_sortsTo m' col) as (Hrun & Hperm & Hties).
    apply (sortsTo_unique (fun a b => stringLess (sortKey col a) (sortKey col b)));
      try assumption.
    - intros x. apply stringLess_irrefl.
    - apply sortedRun_lookup; [intros x; apply stringLess_irrefl | exact Hasc]. }
  split; [apply Hfix|].
  assert (Hitems : items (Sort (Sort m col SortAscending) col SortAscending)
                   = items (Sort m col SortAscending)).
  { apply Hfix. destruct (ascending_Sort_sortsTo m col) as (Hrun & _ & _).
    apply sortedRun_lookup; [intros x; apply stringLess_irrefl | exact Hrun]. }
  unfold Sort in *. cbn [items] in *. now rewrite Hitems.
Qed.

End AscendingSort.

Lemma ascending_sort_settles_witness :
  let a := sampleVacancy "Go Dev" "Acme" in
  let b := sampleVacancy "GO DEV" "Initech" in
  let m := {| items := [a; b]; sortColumn := 0; sortOrder := SortDescending |} in
  items (Sort m 0 SortAscending) = [a; b].
Proof.
  cbv zeta.
  apply (proj1 (ascending_sort_settles
                  {| items := [sampleVacancy "Go Dev" "Acme"; sampleVacancy "GO DEV" "Initech"];
                     sortColumn := 0; sortOrder := SortDescending |} 0)).
  intros i j x y Hij Hi Hj.
  destruct i as [|[|i]], j as [|[|j]]; simpl in Hi, Hj; try discriminate; try lia;
    injection Hi as <-; injection Hj as <-; reflexivity.
Defined.

(* ================================================================== *)
(** * The key invariant                                                *)
(* ================================================================== *)

Section KeyInvariant.

Context `{CaseFolding}.
Variable Base : string -> string.

(** X13 -- Unique keys stay unique when a record is added through the dialog
    (from the local list or from the online results), when a record is
    deleted, and when the details panel is saved. *)
Theorem unique_keys_are_kept (dlg : AddVacancyDialog) (isOnlineSearch : bool)
    (panel : DetailsPanel) (selected vacancyInView : Vacancy)
    (allVacancies : list Vacancy) :
  uniqueKeys allVacancies ->
  (isEdit dlg && negb isOnlineSearch = false ->
   uniqueKeys (fst (acceptVacancyDialog dlg isOnlineSearch allVacancies)))
  /\ uniqueKeys (confirmDeleteVacancy selected allVacancies)
  /\ uniqueKeys (saveVacancyDetails panel vacancyInView allVacancies).
Proof.
  intros Huniq. split; [|split].
  - intros Hadd. now apply add_keeps_uniqueKeys.
  - now apply delete_keeps_uniqueKeys.
  - now apply details_keep_uniqueKeys.
Qed.

(** The edit branch of the accept handler, which no widget of the window
    as it is built leads to, writes the form over the record without
    looking the new key up: accepted on a form whose key another record
    has, it leaves two records with one key. *)
Lemma edit_branch_can_duplicate_a_key (dlg : AddVacancyDialog)
    (allVacancies stored : list Vacancy) (k j : nat) (other : Vacancy) :
  isEdit dlg = true ->
  acceptVacancyDialog dlg false allVacancies = (stored, Accepted) ->
  findVacancyIndexInAllExt allVacancies (originalTitle dlg) (originalCompany dlg) = Some k ->
  allVacancies !! j = Some other -> j <> k ->
  sameKey other (savedVacancyOf dlg) = true ->
  ~ uniqueKeys stored.
Proof.
  intros Hedit Hacc Hfind Hj Hjk Hsame Huniq.
  unfold acceptVacancyDialog in Hacc. rewrite Hedit, Hfind in Hacc. cbn [negb andb] in Hacc.
  destruct (String.eqb (Title (savedVacancyOf dlg)) ""); [discriminate|].
  injection Hacc as <-.
  apply findFrom_Some in Hfind. destruct Hfind as [_ [old [Hold _]]].
  rewrite Nat.sub_0_r in Hold. apply lookup_lt_Some in Hold.
  assert (Hsj : <[k := savedVacancyOf dlg]> allVacancies !! j = Some other)
    by (rewrite list_lookup_insert_ne by congruence; exact Hj).
  assert (Hsk : <[k := savedVacancyOf dlg]> allVacancies !! k = Some (savedVacancyOf dlg))
    by (now apply list_lookup_insert_eq).
  specialize (Huniq j k other (savedVacancyOf dlg) Hsj Hsk Hjk). congruence.
Qed.





End KeyInvariant.

(* ================================================================== *)
(** * The empty query                                                  *)
(* ================================================================== *)

Section EmptyQuery.

Context `{CaseFolding}.

(** C6 -- with an empty query string and a free-text selector (everywhere,
    title, company, description or keywords) the filter keeps the whole
    snapshot in its order, and [performSearch] shows that list sorted by
    the column and order of the table: the same records, each as often as
    in the snapshot, arranged by the sort and not as the snapshot has
    them.  Under an ascending sort the rows are in ascending order of the
    key with the records of one key in snapshot order, so a snapshot that
    is in that order already is shown as it is. *)
Theorem empty_query_shows_sorted_snapshot (ui : SearchControls) (snapshot : list Vacancy)
    (m : VacancyModel) :
  searchEdit_Text ui = "" ->
  searchFieldCB_CurrentIndex ui <> 5%Z ->
  searchFieldCB_CurrentIndex ui <> 6%Z ->
  let shown := items (performSearch ui snapshot m) in
  let before a b := stringLess (sortKey (sortColumn m) a) (sortKey (sortColumn m) b) in
  filterVacancies ui snapshot = snapshot
  /\ performSearch ui snapshot m
     = Sort {| items := snapshot; sortColumn := sortColumn m; sortOrder := sortOrder m |}
         (sortColumn m) (sortOrder m)
  /\ shown ≡ₚ snapshot
  /\ (sortOrder m = SortAscending ->
      ascending before shown
      /\ (forall key,
            List.filter (fun v => String.eqb (sortKey (sortColumn m) v) key) shown
            = List.filter (fun v => String.eqb (sortKey (sortColumn m) v) key) snapshot)
      /\ (ascending before snapshot -> shown = snapshot)).
Proof.
  intros Hempty H5 H6. cbv zeta.
  pose proof (filterVacancies_unfiltered ui snapshot Hempty H5 H6) as Hfilter.
  assert (Hshown : performSearch ui snapshot m
                   = Sort {| items := snapshot; sortColumn := sortColumn m;
                             sortOrder := sortOrder m |} (sortColumn m) (sortOrder m))
    by (unfold performSearch; now rewrite Hfilter).
  split; [exact Hfilter|]. split; [exact Hshown|]. rewrite Hshown. split.
  - unfold Sort. cbn [items]. apply SliceStable_Permutation.
  - intros Hasc. rewrite Hasc.
    set (sorted := {| items := snapshot; sortColumn := sortColumn m;
                      sortOrder := SortAscending |}).
    destruct (ascending_Sort_sortsTo sorted (sortColumn m)) as (Hrun & Hperm & Hties).
    cbn [items sorted] in Hperm, Hties.
    split; [|split].
    + apply sortedRun_lookup; [intros x; apply stringLess_irrefl | exact Hrun].
    + apply (ties_by_key
               (fun a b => stringLess (sortKey (sortColumn m) a) (sortKey (sortColumn m) b)));
        [|exact Hperm | exact Hties].
      intros a b. apply stringLess_tied.
    + intros Hsnapshot.
      apply (sortsTo_unique
               (fun a b => stringLess (sortKey (sortColumn m) a) (sortKey (sortColumn m) b)));
        try assumption.
      * intros x. apply stringLess_irrefl.
      * apply sortedRun_lookup; [intros x; apply stringLess_irrefl | exact Hsnapshot].
Qed.

End EmptyQuery.

(* ================================================================== *)
(** * These properties at sample data                                  *)
(* ================================================================== *)

Lemma unique_keys_are_kept_witness :
  let store := [sampleVacancy "Go Dev" "Acme"; sampleVacancy "QA" "Acme"] in
  uniqueKeys store
  /\ uniqueKeys (fst (acceptVacancyDialog (sampleForm "Go Dev" "Globex" "go") true store))
  /\ uniqueKeys (confirmDeleteVacancy (sampleVacancy "qa" "ACME") store)
  /\ uniqueKeys (saveVacancyDetails (samplePanel "go") (sampleVacancy "QA" "Acme") store).
Proof.
  cbv zeta.
  assert (Huniq : uniqueKeys [sampleVacancy "Go Dev" "Acme"; sampleVacancy "QA" "Acme"])
    by uniqueKeys_of_two.
  split; [exact Huniq|].
  destruct (unique_keys_are_kept (sampleForm "Go Dev" "Globex" "go") true (samplePanel "go")
              (sampleVacancy "qa" "ACME") (sampleVacancy "QA" "Acme") _ Huniq)
    as (Hadd & Hdel & Hsave).
  split; [exact (Hadd eq_refl)|]. split; [exact Hdel | exact Hsave].
Defined.


(** C6 -- the rows shown for an empty query are not in snapshot order: a
    snapshot that holds ["QA"] before ["Go Dev"] passes the filter as it
    is and is shown, in a table sorted by title as a new model is, with
    ["Go Dev"] first. *)
Lemma empty_query_reorders_snapshot :
  let snapshot := [sampleVacancy "QA" "Acme"; sampleVacancy "Go Dev" "Acme"] in
  let ui := sampleControls 0 "Новая" "Не указан" "" in
  let m := {| items := []; sortColumn := 0; sortOrder := SortAscending |} in
  filterVacancies ui snapshot = snapshot
  /\ items (performSearch ui snapshot m)
     = [sampleVacancy "Go Dev" "Acme"; sampleVacancy "QA" "Acme"]
  /\ items (performSearch ui snapshot m) <> snapshot.
Proof.
  cbv zeta. split; [reflexivity|]. split; [reflexivity|].
  intros Heq. vm_compute in Heq. discriminate Heq.
Qed.

Lemma empty_query_shows_sorted_snapshot_witness :
  let snapshot := [sampleVacancy "QA" "Acme"; sampleVacancy "Go Dev" "Acme"] in
  let sorted := [sampleVacancy "Go Dev" "Acme"; sampleVacancy "QA" "Acme"] in
  let ui := sampleControls 0 "Новая" "Не указан" "" in
  let m := {| items := []; sortColumn := 0; sortOrder := SortAscending |} in
  items (performSearch ui snapshot m) ≡ₚ snapshot
  /\ items (performSearch ui sorted m) = sorted.
Proof.
  cbv zeta. split.
  - destruct (empty_query_shows_sorted_snapshot (sampleControls 0 "Новая" "Не указан" "")
                [sampleVacancy "QA" "Acme"; sampleVacancy "Go Dev" "Acme"]
                {| items := []; sortColumn := 0; sortOrder := SortAscending |})
      as (_ & _ & Hperm & _); [reflexivity | simpl; lia | simpl; lia | exact Hperm].
  - destruct (empty_query_shows_sorted_snapshot (sampleControls 0 "Новая" "Не указан" "")
                [sampleVacancy "Go Dev" "Acme"; sampleVacancy "QA" "Acme"]
                {| items := []; sortColumn := 0; sortOrder := SortAscending |})
      as (_ & _ & _ & Hasc); [reflexivity | simpl; lia | simpl; lia|].
    destruct (Hasc eq_refl) as (_ & _ & Hkept). apply Hkept.
    intros i j x y Hij Hi Hj.
    destruct i as [|[|i]], j as [|[|j]]; simpl in Hi, Hj; try discriminate; try lia;
      injection Hi as <-; injection Hj as <-; reflexivity.
Defined.
